(** * thoth-adviser: predictors, the scoring adviser, the pre-release step
      and the sub-process wrapper

    A shallow embedding of
    - [thoth/adviser/predictors/td.py]   (module [TD]),
    - [thoth/adviser/predictors/mcts.py] (module [MCTS]),
    - [thoth/adviser/python/advise.py]   (module [Advise]),
    - [thoth/adviser/python/pipeline/steps/prereleases.py] (module [PreReleases]),
    - [thoth/adviser/run.py]             (module [Run]),
    together with the properties the specification states about them.

    Python floats are IEEE-754 binary64 values and are embedded as Rocq's
    primitive floats; Python integers are unbounded and are embedded as [Z].
    Exceptions are embedded as the [Raise] constructor of [result]. *)

From Stdlib Require Import ZArith Bool List Lia Floats String.
From Stdlib Require Import Sorting.Sorted Sorting.Permutation.
From stdpp Require Import base option list sorting gmap strings.

Local Open Scope string_scope.
Local Open Scope list_scope.
Local Open Scope Z_scope.

(** ** Python prelude *)

Module Py.

(** The exceptions the embedded code can raise; [Exception] carries the
    message of an exception raised by a collaborator. *)
Inductive exn : Type :=
| ZeroDivisionError
| OverflowError
| TypeError
| AttributeError
| Exception (msg : string).

Inductive result (A : Type) : Type :=
| Ok (a : A)
| Raise (e : exn).
Arguments Ok {A} a.
Arguments Raise {A} e.

#[global] Instance result_ret : MRet result := fun A a => Ok a.
#[global] Instance result_bind : MBind result := fun A B k r =>
  match r with
  | Ok a => k a
  | Raise e => Raise e
  end.

(** [float(z)] for an [int]: the nearest binary64 value (ties to even);
    CPython raises [OverflowError] when the integer is out of range. *)
Definition Z2float (z : Z) : float :=
  SF2Prim (binary_normalize prec emax z 0 false).

Definition float_of_int (z : Z) : result float :=
  let f := Z2float z in
  if is_infinity f then Raise OverflowError else Ok f.

(** Mixed arithmetic [float op int]: the int operand is converted first. *)
Definition fmul_int (x : float) (z : Z) : result float :=
  y ← float_of_int z; Ok (PrimFloat.mul x y).

Definition fadd_int (x : float) (z : Z) : result float :=
  y ← float_of_int z; Ok (PrimFloat.add x y).

(** [x / y] on floats raises on a zero divisor (of either sign). *)
Definition fdiv (x y : float) : result float :=
  if is_zero y then Raise ZeroDivisionError else Ok (PrimFloat.div x y).

Definition fdiv_int (x : float) (z : Z) : result float :=
  y ← float_of_int z; fdiv x y.

Definition int_div_float (z : Z) (y : float) : result float :=
  x ← float_of_int z; fdiv x y.

(** A Python number that is either an [int] or a [float]. *)
Inductive num : Type :=
| Int (z : Z)
| Float (f : float).

(** [x == 0.0]; an int is compared with a float by value. *)
Definition num_is_zero (x : num) : bool :=
  match x with
  | Int z => Z.eqb z 0
  | Float f => PrimFloat.eqb f 0%float
  end.

(** The builtin [max(a, b)] on floats: [b] replaces [a] only when
    [b > a]. *)
Definition max (a b : float) : float :=
  if PrimFloat.ltb a b then b else a.

(** [math.isnan] and [math.isinf]. *)
Definition isnan (x : float) : bool := is_nan x.
Definition isinf (x : float) : bool := is_infinity x.

End Py.

Import Py.

(** ** The order of floats

    Floats other than NaN are ordered like their ranks: triples of
    integers (class and sign, exponent, mantissa) in lexicographic
    order. *)

Definition sf_is_nan (f : spec_float) : bool :=
  match f with S754_nan => true | _ => false end.

Definition sf_rank (f : spec_float) : Z * Z * Z :=
  match f with
  | S754_zero _ => (0, 0, 0)
  | S754_infinity false => (2, 0, 0)
  | S754_infinity true => (-2, 0, 0)
  | S754_nan => (0, 0, 0)
  | S754_finite false m e => (1, e, Zpos m)
  | S754_finite true m e => (-1, - e, Zneg m)
  end.

Definition float_rank (x : float) : Z * Z * Z := sf_rank (Prim2SF x).

Definition lex3 (a b : Z * Z * Z) : Prop :=
  a.1.1 < b.1.1
  \/ (a.1.1 = b.1.1 /\ (a.1.2 < b.1.2 \/ (a.1.2 = b.1.2 /\ a.2 < b.2))).

(** ** Insertion-ordered dictionaries and [sorted]

    A Python [dict] keeps its keys in insertion order, and the eviction of
    the policy store depends on that order (through the stability of
    [sorted]), so a dictionary is an association list with unique keys. *)

Section Dict.
Context {K V : Type} `{EqDecision K}.

Definition dict : Type := list (K * V).

Fixpoint dict_get (k : K) (d : dict) : option V :=
  match d with
  | [] => None
  | (k', v) :: d' => if decide (k = k') then Some v else dict_get k d'
  end.

(** [d.setdefault(k, v)]: a missing key is appended at the end. *)
Fixpoint dict_setdefault (k : K) (v : V) (d : dict) : dict :=
  match d with
  | [] => [(k, v)]
  | (k', v') :: d' =>
      if decide (k = k') then d else (k', v') :: dict_setdefault k v d'
  end.

(** In-place mutation of the value stored under [k]. *)
Fixpoint dict_alter (f : V -> V) (k : K) (d : dict) : dict :=
  match d with
  | [] => []
  | (k', v) :: d' =>
      if decide (k = k') then (k', f v) :: d' else (k', v) :: dict_alter f k d'
  end.

Definition dict_keys (d : dict) : list K := map fst d.

(** [d[k] = v]: a key already present keeps its place. *)
Fixpoint dict_set (k : K) (v : V) (d : dict) : dict :=
  match d with
  | [] => [(k, v)]
  | (k', v') :: d' =>
      if decide (k = k') then (k', v) :: d' else (k', v') :: dict_set k v d'
  end.

(** [dict(items)] for a list of pairs. *)
Definition dict_of_items (items : list (K * V)) : dict :=
  fold_left (fun d kv => dict_set (fst kv) (snd kv) d) items [].
End Dict.
Arguments dict : clear implicits.

Section Sorted.
Context {A B : Type} (key : A -> B) (lt : B -> B -> bool).

(** Stable insertion from the left: [x] stood before every element of
    the list, so it stays before the elements it is not greater than. *)
Fixpoint insert_sorted (x : A) (l : list A) : list A :=
  match l with
  | [] => [x]
  | y :: l' =>
      if lt (key y) (key x) then y :: insert_sorted x l' else x :: l
  end.

Definition sort_stable (l : list A) : list A := foldr insert_sorted [] l.

(** [sorted(l, key=key, reverse=reverse)].  Only [<] on the keys is
    used; with [reverse] the list is reversed, sorted and reversed
    again, which keeps equal keys in their original order.  On keys that
    [<] orders totally every stable sort returns this list. *)
Definition sorted (reverse : bool) (l : list A) : list A :=
  if reverse then rev (sort_stable (rev l)) else sort_stable l.

(** [a] may stand before [b] in ascending order, in descending order:
    the later one is not below, not above, the earlier one. *)
Definition ascending (a b : A) : Prop := lt (key b) (key a) = false.
Definition descending (a b : A) : Prop := lt (key a) (key b) = false.
End Sorted.

(** The slice [l[:n]]; a negative [n] counts from the end. *)
Definition slice_to {A} (n : Z) (l : list A) : list A :=
  if 0 <=? n then take (Z.to_nat n) l
  else take (Z.to_nat (Z.of_nat (length l) + n)) l.

(** ** States, contexts and the policy store *)

(** A package tuple [(name, version, index_url)]. *)
Definition PackageTuple : Type := string * string * string.

(** [package_tuple[0]] *)
Definition pt_name (pt : PackageTuple) : string := fst (fst pt).

(** Modelled from the spec: [State] ([thoth/adviser/state.py] is not among
    the sources).  A state carries its accumulated score, the resolved
    package tuples in resolution order and, for each open dependency name
    in the order the names were opened, its candidates. *)
Record State : Type := {
  score : float;
  resolved : list PackageTuple;
  unresolved : list (string * list PackageTuple);
}.

Definition iter_resolved_dependencies (s : State) : list PackageTuple :=
  resolved s.

(** Modelled from the spec: the front candidate of each open dependency
    name, in the order the names were first opened. *)
Definition iter_unresolved_dependencies (s : State) : list PackageTuple :=
  flat_map (fun o => take 1 (snd o)) (unresolved s).

(** The part of [Context] the predictors read.  The beam is represented by
    the state its [max()] returns. *)
Record Context : Type := {
  iteration : Z;
  limit : Z;
  accepted_final_states_count : Z;
  beam_max : State;
}.

(** Keys of the policy dictionary.  [set_reward_signal] stores records
    under package tuples; [_do_exploitation] also looks a package name up. *)
Inductive key : Type :=
| KName (name : string)
| KTuple (pt : PackageTuple).

#[global] Instance key_eq_dec : EqDecision key.
Proof. solve_decision. Defined.

(** A policy record, the two-element list [[reward_sum, count]]. *)
Record reward_record : Type := {
  reward_sum : float;
  visit_count : Z;
}.

Definition policy : Type := dict key reward_record.

(** A policy that holds no record under a bare package name: what
    [set_reward_signal], which stores under package tuples, builds. *)
Definition tuple_keyed (p : policy) : Prop :=
  forall k, k ∈ dict_keys p -> exists pt, k = KTuple pt.

(** [<] on two records as Python compares two-element lists: the first
    position where the operands differ (by [==]) decides. *)
Definition record_lt (a b : reward_record) : bool :=
  if PrimFloat.eqb (reward_sum a) (reward_sum b)
  then visit_count a <? visit_count b
  else PrimFloat.ltb (reward_sum a) (reward_sum b).

(** Records whose sum is not NaN are ordered by [record_lt] like the
    ranks of their sums followed by their counts. *)
Definition no_nan (r : reward_record) : Prop := is_nan (reward_sum r) = false.

Definition record_below (a b : reward_record) : Prop :=
  lex3 (float_rank (reward_sum a)) (float_rank (reward_sum b))
  \/ (float_rank (reward_sum a) = float_rank (reward_sum b)
      /\ visit_count a < visit_count b).

(** [after] keeps the [size] first entries of [before] in descending
    order of the records: it has at most [size] entries, and when no sum
    is NaN no entry left out of it has a record above the record of an
    entry kept in it. *)
Definition retains_top (size : Z) (before after : policy) : Prop :=
  after = take (Z.to_nat size) (sorted snd record_lt true before)
  /\ (length after <= Z.to_nat size)%nat
  /\ (Forall (fun kv => no_nan (snd kv)) before ->
      forall kept dropped,
        kept ∈ after -> dropped ∈ before -> dropped ∉ after ->
        record_lt (snd kept) (snd dropped) = false).

(** The list [[0.0, 0]] a new record starts from. *)
Definition fresh_record : reward_record :=
  {| reward_sum := 0%float; visit_count := 0 |}.

(** [record[0] += r; record[1] += 1]. *)
Definition add_reward (r : float) (rec : reward_record) : reward_record :=
  {| reward_sum := PrimFloat.add (reward_sum rec) r;
     visit_count := visit_count rec + 1 |}.

(** [record = policy.setdefault(pt, [0.0, 0])] followed by the two
    updates of the record, which is the one stored in the dictionary. *)
Definition credit (r : float) (p : policy) (pt : PackageTuple) : policy :=
  dict_alter (add_reward r) (KTuple pt)
    (dict_setdefault (KTuple pt) fresh_record p).

Definition credit_all (r : float) (p : policy) (pts : list PackageTuple)
  : policy :=
  fold_left (credit r) pts p.

(** [dict(sorted(policy.items(), key=operator.itemgetter(1),
    reverse=True)[:size])]. *)
Definition shrink (size : Z) (p : policy) : policy :=
  dict_of_items (slice_to size (sorted snd record_lt true p)).

(** The periodic eviction both predictors end [set_reward_signal] with. *)
Definition shrink_periodically (size : Z) (ctx : Context) (p : policy)
  : policy :=
  if negb (size =? 0) && (iteration ctx mod 1024 =? 0)
  then shrink size p
  else p.

(** A policy in which every record counts at least one visit. *)
Definition visited (p : policy) : Prop :=
  Forall (fun kv => 1 <= visit_count (snd kv)) p.

(** ** [TemporalDifference] *)

Module TD.

Record TemporalDifference : Type := {
  context : Context;
  _temperature : num;
  _policy : policy;
  _a : float;
}.

Definition set_a (self : TemporalDifference) (a : float)
  : TemporalDifference :=
  {| context := context self; _temperature := _temperature self;
     _policy := _policy self; _a := a |}.

Definition set_policy (self : TemporalDifference) (p : policy)
  : TemporalDifference :=
  {| context := context self; _temperature := _temperature self;
     _policy := p; _a := _a self |}.

(** [0.5 * context.iteration / context.accepted_final_states_count
    * context.limit] *)
Definition slope (ctx : Context) : result float :=
  x ← fmul_int 0.5%float (iteration ctx);
  y ← fdiv_int x (accepted_final_states_count ctx);
  fmul_int y (limit ctx).

(** [(-context.limit / self._a) * context.iteration + context.limit] *)
Definition cooling (a : float) (ctx : Context) : result float :=
  x ← int_div_float (- limit ctx) a;
  y ← fmul_int x (iteration ctx);
  fadd_int y (limit ctx).

Definition _temperature_function
  (self : TemporalDifference) (t0 : num) (ctx : Context)
  : result (num * TemporalDifference) :=
  if accepted_final_states_count ctx =? 0 then
    Ok (Float 0%float, self)
  else if num_is_zero t0 && (accepted_final_states_count ctx =? 1) then
    a ← slope ctx;
    Ok (Int (limit ctx), set_a self a)
  else
    temperature ← cooling (_a self) ctx;
    Ok (Float (Py.max temperature 0%float), self).

Definition set_temperature (self : TemporalDifference) (t : num)
  : TemporalDifference :=
  {| context := context self; _temperature := t;
     _policy := _policy self; _a := _a self |}.

(** The resolver moves the context on between two calls of the
    predictor. *)
Definition set_context (self : TemporalDifference) (ctx : Context)
  : TemporalDifference :=
  {| context := ctx; _temperature := _temperature self;
     _policy := _policy self; _a := _a self |}.

(** An entry of [_temperature_history]: the temperature, whether the
    state is the beam maximum, the acceptance probability and the number
    of accepted final states. *)
Definition history_entry : Type := num * bool * float * Z.

(** What a call of [run] meets outside the predictor: the beam of the
    context beyond its maximum ([beam.size], [beam.get(idx)] and
    [beam.get_random()], which [MCTS] also calls with an index), the
    draws of [random.randrange] and [random.random], the acceptance
    probability and the [keep_history] flag of the annealing base class,
    and the identity test [state is self.context.beam.max()].  The beam
    and the base class are not among the sources, so what they give may
    be anything, an exception included. *)
Record Env : Type := {
  beam_size : Z;
  beam_get : Z -> result State;
  beam_get_random : option Z -> result State;
  randrange : Z -> Z -> Z;
  random_random : float;
  _compute_acceptance_probability : float -> float -> num -> result float;
  keep_history : bool;
  is_beam_max : State -> bool;
}.

(** A call of [set_reward_signal]: the context at the time of the call
    and the three arguments. *)
Record signal : Type := {
  at_context : Context;
  of_state : State;
  action : PackageTuple;
  reward : float;
}.

(** The call credits the package tuple: its reward is finite and its
    state has the tuple resolved. *)
Definition credits (pt : PackageTuple) (s : signal) : bool :=
  negb (isnan (reward s) || isinf (reward s))
  && bool_decide (pt ∈ iter_resolved_dependencies (of_state s)).

Section Predictor.
(** 0 means unlimited memory for policy learning. *)
Variable _TD_POLICY_SIZE : Z.

(** [state.get_random_unresolved_dependency(prefer_recent=...)]: the
    random choice is left to the caller. *)
Variable get_random_unresolved_dependency : State -> bool -> PackageTuple.

Definition set_reward_signal
  (self : TemporalDifference) (state : State) (_ : PackageTuple)
  (reward : float) : TemporalDifference :=
  if isnan reward || isinf reward then self
  else
    let p := credit_all reward (_policy self)
               (iter_resolved_dependencies state) in
    set_policy self (shrink_periodically _TD_POLICY_SIZE (context self) p).

(** [self._policy.get(package_tuple[0], {}).get(package_tuple)]: the
    outer lookup is by package name; when it finds a record, a list,
    the inner [.get] is an attribute error, and when it finds nothing
    the inner lookup is in the empty dictionary. *)
Definition reward_records_of (p : policy) (pt : PackageTuple)
  : result (option reward_record) :=
  match dict_get (KName (pt_name pt)) p with
  | Some _ => Raise AttributeError
  | None => Ok (dict_get (KTuple pt) ([] : policy))
  end.

(** One round of the loop of [_do_exploitation] over the pair
    [(to_resolve_average, to_resolve_package_tuple)]. *)
Definition exploitation_step
  (p : policy) (acc : option float * option PackageTuple)
  (pt : PackageTuple) : result (option float * option PackageTuple) :=
  reward_records ← reward_records_of p pt;
  match reward_records with
  | None => Ok acc
  | Some rec =>
      average ← fdiv_int (reward_sum rec) (visit_count rec);
      match fst acc with
      | None => Ok (Some average, Some pt)
      | Some to_resolve_average =>
          if PrimFloat.ltb to_resolve_average average
          then Ok (Some average, Some pt)
          else Ok acc
      end
  end.

Fixpoint exploitation_loop
  (p : policy) (acc : option float * option PackageTuple)
  (pts : list PackageTuple) : result (option float * option PackageTuple) :=
  match pts with
  | [] => Ok acc
  | pt :: pts' =>
      acc' ← exploitation_step p acc pt;
      exploitation_loop p acc' pts'
  end.

Definition _do_exploitation (self : TemporalDifference)
  : result (State * PackageTuple) :=
  let state := beam_max (context self) in
  acc ← exploitation_loop (_policy self) (None, None)
          (iter_unresolved_dependencies state);
  match snd acc with
  | Some to_resolve_package_tuple => Ok (state, to_resolve_package_tuple)
  | None => Ok (state, get_random_unresolved_dependency state true)
  end.

Variable env : Env.

Definition _do_exploration (self : TemporalDifference)
  : result (State * PackageTuple) :=
  state ← beam_get_random env None;
  Ok (state, get_random_unresolved_dependency state true).

(** [run]: the pair it returns, the predictor and its
    [_temperature_history] afterwards. *)
Definition run (self : TemporalDifference)
  (_temperature_history : list history_entry)
  : result (State * PackageTuple * TemporalDifference * list history_entry) :=
  '(temperature, self) ←
    _temperature_function self (_temperature self) (context self);
  let self := set_temperature self temperature in
  let state := beam_max (context self) in
  let probable_state_idx :=
    if 1 <? beam_size env then randrange env 1 (beam_size env) else 0 in
  probable_state ← beam_get env probable_state_idx;
  acceptance_probability ←
    _compute_acceptance_probability env (score state) (score probable_state)
      (_temperature self);
  '(state, unresolved_dependency_tuple) ←
    (if negb (probable_state_idx =? 0)
        && PrimFloat.leb (random_random env) acceptance_probability
     then _do_exploration self
     else _do_exploitation self);
  let _temperature_history :=
    if keep_history env
    then _temperature_history
         ++ [(_temperature self, is_beam_max env state,
              acceptance_probability,
              accepted_final_states_count (context self))]
    else _temperature_history in
  Ok (state, unresolved_dependency_tuple, self, _temperature_history).

(** A row of calls of [set_reward_signal], each in the context of its
    time. *)
Definition reward_signals (self : TemporalDifference)
  (signals : list signal) : TemporalDifference :=
  fold_left
    (fun self s =>
       set_reward_signal (set_context self (at_context s))
         (of_state s) (action s) (reward s))
    signals self.
End Predictor.

End TD.

(** ** [MCTS] *)

Module MCTS.

(** [MCTS] extends [TemporalDifference] with the state to continue with. *)
Record MCTS : Type := {
  td : TD.TemporalDifference;
  _next_state : option State;
}.

Definition _policy (self : MCTS) : policy := TD._policy (td self).
Definition context (self : MCTS) : Context := TD.context (td self).

Definition set_next_state (self : MCTS) (s : option State) : MCTS :=
  {| td := td self; _next_state := s |}.

Definition set_policy (self : MCTS) (p : policy) : MCTS :=
  {| td := TD.set_policy (td self) p; _next_state := _next_state self |}.

Section Predictor.
(** 0 means unlimited memory for policy learning. *)
Variable _MCTS_POLICY_SIZE : Z.

(** The statements of [set_reward_signal] below its [if]/[elif]: the
    policy is credited with [state.score], the trajectory is dropped and
    the policy is shrunk from time to time. *)
Definition mark_policy (self : MCTS) (state : State) : MCTS :=
  let total_reward := score state in
  let p := credit_all total_reward (_policy self)
             (iter_resolved_dependencies state) in
  let self := set_next_state (set_policy self p) None in
  set_policy self
    (shrink_periodically _MCTS_POLICY_SIZE (context self) (_policy self)).

(** Only the [elif] branch returns; the [if] branch runs on into the
    statements below it. *)
Definition set_reward_signal
  (self : MCTS) (state : State) (_ : PackageTuple) (reward : float)
  : MCTS :=
  if isnan reward then
    mark_policy (set_next_state self None) state
  else if negb (isinf reward) then
    set_next_state self (Some state)
  else
    mark_policy self state.

Variable get_random_unresolved_dependency : State -> bool -> PackageTuple.
Variable env : TD.Env.

(** [run]: with a state to continue with, the state and a random
    dependency of it; otherwise the statements of
    [TemporalDifference.run], the probable state coming from
    [beam.get_random(probable_state_idx)]. *)
Definition run (self : MCTS) (_temperature_history : list TD.history_entry)
  : result (State * PackageTuple * MCTS * list TD.history_entry) :=
  match _next_state self with
  | Some next_state =>
      Ok (next_state, get_random_unresolved_dependency next_state true,
          self, _temperature_history)
  | None =>
      '(temperature, td') ←
        TD._temperature_function (td self) (TD._temperature (td self))
          (context self);
      let self := {| td := TD.set_temperature td' temperature;
                     _next_state := _next_state self |} in
      let state := beam_max (context self) in
      let probable_state_idx :=
        if 1 <? TD.beam_size env
        then TD.randrange env 1 (TD.beam_size env) else 0 in
      probable_state ← TD.beam_get_random env (Some probable_state_idx);
      acceptance_probability ←
        TD._compute_acceptance_probability env (score state)
          (score probable_state) (TD._temperature (td self));
      '(state, unresolved_dependency_tuple) ←
        (if negb (probable_state_idx =? 0)
            && PrimFloat.leb (TD.random_random env) acceptance_probability
         then TD._do_exploration get_random_unresolved_dependency env
                (td self)
         else TD._do_exploitation get_random_unresolved_dependency
                (td self));
      let _temperature_history :=
        if TD.keep_history env
        then _temperature_history
             ++ [(TD._temperature (td self), TD.is_beam_max env state,
                  acceptance_probability,
                  accepted_final_states_count (context self))]
        else _temperature_history in
      Ok (state, unresolved_dependency_tuple, self, _temperature_history)
  end.
End Predictor.

End MCTS.

(** ** [heapq] *)

Section Heapq.
Context {A : Type} (lt : A -> A -> bool).

(** [_siftdown(heap, startpos, pos)] with [newitem] taken out of
    [heap[pos]]; [pos] bounds the number of rounds. *)
Fixpoint siftdown_loop (rounds : nat) (heap : list A) (newitem : A)
  (startpos pos : nat) : list A :=
  match rounds with
  | O => <[pos := newitem]> heap
  | S rounds' =>
      if decide (startpos < pos)%nat then
        let parentpos := ((pos - 1) / 2)%nat in
        match heap !! parentpos with
        | Some parent =>
            if lt newitem parent
            then siftdown_loop rounds' (<[pos := parent]> heap) newitem
                   startpos parentpos
            else <[pos := newitem]> heap
        | None => <[pos := newitem]> heap
        end
      else <[pos := newitem]> heap
  end.

Definition _siftdown (heap : list A) (startpos pos : nat) : list A :=
  match heap !! pos with
  | Some newitem => siftdown_loop pos heap newitem startpos pos
  | None => heap
  end.

(** The loop of [_siftup]: the smaller child is moved up until a leaf is
    reached; the result is the list and the position of the hole. *)
Fixpoint siftup_loop (rounds : nat) (heap : list A) (pos : nat)
  : list A * nat :=
  match rounds with
  | O => (heap, pos)
  | S rounds' =>
      let childpos := (2 * pos + 1)%nat in
      match heap !! childpos with
      | Some child =>
          let rightpos := (childpos + 1)%nat in
          let '(childpos, child) :=
            match heap !! rightpos with
            | Some rchild =>
                if negb (lt child rchild) then (rightpos, rchild)
                else (childpos, child)
            | None => (childpos, child)
            end in
          siftup_loop rounds' (<[pos := child]> heap) childpos
      | None => (heap, pos)
      end
  end.

Definition _siftup (heap : list A) (pos : nat) : list A :=
  match heap !! pos with
  | Some newitem =>
      let '(heap', pos') := siftup_loop (length heap) heap pos in
      _siftdown (<[pos' := newitem]> heap') pos pos'
  | None => heap
  end.

Definition heappush (heap : list A) (item : A) : list A :=
  let heap := heap ++ [item] in
  _siftdown heap 0 (length heap - 1).

(** [heappushpop(heap, item)]: the new heap and the returned item. *)
Definition heappushpop (heap : list A) (item : A) : list A * A :=
  match heap with
  | top :: _ =>
      if lt top item then (_siftup (<[0%nat := item]> heap) 0, top)
      else (heap, item)
  | [] => (heap, item)
  end.
End Heapq.

(** Every entry of a heap but the first is not below its parent, the
    entry at index [(i - 1) / 2]. *)
Definition is_heap {A : Type} (lt : A -> A -> bool) (heap : list A) : Prop :=
  forall (i : nat) a b,
    (0 < i)%nat -> heap !! i = Some a -> heap !! ((i - 1) / 2)%nat = Some b ->
    lt a b = false.

(** ** [Adviser] *)

Module Advise.

(** Modelled from the spec: the members of [RecommendationType]
    ([thoth/adviser/enums.py] is not among the sources). *)
Inductive RecommendationType : Type :=
| LATEST | STABLE | TESTING | PERFORMANCE | SECURITY.

Inductive walk_end : Type :=
| StopIteration
| WalkRaises (e : exn).

Inductive flow : Type :=
| Continue
| Break
| Fail (e : exn).

Section Adviser.
(** The reasoning attached to a score and the generated project are
    opaque to [compute]. *)
Variables Reasoning Project : Type.

(** [<] on the pairs [(reasoning, generated_project)], reached when two
    scores are equal. *)
Variable payload_lt : Reasoning * Project -> Reasoning * Project -> bool.

Variable fill_package_digests : Project -> Project.

(** An entry of the heap, [(score, (reasoning, generated_project))]. *)
Definition item : Type := float * (Reasoning * Project).

(** [<] on two entries as Python compares tuples. *)
Definition item_lt (a b : item) : bool :=
  if PrimFloat.eqb (fst a) (fst b) then payload_lt (snd a) (snd b)
  else PrimFloat.ltb (fst a) (fst b).

(** The entry made of a pair the walk yields. *)
Definition entry_of (y : (float * Reasoning) * Project) : item :=
  (fst (fst y), (snd (fst y), snd y)).

Record Adviser : Type := {
  recommendation_type : RecommendationType;
  count : option Z;
  limit : option Z;
  _computed_stacks_heap : list item;
  _visited : Z;
}.

(** What [dependency_graph.walk(self._decision_function)] does when it
    is iterated: the pairs [(decision_function_result,
    generated_project)] it yields, the scores in them drawn by the
    decision function, and how the iteration ends. *)
Record Walk : Type := {
  yields : list ((float * Reasoning) * Project);
  ending : walk_end;
}.

(** The body of the [for] loop up to its last statement: the visit is
    counted and the scored project goes onto the heap. *)
Definition visit (self : Adviser)
  (y : (float * Reasoning) * Project) : Adviser :=
  let '((score, reasoning), generated_project) := y in
  let visited := _visited self + 1 in
  let heap := _computed_stacks_heap self in
  let entry := (score, (reasoning, generated_project)) in
  let heap :=
    match count self with
    | Some c =>
        if c <=? Z.of_nat (length heap)
        then fst (heappushpop item_lt heap entry)
        else heappush item_lt heap entry
    | None => heappush item_lt heap entry
    end in
  {| recommendation_type := recommendation_type self;
     count := count self; limit := limit self;
     _computed_stacks_heap := heap; _visited := visited |}.

(** The last statement of the body,
    [if self.limit is not None and self._visited >= self.count: break];
    an int and [None] do not compare. *)
Definition leave (self : Adviser) : flow :=
  match limit self with
  | None => Continue
  | Some _ =>
      match count self with
      | None => Fail TypeError
      | Some c => if c <=? _visited self then Break else Continue
      end
  end.

Definition loop_body (self : Adviser)
  (y : (float * Reasoning) * Project) : Adviser * flow :=
  let self := visit self y in
  (self, leave self).

(** The [for] loop: the exception it leaves with, if any, and the
    adviser as the loop leaves it. *)
Fixpoint walk_loop (self : Adviser)
  (ys : list ((float * Reasoning) * Project)) (e : walk_end)
  : option exn * Adviser :=
  match ys with
  | [] =>
      (match e with StopIteration => None | WalkRaises x => Some x end,
       self)
  | y :: ys' =>
      match loop_body self y with
      | (self', Continue) => walk_loop self' ys' e
      | (self', Break) => (None, self')
      | (self', Fail x) => (Some x, self')
      end
  end.

(** [sorted(self._computed_stacks_heap, key=operator.itemgetter(0))] *)
Definition ranked (heap : list item) : list item :=
  sorted fst PrimFloat.ltb false heap.

(** The [finally] clause. *)
Definition finally (self : Adviser) : Adviser :=
  {| recommendation_type := recommendation_type self;
     count := count self; limit := limit self;
     _computed_stacks_heap := []; _visited := 0 |}.

(** [compute], from the point where [DependencyGraph.from_project] has
    handed over the graph of the project: what it returns or raises, and
    the adviser it leaves behind. *)
Definition compute (self : Adviser) (walk : Walk)
  : result (list (Reasoning * Project)) * Adviser :=
  let '(raised, self') := walk_loop self (yields walk) (ending walk) in
  (match raised with
   | Some e => Raise e
   | None =>
       Ok (map (fun entry : item =>
                  (fst (snd entry), fill_package_digests (snd (snd entry))))
             (ranked (_computed_stacks_heap self')))
   end,
   finally self').
(** An entry whose score is a number; the scores [random.random()]
    draws are. *)
Definition scored (entry : item) : Prop := is_nan (fst entry) = false.

(** [compute_on_project], from the same point on: [compute] on an adviser
    built with the two private attributes at their defaults. *)
Definition compute_on_project
  (recommendation_type : RecommendationType) (count limit : option Z)
  (walk : Walk) : result (list (Reasoning * Project)) :=
  fst (compute
         {| recommendation_type := recommendation_type;
            count := count; limit := limit;
            _computed_stacks_heap := []; _visited := 0 |}
         walk).

(** [DependencyGraph.from_project(project)], the first statement of
    [compute], which stands before the [try]: the walk of the graph it
    builds, or the exception it raises. *)
Variable from_project : Project -> result Walk.

(** [compute] from its first statement on: when the graph cannot be
    built the exception leaves [compute] before the [try] is entered, so
    the [finally] clause does not run. *)
Definition compute_project (self : Adviser) (project : Project)
  : result (list (Reasoning * Project)) * Adviser :=
  match from_project project with
  | Raise e => (Raise e, self)
  | Ok walk => compute self walk
  end.
End Adviser.

Arguments compute_project {Reasoning Project} payload_lt
  fill_package_digests from_project self project.
Arguments scored {Reasoning Project} entry.
Arguments compute_on_project {Reasoning Project} payload_lt
  fill_package_digests recommendation_type count limit walk.
Arguments recommendation_type {Reasoning Project} _.
Arguments count {Reasoning Project} _.
Arguments limit {Reasoning Project} _.
Arguments _computed_stacks_heap {Reasoning Project} _.
Arguments _visited {Reasoning Project} _.
Arguments yields {Reasoning Project} _.
Arguments ending {Reasoning Project} _.
Arguments item_lt {Reasoning Project} payload_lt a b.
Arguments entry_of {Reasoning Project} y.
Arguments visit {Reasoning Project} payload_lt self y.
Arguments leave {Reasoning Project} self.
Arguments loop_body {Reasoning Project} payload_lt self y.
Arguments walk_loop {Reasoning Project} payload_lt self ys e.
Arguments ranked {Reasoning Project} heap.
Arguments finally {Reasoning Project} self.
Arguments compute {Reasoning Project} payload_lt fill_package_digests
  self walk.

End Advise.

(** ** [CutPreReleases] *)

Module PreReleases.

(** The two optional parts of a semantic version; each is a tuple of
    identifiers, empty when the part is absent. *)
Record SemanticVersion : Type := {
  prerelease : list string;
  build : list string;
}.

Record PackageVersion : Type := {
  name : string;
  locked_version : string;
  index_url : string;
  semantic_version : SemanticVersion;
}.

Definition to_tuple (pv : PackageVersion) : PackageTuple :=
  (name pv, locked_version pv, index_url pv).

(** Modelled from the spec: [StepContext] and the change it hands out
    ([pipeline/step_context.py] is not among the sources).  The context
    holds the package versions of all paths; a change records package
    tuples, and when the [with] block is left the recorded tuples are
    removed from the context. *)
Record StepContext : Type := {
  dependencies : list PackageVersion;
}.

Definition iter_all_dependencies (sc : StepContext) : list PackageVersion :=
  dependencies sc.

Record StepChange : Type := {
  to_remove : list PackageTuple;
}.

Definition remove_package_tuple (ch : StepChange) (pt : PackageTuple)
  : StepChange :=
  {| to_remove := to_remove ch ++ [pt] |}.

Definition apply_change (sc : StepContext) (ch : StepChange) : StepContext :=
  {| dependencies :=
       filter (fun pv => to_tuple pv ∉ to_remove ch) (dependencies sc) |}.

Record CutPreReleases : Type := {
  prereleases_allowed : bool;
  _DEBUG_SKIP_REPORTED : bool;
}.

(** Truth value of a tuple. *)
Definition truthy {A} (l : list A) : bool :=
  match l with [] => false | _ => true end.

(** The test [run] makes on a package version. *)
Definition is_prerelease (package_version : PackageVersion) : bool :=
  truthy (prerelease (semantic_version package_version))
  || truthy (build (semantic_version package_version)).

Definition run (self : CutPreReleases) (step_context : StepContext)
  : CutPreReleases * StepContext :=
  if prereleases_allowed self then
    ({| prereleases_allowed := prereleases_allowed self;
        _DEBUG_SKIP_REPORTED := true |},
     step_context)
  else
    let self := {| prereleases_allowed := prereleases_allowed self;
                   _DEBUG_SKIP_REPORTED := false |} in
    let step_change :=
      fold_left
        (fun ch package_version =>
           if is_prerelease package_version
           then remove_package_tuple ch (to_tuple package_version)
           else ch)
        (iter_all_dependencies step_context)
        {| to_remove := [] |} in
    (self, apply_change step_context step_change).

End PreReleases.

(** ** [subprocess_run] *)

Module Run.

(** This file is created by OpenShift's liveness probe on timeout. *)
Definition _LIVENESS_PROBE_KILL_FILE : string :=
  "/tmp/thoth_adviser_cpu_timeout".

Definition OOM_MSG : string :=
  "Adviser was killed as allocated memory has been exceeded (OOM)".
Definition CPU_MSG : string :=
  "Adviser was killed as allocated CPU time was exceeded".
Definition UNKNOWN_MSG : string :=
  "Unknown error during computing advises".

(** The status [os.waitpid] hands to the parent, a 16-bit number: the
    exit code in the high byte for a child that exited, the number of
    the signal in the low byte for a child that a signal killed. *)
Definition exit_status (exit_code : Z) : Z := Z.shiftl exit_code 8.
Definition kill_status (signal : Z) : Z := signal.

Section Run.
(** The dictionary a report serialises to. *)
Variable Report : Type.

(** The values [result_dict] holds. *)
Inductive value : Type :=
| VNone
| VBool (b : bool)
| VStr (s : string)
| VReport (r : Report).

(** What the process meets outside itself: the pid [os.fork()] hands to
    it, what [asa()] followed by [report.to_dict()] gives in the child,
    the second component of [os.waitpid(pid, 0)] in the parent, and
    which files exist. *)
Record World : Type := {
  fork_pid : Z;
  asa : result Report;
  waited_exit_code : Z;
  isfile : string -> bool;
}.

(** How the call ends: it returns, or the process leaves through
    [sys.exit]. *)
Inductive outcome : Type :=
| Return (exit_code : Z)
| SysExit (code : Z).

(** [dict(error=..., error_msg=..., report=...)] merged into
    [result_dict]. *)
Definition update (result_dict : gmap string value)
  (error error_msg report : value) : gmap string value :=
  <["report" := report]>
    (<["error_msg" := error_msg]> (<["error" := error]> result_dict)).

Definition exn_str (e : exn) : string :=
  match e with
  | ZeroDivisionError => "float division by zero"
  | OverflowError => "int too large to convert to float"
  | TypeError => "TypeError"
  | AttributeError => "AttributeError"
  | Exception msg => msg
  end.

(** The result: how the call ends, [result_dict] afterwards, and the
    dictionaries handed to [print_func], in order. *)
Definition subprocess_run (w : World) (result_dict : gmap string value)
  : outcome * gmap string value * list (gmap string value) :=
  let pid := fork_pid w in
  if pid =? 0 then
    match asa w with
    | Ok report =>
        let result_dict :=
          update result_dict (VBool false) VNone (VReport report) in
        (SysExit 0, result_dict, [result_dict])
    | Raise exc =>
        let result_dict :=
          update result_dict (VBool true) (VStr (exn_str exc)) VNone in
        (SysExit 1, result_dict, [])
    end
  else
    let exit_code := waited_exit_code w in
    if negb (exit_code =? 0) then
      let err_msg :=
        if exit_code =? 137 then OOM_MSG
        else if isfile w _LIVENESS_PROBE_KILL_FILE then CPU_MSG
        else UNKNOWN_MSG in
      let result_dict :=
        update result_dict (VBool true) (VStr err_msg) VNone in
      (Return exit_code, result_dict, [result_dict])
    else
      (Return exit_code, result_dict, []).
End Run.

Arguments VNone {Report}.
Arguments VBool {Report} b.
Arguments VStr {Report} s.
Arguments VReport {Report} r.
Arguments fork_pid {Report} _.
Arguments asa {Report} _.
Arguments waited_exit_code {Report} _.
Arguments isfile {Report} _ _.
Arguments update {Report} result_dict error error_msg report.
Arguments subprocess_run {Report} w result_dict.

End Run.

(** ** Sample data *)

Module Sample.

Definition simple : string := "https://pypi.org/simple".
Definition flask : PackageTuple := ("flask", "1.1.2", simple).
Definition click : PackageTuple := ("click", "7.1.2", simple).
Definition jinja2 : PackageTuple := ("jinja2", "2.11.2", simple).
Definition jinja2_old : PackageTuple := ("jinja2", "2.10", simple).
Definition werkzeug : PackageTuple := ("werkzeug", "1.0.1", simple).

(** [flask] and [click] are resolved, [jinja2] and [werkzeug] are open. *)
Definition state : State :=
  {| score := 2%float;
     resolved := [flask; click];
     unresolved := [("jinja2", [jinja2; jinja2_old]);
                    ("werkzeug", [werkzeug])] |}.

(** A state of another path, in which [jinja2] is resolved. *)
Definition other_state : State :=
  {| score := 3%float;
     resolved := [flask; jinja2];
     unresolved := [("werkzeug", [werkzeug])] |}.

Definition context (iteration : Z) : Context :=
  {| iteration := iteration; limit := 100;
     accepted_final_states_count := 0; beam_max := state |}.

(** A predictor that has learnt nothing yet. *)
Definition td (iteration : Z) : TD.TemporalDifference :=
  {| TD.context := context iteration; TD._temperature := Float 0%float;
     TD._policy := []; TD._a := 1%float |}.

(** A random pick that happens to fall on [werkzeug]. *)
Definition pick_werkzeug (s : State) (prefer_recent : bool) : PackageTuple :=
  werkzeug.

Definition mcts (iteration : Z) : MCTS.MCTS :=
  {| MCTS.td := td iteration; MCTS._next_state := Some other_state |}.

(** An adviser as [compute_on_project] builds it. *)
Definition adviser (count limit : option Z) : Advise.Adviser string string :=
  {| Advise.recommendation_type := Advise.LATEST;
     Advise.count := count; Advise.limit := limit;
     Advise._computed_stacks_heap := []; Advise._visited := 0 |}.

Definition stack (score : float) (project : string)
  : float * string * string :=
  ((score, "Unable to create advise - not sufficient information"), project).

(** A walk over five stacks with the scores the decision function drew
    for them. *)
Definition walk : Advise.Walk string string :=
  {| Advise.yields := [stack 0.25%float "stack-a"; stack 0.75%float "stack-b";
                       stack 0.5%float "stack-c"; stack 0.125%float "stack-d";
                       stack 0.875%float "stack-e"];
     Advise.ending := Advise.StopIteration |}.

(** A walk that fails after two stacks. *)
Definition failing_walk : Advise.Walk string string :=
  {| Advise.yields := [stack 0.25%float "stack-a"; stack 0.75%float "stack-b"];
     Advise.ending := Advise.WalkRaises (Exception "graph database is down") |}.

Definition payload_lt (a b : string * string) : bool := false.
Definition fill_package_digests (project : string) : string := project.

(** [foo==1.0.0rc1] next to a release of [foo] and a release of [bar]. *)
Definition release : PreReleases.SemanticVersion :=
  {| PreReleases.prerelease := []; PreReleases.build := [] |}.

Definition foo_rc1 : PreReleases.PackageVersion :=
  {| PreReleases.name := "foo"; PreReleases.locked_version := "1.0.0rc1";
     PreReleases.index_url := simple;
     PreReleases.semantic_version :=
       {| PreReleases.prerelease := ["rc1"]; PreReleases.build := [] |} |}.

Definition foo_1 : PreReleases.PackageVersion :=
  {| PreReleases.name := "foo"; PreReleases.locked_version := "1.0.0";
     PreReleases.index_url := simple;
     PreReleases.semantic_version := release |}.

Definition bar_2 : PreReleases.PackageVersion :=
  {| PreReleases.name := "bar"; PreReleases.locked_version := "2.0.0";
     PreReleases.index_url := simple;
     PreReleases.semantic_version := release |}.

Definition step_context : PreReleases.StepContext :=
  {| PreReleases.dependencies := [foo_1; foo_rc1; bar_2] |}.

Definition cut_prereleases : PreReleases.CutPreReleases :=
  {| PreReleases.prereleases_allowed := false;
     PreReleases._DEBUG_SKIP_REPORTED := false |}.

(** A parent whose child was killed. *)
Definition killed (exit_code : Z) (timed_out : bool) : Run.World unit :=
  {| Run.fork_pid := 4242;
     Run.asa := Raise (Exception "never run in the parent");
     Run.waited_exit_code := exit_code;
     Run.isfile := fun path =>
       if decide (path = Run._LIVENESS_PROBE_KILL_FILE) then timed_out
       else false |}.

(** A beam of two states, [state] at its top; the draws fall on the
    second state and the acceptance probability stays below the draw of
    [random.random()]. *)
Definition env : TD.Env :=
  {| TD.beam_size := 2;
     TD.beam_get := fun idx => Ok (if idx =? 0 then state else other_state);
     TD.beam_get_random := fun _ => Ok other_state;
     TD.randrange := fun start stop => start;
     TD.random_random := 0.5%float;
     TD._compute_acceptance_probability := fun _ _ _ => Ok 0.25%float;
     TD.keep_history := true;
     TD.is_beam_max := fun s => bool_decide (resolved s = resolved state) |}.

(** Three reward signals: a finite one for [state], a NaN and a finite
    one for [other_state]. *)
Definition signals : list TD.signal :=
  [{| TD.at_context := context 1; TD.of_state := state;
      TD.action := click; TD.reward := 1.5%float |};
   {| TD.at_context := context 2; TD.of_state := other_state;
      TD.action := jinja2; TD.reward := nan |};
   {| TD.at_context := context 3; TD.of_state := other_state;
      TD.action := jinja2; TD.reward := 2%float |}].

(** An adviser built with a stack on its heap and three visits
    counted, and a project whose dependency graph cannot be built. *)
Definition used_adviser : Advise.Adviser string string :=
  {| Advise.recommendation_type := Advise.LATEST;
     Advise.count := Some 2; Advise.limit := None;
     Advise._computed_stacks_heap :=
       [Advise.entry_of (stack 0.5%float "stack-c")];
     Advise._visited := 3 |}.

Definition no_graph (project : string)
  : result (Advise.Walk string string) :=
  Raise (Exception "graph database is down").

Definition graph_of (project : string)
  : result (Advise.Walk string string) :=
  Ok walk.

(** A child in which [asa] raises. *)
Definition child : Run.World unit :=
  {| Run.fork_pid := 0;
     Run.asa := Raise (Exception "resolver failed");
     Run.waited_exit_code := 0;
     Run.isfile := fun path => false |}.

End Sample.

(** * Properties *)

(** ** The order of floats *)

Lemma SFltb_rank f1 f2 :
  sf_is_nan f1 = false -> sf_is_nan f2 = false ->
  SFltb f1 f2 = true <-> lex3 (sf_rank f1) (sf_rank f2).
Proof.
  unfold SFltb, lex3.
  destruct f1 as [[]|[]| |[] m1 e1], f2 as [[]|[]| |[] m2 e2]; simpl; try discriminate;
   intros _ _; try (split; [intros; try discriminate; lia | intros; try reflexivity; lia]).
  - rewrite Pos.compare_cont_spec. simpl.
    destruct (Z.compare_spec e1 e2); simpl.
    + destruct (Pos.compare_spec m1 m2); simpl; split; try discriminate; try lia; auto.
    + split; try discriminate; lia.
    + split; auto; lia.
  - rewrite Pos.compare_cont_spec. simpl.
    destruct (Z.compare_spec e1 e2); simpl.
    + destruct (Pos.compare_spec m1 m2); simpl; split; try discriminate; try lia; auto.
    + split; auto; lia.
    + split; try discriminate; lia.
Qed.

Lemma SFeqb_rank f1 f2 :
  sf_is_nan f1 = false -> sf_is_nan f2 = false ->
  SFeqb f1 f2 = true <-> sf_rank f1 = sf_rank f2.
Proof.
  unfold SFeqb.
  destruct f1 as [[]|[]| |[] m1 e1], f2 as [[]|[]| |[] m2 e2]; simpl;
    try discriminate; intros _ _; try solve [split; intros; simplify_eq; done].
  - rewrite Pos.compare_cont_spec. simpl.
    destruct (Z.compare_spec e1 e2); simpl;
      [destruct (Pos.compare_spec m1 m2); simpl|..];
      split; intros; simplify_eq; try done; lia.
  - rewrite Pos.compare_cont_spec. simpl.
    destruct (Z.compare_spec e1 e2); simpl;
      [destruct (Pos.compare_spec m1 m2); simpl|..];
      split; intros; simplify_eq; try done; lia.
Qed.

Lemma is_nan_sf x : is_nan x = sf_is_nan (Prim2SF x).
Proof.
  unfold is_nan. rewrite FloatAxioms.eqb_spec. unfold SFeqb.
  destruct (Prim2SF x) as [[]|[]| |[] m e]; simpl; try reflexivity;
  rewrite Z.compare_refl, Pos.compare_cont_refl; reflexivity.
Qed.

Lemma float_ltb_rank x y :
  is_nan x = false -> is_nan y = false ->
  PrimFloat.ltb x y = true <-> lex3 (float_rank x) (float_rank y).
Proof.
  rewrite !is_nan_sf, FloatAxioms.ltb_spec. apply SFltb_rank.
Qed.

Lemma float_eqb_rank x y :
  is_nan x = false -> is_nan y = false ->
  PrimFloat.eqb x y = true <-> float_rank x = float_rank y.
Proof.
  rewrite !is_nan_sf, FloatAxioms.eqb_spec. apply SFeqb_rank.
Qed.

Lemma float_ltb_asym x y : PrimFloat.ltb x y = true -> PrimFloat.ltb y x = false.
Proof.
  destruct (is_nan x) eqn:Hx.
  { rewrite is_nan_sf in Hx. rewrite FloatAxioms.ltb_spec. destruct (Prim2SF x); try discriminate; try done. }
  destruct (is_nan y) eqn:Hy.
  { rewrite is_nan_sf in Hy. rewrite FloatAxioms.ltb_spec. destruct (Prim2SF y), (Prim2SF x); try discriminate; try done. }
  intros H%float_ltb_rank; [|done..].
  apply not_true_is_false. intros H'%float_ltb_rank; [|done..].
  unfold lex3 in *. lia.
Qed.

Lemma float_ltb_negtrans x y z :
  is_nan x = false -> is_nan y = false -> is_nan z = false ->
  PrimFloat.ltb x y = false -> PrimFloat.ltb y z = false ->
  PrimFloat.ltb x z = false.
Proof.
  intros Hx Hy Hz Hxy Hyz. apply not_true_is_false. intros Hxz.
  apply not_true_iff_false in Hxy, Hyz.
  rewrite float_ltb_rank in Hxy, Hyz, Hxz by done.
  unfold lex3 in *. lia.
Qed.

(** ** Dictionaries *)

Section DictFacts.
Context {K V : Type} `{EqDecision K}.
Implicit Types (d : dict K V) (k : K) (v : V).

Lemma dict_get_setdefault k k' v d :
  dict_get k' (dict_setdefault k v d) =
  if decide (k' = k) then Some (default v (dict_get k d))
  else dict_get k' d.
Proof.
  induction d as [|[k0 v0] d IH]; simpl.
  - repeat case_decide; congruence.
  - destruct (decide (k = k0)) as [->|Hne]; simpl.
    + repeat case_decide; congruence.
    + rewrite IH. repeat case_decide; congruence.
Qed.

Lemma dict_get_alter (f : V -> V) k k' d :
  dict_get k' (dict_alter f k d) =
  if decide (k' = k) then f <$> dict_get k d else dict_get k' d.
Proof.
  induction d as [|[k0 v0] d IH]; simpl.
  - by case_decide.
  - destruct (decide (k = k0)) as [->|Hne]; simpl.
    + repeat case_decide; congruence.
    + rewrite IH. repeat case_decide; congruence.
Qed.

Lemma dict_keys_alter (f : V -> V) k d :
  dict_keys (dict_alter f k d) = dict_keys d.
Proof.
  induction d as [|[k0 v0] d IH]; simpl; [done|].
  case_decide; simpl; [done|]. by rewrite IH.
Qed.

Lemma dict_keys_setdefault k v d :
  dict_keys (dict_setdefault k v d) =
  if decide (k ∈ dict_keys d) then dict_keys d else dict_keys d ++ [k].
Proof.
  unfold dict_keys. induction d as [|[k0 v0] d IH]; [done|].
  cbn [dict_setdefault map fst].
  destruct (decide (k = k0)) as [->|Hne].
  - rewrite decide_True; [done|]. left.
  - cbn [map fst]. rewrite IH.
    destruct (decide (k ∈ map fst d)) as [Hin|Hin].
    + rewrite decide_True; [done|]. by right.
    + rewrite decide_False; [done|].
      intros [->|?]%elem_of_cons; tauto.
Qed.

Lemma dict_set_fresh k v d :
  k ∉ dict_keys d -> dict_set k v d = d ++ [(k, v)].
Proof.
  induction d as [|[k0 v0] d IH]; [done|].
  cbn [dict_set dict_keys map fst]. intros [Hne Hin]%not_elem_of_cons.
  rewrite decide_False by done. by rewrite IH.
Qed.

(** The items of a dictionary have distinct keys, and [dict] of such a
    list is the list. *)
Lemma dict_of_items_NoDup (items : list (K * V)) :
  NoDup (map fst items) -> dict_of_items items = items.
Proof.
  unfold dict_of_items.
  enough (forall acc : dict K V,
             NoDup (map fst (acc ++ items)) ->
             fold_left (fun d kv => dict_set (fst kv) (snd kv) d) items acc
             = acc ++ items) as Hgen by (intros; by apply (Hgen [])).
  induction items as [|[k v] items IH]; intros acc Hnd; simpl.
  - by rewrite app_nil_r.
  - rewrite dict_set_fresh.
    + rewrite IH; rewrite <- app_assoc; done.
    + rewrite map_app in Hnd. apply NoDup_app in Hnd as (_ & Hdis & _).
      intros Hin. apply (Hdis k Hin). left.
Qed.

Lemma dict_get_None k d : dict_get k d = None <-> k ∉ dict_keys d.
Proof.
  induction d as [|[k0 v0] d IH]; simpl.
  - split; [intros _; apply not_elem_of_nil|done].
  - case_decide as Heq.
    + subst. split; [done|]. intros Hn. exfalso. apply Hn. left.
    + rewrite IH. rewrite not_elem_of_cons. tauto.
Qed.
End DictFacts.

Section DictMore.
Context {K V : Type} `{EqDecision K}.
Implicit Types (d : dict K V) (k : K) (v : V).

Lemma dict_get_Some k v d :
  NoDup (dict_keys d) -> dict_get k d = Some v <-> (k, v) ∈ d.
Proof.
  unfold dict_keys. induction d as [|[k0 v0] d IH]; cbn [dict_get map fst].
  - intros _. split; [done|]. by intros ?%elem_of_nil.
  - intros [Hk0 Hnd]%NoDup_cons. rewrite elem_of_cons.
    destruct (decide (k = k0)) as [->|Hne].
    + split; [intros [= ->]; by left|].
      intros [[= ->]|Hin]; [done|]. exfalso. apply Hk0.
      apply list_elem_of_fmap. by exists (k0, v).
    + rewrite IH by done. split; [by right|].
      intros [[= -> ->]|?]; done.
Qed.

Lemma dict_get_perm k d d' :
  NoDup (dict_keys d) -> d ≡ₚ d' -> dict_get k d = dict_get k d'.
Proof.
  intros Hd Hperm.
  assert (Hd' : NoDup (dict_keys d')) by (unfold dict_keys; by rewrite <- Hperm).
  destruct (dict_get k d) as [v|] eqn:Hget.
  - symmetry. apply dict_get_Some; [done|]. rewrite <- Hperm.
    by apply dict_get_Some.
  - symmetry. apply dict_get_None. apply dict_get_None in Hget.
    unfold dict_keys in *. by rewrite <- Hperm.
Qed.

Lemma Forall_dict_set (Q : V -> Prop) k v d :
  Forall (fun kv => Q (snd kv)) d -> Q v ->
  Forall (fun kv => Q (snd kv)) (dict_set k v d).
Proof.
  intros Hd Hv. induction d as [|[k0 v0] d IH]; cbn [dict_set].
  - by constructor.
  - apply Forall_cons in Hd as [H0 Hd].
    case_decide; constructor; auto.
Qed.

Lemma Forall_dict_of_items (Q : V -> Prop) (items : list (K * V)) :
  Forall (fun kv => Q (snd kv)) items ->
  Forall (fun kv => Q (snd kv)) (dict_of_items items).
Proof.
  unfold dict_of_items.
  enough (forall acc : dict K V,
            Forall (fun kv => Q (snd kv)) acc ->
            Forall (fun kv => Q (snd kv)) items ->
            Forall (fun kv => Q (snd kv))
              (fold_left (fun d kv => dict_set (fst kv) (snd kv) d) items acc))
    as Hgen by (intros; by apply Hgen).
  induction items as [|[k v] items IH]; intros acc Hacc Hitems; [done|].
  apply Forall_cons in Hitems as [Hv Hitems]. cbn [fold_left].
  apply IH; [|done]. by apply Forall_dict_set.
Qed.
End DictMore.

(** ** [sorted] *)

Section SortedFacts.
Context {A B : Type} (key : A -> B) (lt : B -> B -> bool).

Lemma insert_sorted_perm (x : A) (l : list A) :
  insert_sorted key lt x l ≡ₚ x :: l.
Proof.
  induction l as [|y l IH]; simpl; [reflexivity|].
  destruct (lt (key y) (key x)); [|reflexivity].
  rewrite IH. apply Permutation_swap.
Qed.

Lemma sort_stable_perm (l : list A) : sort_stable key lt l ≡ₚ l.
Proof.
  induction l as [|x l IH]; simpl; [reflexivity|].
  rewrite insert_sorted_perm, IH. reflexivity.
Qed.

Lemma sorted_perm (reverse : bool) (l : list A) :
  sorted key lt reverse l ≡ₚ l.
Proof.
  unfold sorted. destruct reverse.
  - rewrite <- Permutation_rev, sort_stable_perm, <- Permutation_rev.
    reflexivity.
  - apply sort_stable_perm.
Qed.

Lemma insert_sorted_HdRel (a x : A) (l : list A) :
  ascending key lt a x -> HdRel (ascending key lt) a l ->
  HdRel (ascending key lt) a (insert_sorted key lt x l).
Proof.
  intros Hax Hal. destruct l as [|y l]; simpl; [by constructor|].
  destruct (lt (key y) (key x)); constructor; [|done].
  by inversion Hal.
Qed.

(** Adjacent entries of a sorted list are in order as soon as [<] is
    asymmetric, which it is on all floats. *)
Lemma sorted_adjacent (l : list A) :
  (forall a b, lt a b = true -> lt b a = false) ->
  Sorted (ascending key lt) (sorted key lt false l).
Proof.
  intros Hasym. unfold sorted, sort_stable.
  induction l as [|x l IH]; simpl; [constructor|].
  revert IH. generalize (foldr (insert_sorted key lt) [] l). clear l.
  intros l. induction l as [|y l IH]; intros Hs; simpl.
  - repeat constructor.
  - destruct (lt (key y) (key x)) eqn:Hyx.
    + inversion Hs; subst. constructor; [by apply IH|].
      apply insert_sorted_HdRel; [|done]. by apply Hasym.
    + constructor; [done|]. by constructor.
Qed.

(** The keys the order is total on. *)
Variable P : B -> Prop.
Hypothesis lt_asym :
  forall a b, P a -> P b -> lt a b = true -> lt b a = false.
Hypothesis lt_negtrans :
  forall a b c, P a -> P b -> P c ->
    lt a b = false -> lt b c = false -> lt a c = false.

Lemma insert_sorted_ascending (x : A) (l : list A) :
  P (key x) -> Forall (fun a => P (key a)) l ->
  StronglySorted (ascending key lt) l ->
  StronglySorted (ascending key lt) (insert_sorted key lt x l).
Proof.
  intros Hx. induction l as [|y l IH]; intros HP Hs; simpl.
  - repeat constructor.
  - apply Forall_cons in HP as [Hy HP].
    apply StronglySorted_cons in Hs as [Hyl Hs].
    destruct (lt (key y) (key x)) eqn:Hyx.
    + apply StronglySorted_cons. split; [|by apply IH].
      rewrite insert_sorted_perm. constructor; [|done].
      unfold ascending. by apply lt_asym.
    + apply StronglySorted_cons. split; [|by apply StronglySorted_cons].
      constructor; [done|].
      rewrite Forall_forall in Hyl, HP |- *. intros z Hz.
      unfold ascending in *. apply (lt_negtrans _ (key y)); auto.
Qed.

Lemma sort_stable_ascending (l : list A) :
  Forall (fun a => P (key a)) l ->
  StronglySorted (ascending key lt) (sort_stable key lt l).
Proof.
  induction l as [|x l IH]; intros HP; simpl; [constructor|].
  apply Forall_cons in HP as [Hx HP].
  apply insert_sorted_ascending; [done| |by apply IH].
  by rewrite sort_stable_perm.
Qed.

Lemma StronglySorted_rev (R : A -> A -> Prop) (l : list A) :
  StronglySorted R l -> StronglySorted (flip R) (rev l).
Proof.
  induction 1 as [|x l Hs IH Hx]; simpl; [constructor|].
  apply StronglySorted_app. repeat split; [|done|repeat constructor].
  intros a b Ha ->%list_elem_of_singleton.
  rewrite <- Permutation_rev in Ha.
  rewrite Forall_forall in Hx. by apply Hx.
Qed.

Lemma sorted_ascending (l : list A) :
  Forall (fun a => P (key a)) l ->
  StronglySorted (ascending key lt) (sorted key lt false l).
Proof. apply sort_stable_ascending. Qed.

Lemma sorted_descending (l : list A) :
  Forall (fun a => P (key a)) l ->
  StronglySorted (descending key lt) (sorted key lt true l).
Proof.
  intros HP. unfold sorted.
  apply (StronglySorted_rev (ascending key lt)), sort_stable_ascending.
  by rewrite <- Permutation_rev.
Qed.
End SortedFacts.

Lemma slice_to_nonneg {A} (n : Z) (l : list A) :
  0 <= n -> slice_to n l = take (Z.to_nat n) l.
Proof. intros Hn. unfold slice_to. by rewrite (proj2 (Z.leb_le 0 n)). Qed.

Lemma slice_to_take {A} (n : Z) (l : list A) :
  exists m, slice_to n l = take m l.
Proof. unfold slice_to. destruct (0 <=? n); eauto. Qed.

(** ** [heapq] *)

Section HeapqFacts.
Context {A : Type} (lt : A -> A -> bool).
Implicit Types (heap : list A) (x : A).

Lemma elem_of_list_insert heap (i : nat) x y :
  y ∈ <[i := x]> heap -> y = x \/ y ∈ heap.
Proof.
  revert i. induction heap as [|z heap IH]; intros [|i]; simpl; auto.
  - intros [->|?]%elem_of_cons; [by left|right; by right].
  - intros [->|Hy]%elem_of_cons; [right; left|].
    destruct (IH _ Hy); [by left|right; by right].
Qed.

Lemma length_siftdown_loop (rounds : nat) heap x (startpos pos : nat) :
  length (siftdown_loop lt rounds heap x startpos pos) = length heap.
Proof.
  revert heap pos. induction rounds as [|rounds IH]; intros heap pos; simpl.
  - by rewrite length_insert.
  - case_decide; [|by rewrite length_insert].
    destruct (heap !! _) as [parent|]; [|by rewrite length_insert].
    destruct (lt x parent); [|by rewrite length_insert].
    by rewrite IH, length_insert.
Qed.

Lemma elem_of_siftdown_loop (rounds : nat) heap x (startpos pos : nat) y :
  y ∈ siftdown_loop lt rounds heap x startpos pos -> y = x \/ y ∈ heap.
Proof.
  revert heap pos. induction rounds as [|rounds IH]; intros heap pos; simpl.
  - apply elem_of_list_insert.
  - case_decide; [|apply elem_of_list_insert].
    destruct (heap !! _) as [parent|] eqn:Hp; [|apply elem_of_list_insert].
    destruct (lt x parent); [|apply elem_of_list_insert].
    intros [?|[->|?]%elem_of_list_insert]%IH; auto.
    right. by eapply list_elem_of_lookup_2.
Qed.

Lemma siftdown_loop_S (rounds : nat) heap x (startpos pos : nat) :
  siftdown_loop lt (S rounds) heap x startpos pos
  = if decide (startpos < pos)%nat then
      match heap !! ((pos - 1) / 2)%nat with
      | Some parent =>
          if lt x parent
          then siftdown_loop lt rounds (<[pos := parent]> heap) x startpos
                 ((pos - 1) / 2)%nat
          else <[pos := x]> heap
      | None => <[pos := x]> heap
      end
    else <[pos := x]> heap.
Proof. done. Qed.

Lemma siftup_loop_S (rounds : nat) heap (pos : nat) :
  siftup_loop lt (S rounds) heap pos
  = match heap !! (2 * pos + 1)%nat with
    | Some child =>
        let '(childpos, child) :=
          match heap !! (2 * pos + 1 + 1)%nat with
          | Some rchild =>
              if negb (lt child rchild)
              then ((2 * pos + 1 + 1)%nat, rchild)
              else ((2 * pos + 1)%nat, child)
          | None => ((2 * pos + 1)%nat, child)
          end in
        siftup_loop lt rounds (<[pos := child]> heap) childpos
    | None => (heap, pos)
    end.
Proof. done. Qed.

(** The bounds on the rounds of the two loops are never reached before
    the loops end: allowing one more round changes nothing. *)
Lemma siftdown_loop_rounds (rounds : nat) heap x (startpos pos : nat) :
  (pos <= rounds)%nat ->
  siftdown_loop lt (S rounds) heap x startpos pos
  = siftdown_loop lt rounds heap x startpos pos.
Proof.
  revert heap pos. induction rounds as [|rounds IH]; intros heap pos Hpos.
  - assert (pos = 0%nat) as -> by lia. cbn [siftdown_loop].
    destruct (decide (startpos < 0)%nat); [lia|done].
  - rewrite (siftdown_loop_S (S rounds)), (siftdown_loop_S rounds).
    case_decide; [|done].
    destruct (heap !! _) as [parent|]; [|done]. destruct (lt x parent); [|done].
    apply IH. assert ((pos - 1) / 2 <= pos - 1)%nat; [|lia].
    apply Nat.Div0.div_le_upper_bound. lia.
Qed.

Lemma siftup_loop_rounds (rounds : nat) heap (pos : nat) :
  (length heap <= rounds + pos)%nat ->
  siftup_loop lt (S rounds) heap pos = siftup_loop lt rounds heap pos.
Proof.
  revert heap pos. induction rounds as [|rounds IH]; intros heap pos Hlen.
  - cbn [siftup_loop]. rewrite lookup_ge_None_2; [done|lia].
  - rewrite (siftup_loop_S (S rounds)), (siftup_loop_S rounds).
    destruct (heap !! (2 * pos + 1)%nat) as [child|]; [|done].
    destruct (heap !! (2 * pos + 1 + 1)%nat) as [rchild|];
      [destruct (negb _)|]; apply IH; rewrite length_insert; lia.
Qed.
Lemma length_siftdown heap (startpos pos : nat) :
  length (_siftdown lt heap startpos pos) = length heap.
Proof.
  unfold _siftdown. destruct (heap !! pos); [|done].
  apply length_siftdown_loop.
Qed.

Lemma elem_of_siftdown heap (startpos pos : nat) y :
  y ∈ _siftdown lt heap startpos pos -> y ∈ heap.
Proof.
  unfold _siftdown. destruct (heap !! pos) as [x|] eqn:Hx; [|done].
  intros [->|?]%elem_of_siftdown_loop; [|done].
  by eapply list_elem_of_lookup_2.
Qed.

Lemma siftup_loop_facts (rounds : nat) heap (pos : nat) :
  length (siftup_loop lt rounds heap pos).1 = length heap
  /\ forall y, y ∈ (siftup_loop lt rounds heap pos).1 -> y ∈ heap.
Proof.
  revert heap pos. induction rounds as [|rounds IH]; intros heap pos.
  - done.
  - cbn [siftup_loop].
    destruct (heap !! (2 * pos + 1)%nat) as [child|] eqn:Hc; [|done].
    destruct (heap !! (2 * pos + 1 + 1)%nat) as [rchild|] eqn:Hr.
    + destruct (negb (lt child rchild));
        (match goal with
         | |- context [siftup_loop lt rounds ?h ?p] =>
             destruct (IH h p) as [Hlen Hin]
         end; split;
         [by rewrite Hlen, length_insert|];
         intros y [->|?]%Hin%elem_of_list_insert; [|done];
         by eapply list_elem_of_lookup_2).
    + destruct (IH (<[pos := child]> heap) (2 * pos + 1)%nat) as [Hlen Hin].
      split; [by rewrite Hlen, length_insert|].
      intros y [->|?]%Hin%elem_of_list_insert; [|done].
      by eapply list_elem_of_lookup_2.
Qed.

Lemma length_siftup heap (pos : nat) :
  length (_siftup lt heap pos) = length heap.
Proof.
  unfold _siftup. destruct (heap !! pos); [|done].
  destruct (siftup_loop lt (length heap) heap pos) as [heap' pos'] eqn:Hl.
  rewrite length_siftdown, length_insert.
  pose proof (siftup_loop_facts (length heap) heap pos) as [Hlen _].
  by rewrite Hl in Hlen.
Qed.

Lemma elem_of_siftup heap (pos : nat) y :
  y ∈ _siftup lt heap pos -> y ∈ heap.
Proof.
  unfold _siftup. destruct (heap !! pos) as [x|] eqn:Hx; [|done].
  destruct (siftup_loop lt (length heap) heap pos) as [heap' pos'] eqn:Hl.
  pose proof (siftup_loop_facts (length heap) heap pos) as [_ Hin].
  rewrite Hl in Hin.
  intros [->|?]%elem_of_siftdown%elem_of_list_insert; [|by apply Hin].
  by eapply list_elem_of_lookup_2.
Qed.

Lemma length_heappush heap x :
  length (heappush lt heap x) = S (length heap).
Proof.
  unfold heappush. rewrite length_siftdown, length_app. simpl. lia.
Qed.

Lemma elem_of_heappush heap x y :
  y ∈ heappush lt heap x -> y = x \/ y ∈ heap.
Proof.
  unfold heappush.
  intros [?| ->%list_elem_of_singleton]%elem_of_siftdown%elem_of_app; auto.
Qed.

Lemma length_heappushpop heap x :
  length (heappushpop lt heap x).1 = length heap.
Proof.
  unfold heappushpop. destruct heap as [|top heap]; [done|].
  destruct (lt top x); [|done]. simpl. by rewrite length_siftup.
Qed.

Lemma elem_of_heappushpop heap x y :
  y ∈ (heappushpop lt heap x).1 -> y = x \/ y ∈ heap.
Proof.
  unfold heappushpop. destruct heap as [|top heap]; [auto|].
  destruct (lt top x); [|auto]. cbn [fst].
  intros [->|?]%elem_of_siftup%elem_of_list_insert; auto.
Qed.
End HeapqFacts.

(** ** The order of policy records *)

Lemma record_lt_below (a b : reward_record) :
  no_nan a -> no_nan b -> record_lt a b = true <-> record_below a b.
Proof.
  intros Ha Hb. unfold record_lt, record_below.
  pose proof (float_eqb_rank _ _ Ha Hb) as Heq.
  pose proof (float_ltb_rank _ _ Ha Hb) as Hlt.
  destruct (PrimFloat.eqb (reward_sum a) (reward_sum b)).
  - assert (float_rank (reward_sum a) = float_rank (reward_sum b)) as Hr
      by by apply Heq.
    rewrite Z.ltb_lt, Hr. unfold lex3. split; [auto|]. intros [?|[_ ?]]; [lia|done].
  - rewrite Hlt. split; [auto|]. intros [?|[Hr _]]; [done|].
    apply Heq in Hr. done.
Qed.

Lemma record_below_asym (a b : reward_record) :
  record_below a b -> ~ record_below b a.
Proof.
  unfold record_below, lex3.
  destruct (float_rank (reward_sum a)) as [[a1 a2] a3].
  destruct (float_rank (reward_sum b)) as [[b1 b2] b3].
  simpl. rewrite !pair_equal_spec. lia.
Qed.

Lemma record_below_negtrans (a b c : reward_record) :
  ~ record_below a b -> ~ record_below b c -> ~ record_below a c.
Proof.
  unfold record_below, lex3.
  destruct (float_rank (reward_sum a)) as [[a1 a2] a3].
  destruct (float_rank (reward_sum b)) as [[b1 b2] b3].
  destruct (float_rank (reward_sum c)) as [[c1 c2] c3].
  simpl. rewrite !pair_equal_spec. lia.
Qed.

Lemma record_lt_asym (a b : reward_record) :
  no_nan a -> no_nan b -> record_lt a b = true -> record_lt b a = false.
Proof.
  intros Ha Hb Hab. apply not_true_is_false. intros Hba.
  apply record_lt_below in Hab, Hba; try done.
  by apply (record_below_asym a b).
Qed.

Lemma record_lt_negtrans (a b c : reward_record) :
  no_nan a -> no_nan b -> no_nan c ->
  record_lt a b = false -> record_lt b c = false -> record_lt a c = false.
Proof.
  intros Ha Hb Hc Hab Hbc. apply not_true_is_false. intros Hac.
  apply not_true_iff_false in Hab, Hbc.
  rewrite record_lt_below in Hab, Hbc, Hac by done.
  by apply (record_below_negtrans a b c).
Qed.

(** ** The policy store *)

Lemma dict_get_credit (r : float) (p : policy) (pt : PackageTuple) (k : key) :
  dict_get k (credit r p pt) =
  if decide (k = KTuple pt)
  then Some (add_reward r (default fresh_record (dict_get (KTuple pt) p)))
  else dict_get k p.
Proof.
  unfold credit. rewrite dict_get_alter, !dict_get_setdefault.
  destruct (decide (k = KTuple pt)) as [->|Hne]; [|done].
  by rewrite decide_True.
Qed.

Lemma dict_get_credit_all_other (r : float) (pts : list PackageTuple)
  (p : policy) (k : key) :
  (forall pt, pt ∈ pts -> k <> KTuple pt) ->
  dict_get k (credit_all r p pts) = dict_get k p.
Proof.
  revert p. induction pts as [|a pts IH]; intros p Hk; [done|].
  cbn [credit_all fold_left]. fold (credit_all r (credit r p a) pts).
  rewrite IH; [|intros pt Hin; apply Hk; by right].
  rewrite dict_get_credit, decide_False; [done|]. apply Hk. left.
Qed.

Lemma dict_get_credit_all (r : float) (pts : list PackageTuple)
  (p : policy) (pt : PackageTuple) :
  NoDup pts -> pt ∈ pts ->
  dict_get (KTuple pt) (credit_all r p pts) =
  Some (add_reward r (default fresh_record (dict_get (KTuple pt) p))).
Proof.
  revert p. induction pts as [|a pts IH]; intros p Hnd Hin.
  - by apply elem_of_nil in Hin.
  - apply NoDup_cons in Hnd as [Ha Hnd].
    cbn [credit_all fold_left]. fold (credit_all r (credit r p a) pts).
    destruct (decide (pt = a)) as [->|Hne].
    + rewrite dict_get_credit_all_other.
      * by rewrite dict_get_credit, decide_True.
      * intros pt Hpt ?; simplify_eq. done.
    + apply elem_of_cons in Hin as [?|Hin]; [done|].
      rewrite IH by done. rewrite dict_get_credit, decide_False; [done|].
      congruence.
Qed.

Lemma dict_keys_credit (r : float) (p : policy) (pt : PackageTuple) :
  dict_keys (credit r p pt) =
  if decide (KTuple pt ∈ dict_keys p) then dict_keys p
  else dict_keys p ++ [KTuple pt].
Proof. unfold credit. by rewrite dict_keys_alter, dict_keys_setdefault. Qed.

Lemma credit_all_NoDup (r : float) (pts : list PackageTuple) (p : policy) :
  NoDup (dict_keys p) -> NoDup (dict_keys (credit_all r p pts)).
Proof.
  revert p. induction pts as [|pt pts IH]; intros p Hp; [done|].
  apply IH. rewrite dict_keys_credit. case_decide as Hin; [done|].
  apply NoDup_app. split_and!; [done| |apply NoDup_singleton].
  intros k Hk ->%list_elem_of_singleton. done.
Qed.

Lemma credit_all_tuple_keyed (r : float) (pts : list PackageTuple)
  (p : policy) :
  tuple_keyed p -> tuple_keyed (credit_all r p pts).
Proof.
  revert p. induction pts as [|pt pts IH]; intros p Hp; [done|].
  apply IH. intros k. rewrite dict_keys_credit.
  case_decide; [apply Hp|].
  intros [?| ->%list_elem_of_singleton]%elem_of_app; eauto.
Qed.

Lemma sorted_NoDup_keys (p : policy) (m : nat) :
  NoDup (dict_keys p) ->
  NoDup (map fst (take m (sorted snd record_lt true p))).
Proof.
  intros Hp. rewrite <- firstn_map.
  apply (sublist_NoDup _ (map fst (sorted snd record_lt true p)));
    [|apply sublist_take].
  unfold dict_keys in Hp. by rewrite (sorted_perm snd record_lt true p).
Qed.

Lemma shrink_take (size : Z) (p : policy) :
  NoDup (dict_keys p) ->
  exists m, shrink size p = take m (sorted snd record_lt true p)
            /\ (0 <= size -> m = Z.to_nat size).
Proof.
  intros Hp. unfold shrink, slice_to. destruct (Z.leb_spec 0 size).
  - eexists. split; [|done]. by apply dict_of_items_NoDup, sorted_NoDup_keys.
  - eexists. split; [|lia]. by apply dict_of_items_NoDup, sorted_NoDup_keys.
Qed.

Lemma shrink_wf (size : Z) (p : policy) :
  NoDup (dict_keys p) -> tuple_keyed p ->
  NoDup (dict_keys (shrink size p)) /\ tuple_keyed (shrink size p).
Proof.
  intros Hp Hk. destruct (shrink_take size p Hp) as (m & -> & _). split.
  - by apply sorted_NoDup_keys.
  - intros k Hin. apply Hk. unfold dict_keys in *.
    rewrite <- (sorted_perm snd record_lt true p).
    rewrite <- firstn_map in Hin. by apply subseteq_take in Hin.
Qed.

Lemma shrink_periodically_wf (size : Z) (ctx : Context) (p : policy) :
  NoDup (dict_keys p) -> tuple_keyed p ->
  NoDup (dict_keys (shrink_periodically size ctx p))
  /\ tuple_keyed (shrink_periodically size ctx p).
Proof.
  intros Hp Hk. unfold shrink_periodically.
  destruct (_ && _); [by apply shrink_wf|done].
Qed.

Lemma shrink_retains_top (size : Z) (p : policy) :
  0 < size -> NoDup (dict_keys p) -> retains_top size p (shrink size p).
Proof.
  intros Hsize Hp. destruct (shrink_take size p Hp) as (m & Hm & Hmz).
  rewrite Hmz in Hm by lia. clear Hmz m. rewrite Hm.
  split; [done|]. split; [rewrite length_take; lia|].
  intros Hnan kept dropped Hkept Hdropped Hnot.
  set (ranked := sorted snd record_lt true p) in *.
  assert (Hsorted : StronglySorted (descending snd record_lt) ranked).
  { apply (sorted_descending snd record_lt no_nan); [| |done].
    - apply record_lt_asym.
    - apply record_lt_negtrans. }
  rewrite <- (take_drop (Z.to_nat size) ranked) in Hsorted.
  apply (StronglySorted_app_1_elem_of _ _ _ _ _ Hsorted Hkept).
  assert (dropped ∈ ranked) as Hin.
  { unfold ranked. by rewrite sorted_perm. }
  rewrite <- (take_drop (Z.to_nat size) ranked) in Hin.
  apply elem_of_app in Hin as [?|?]; done.
Qed.

(** The eviction only forgets. *)
Lemma shrink_periodically_lookup (size : Z) (ctx : Context) (p : policy) :
  NoDup (dict_keys p) ->
  (forall k r,
     dict_get k (shrink_periodically size ctx p) = Some r ->
     dict_get k p = Some r)
  /\ (Z.of_nat (length p) <= size ->
      forall k, dict_get k (shrink_periodically size ctx p) = dict_get k p).
Proof.
  intros Hp. unfold shrink_periodically.
  destruct (_ && _); [|done].
  destruct (shrink_take size p Hp) as (m & Hm & Hmz).
  assert (Hnd : NoDup (dict_keys (shrink size p))).
  { rewrite Hm. by apply sorted_NoDup_keys. }
  split.
  - intros k r Hget. apply dict_get_Some in Hget; [|done].
    apply dict_get_Some; [done|]. rewrite Hm in Hget.
    apply subseteq_take in Hget. by rewrite sorted_perm in Hget.
  - intros Hlen k. apply dict_get_perm; [done|].
    rewrite Hm, Hmz by lia. rewrite take_ge; [apply sorted_perm|].
    rewrite (Permutation_length (sorted_perm _ _ _ _)). lia.
Qed.

(** ** [TemporalDifference._temperature_function] *)

Lemma max_zero_not_negative (t : float) :
  PrimFloat.ltb (Py.max t 0%float) 0%float = false.
Proof.
  unfold Py.max. destruct (PrimFloat.ltb t 0%float) eqn:Ht; [done|].
  exact Ht.
Qed.

Lemma float_of_int_fits (z : Z) :
  is_infinity (Z2float z) = false -> float_of_int z = Ok (Z2float z).
Proof. intros Hz. unfold float_of_int. by rewrite Hz. Qed.

Lemma float_of_int_overflows (z : Z) :
  is_infinity (Z2float z) = true -> float_of_int z = Raise OverflowError.
Proof. intros Hz. unfold float_of_int. by rewrite Hz. Qed.

Lemma float_of_int_one : float_of_int 1 = Ok 1%float.
Proof. vm_compute. reflexivity. Qed.

(** C7 (amended): [_temperature_function] returns 0.0 whenever
    [accepted_final_states_count] is 0.  When the incoming temperature is
    0.0 and [accepted_final_states_count] is exactly 1 it sets the slope
    coefficient [_a] to [0.5 * iteration / accepted_final_states_count *
    limit] and returns [limit].  Otherwise, when [_a] is not zero, it
    returns [max((-limit / _a) * iteration + limit, 0.0)], which is never
    below zero, and leaves [_a] as it is; when [_a] is zero it raises
    [ZeroDivisionError].  The arithmetic is that of Python on floats, the
    ints converted first, left to right: an int that does not fit a
    float makes the function raise [OverflowError]. *)
Theorem temperature_function_cases
  (self : TD.TemporalDifference) (t0 : num) (ctx : Context) :
  (accepted_final_states_count ctx = 0 ->
   TD._temperature_function self t0 ctx = Ok (Float 0%float, self))
  /\ (num_is_zero t0 = true -> accepted_final_states_count ctx = 1 ->
      (is_infinity (Z2float (iteration ctx)) = false ->
       is_infinity (Z2float (limit ctx)) = false ->
       TD._temperature_function self t0 ctx
       = Ok (Int (limit ctx),
             TD.set_a self
               (PrimFloat.mul
                  (PrimFloat.div
                     (PrimFloat.mul 0.5%float (Z2float (iteration ctx)))
                     (Z2float (accepted_final_states_count ctx)))
                  (Z2float (limit ctx)))))
      /\ (is_infinity (Z2float (iteration ctx)) = true
          \/ is_infinity (Z2float (limit ctx)) = true ->
          TD._temperature_function self t0 ctx = Raise OverflowError))
  /\ (accepted_final_states_count ctx <> 0 ->
      ~ (num_is_zero t0 = true /\ accepted_final_states_count ctx = 1) ->
      let temperature :=
        PrimFloat.add
          (PrimFloat.mul
             (PrimFloat.div (Z2float (- limit ctx)) (TD._a self))
             (Z2float (iteration ctx)))
          (Z2float (limit ctx)) in
      let clamped :=
        if PrimFloat.ltb temperature 0%float then 0%float else temperature in
      (is_infinity (Z2float (- limit ctx)) = false ->
       is_zero (TD._a self) = false ->
       is_infinity (Z2float (iteration ctx)) = false ->
       is_infinity (Z2float (limit ctx)) = false ->
       TD._temperature_function self t0 ctx = Ok (Float clamped, self)
       /\ PrimFloat.ltb clamped 0%float = false)
      /\ (is_infinity (Z2float (- limit ctx)) = false ->
          is_zero (TD._a self) = true ->
          TD._temperature_function self t0 ctx = Raise ZeroDivisionError)
      /\ (is_infinity (Z2float (- limit ctx)) = true
          \/ is_zero (TD._a self) = false
             /\ (is_infinity (Z2float (iteration ctx)) = true
                 \/ is_infinity (Z2float (limit ctx)) = true) ->
          TD._temperature_function self t0 ctx = Raise OverflowError)).
Proof.
  unfold TD._temperature_function. split; [|split].
  - intros ->. done.
  - intros Ht0 Hacc. rewrite Hacc, Ht0. cbn [Z.eqb Pos.eqb andb].
    unfold TD.slope, fmul_int, fdiv_int, fdiv. rewrite Hacc, float_of_int_one.
    replace (Z2float 1) with 1%float by (vm_compute; reflexivity).
    replace (is_zero 1) with false by (vm_compute; reflexivity).
    unfold mbind, result_bind. split.
    + intros Hi Hl. by rewrite !float_of_int_fits by done.
    + destruct (is_infinity (Z2float (iteration ctx))) eqn:Hi.
      * intros _. by rewrite float_of_int_overflows.
      * intros [?|Hl]; [done|].
        by rewrite float_of_int_fits, float_of_int_overflows.
  - intros Hacc Hnot. rewrite (proj2 (Z.eqb_neq _ _) Hacc).
    destruct (num_is_zero t0 && (accepted_final_states_count ctx =? 1))
      eqn:Hb.
    { apply andb_true_iff in Hb as [? ?%Z.eqb_eq]. exfalso; auto. }
    cbv zeta. unfold TD.cooling, int_div_float, fmul_int, fadd_int, fdiv.
    unfold mbind, result_bind. split_and!.
    + intros Hn Ha Hi Hl. rewrite !float_of_int_fits, Ha by done.
      split; [done|].
      match goal with
      | |- PrimFloat.ltb (if PrimFloat.ltb ?t _ then _ else _) _ = false =>
          destruct (PrimFloat.ltb t 0%float) eqn:Ht; [done|exact Ht]
      end.
    + intros Hn Ha. by rewrite float_of_int_fits, Ha.
    + intros [Hn|[Ha [Hi|Hl]]].
      * by rewrite float_of_int_overflows.
      * destruct (is_infinity (Z2float (- limit ctx))) eqn:Hn.
        -- by rewrite float_of_int_overflows.
        -- by rewrite float_of_int_fits, Ha, float_of_int_overflows.
      * destruct (is_infinity (Z2float (- limit ctx))) eqn:Hn.
        { by rewrite float_of_int_overflows. }
        rewrite float_of_int_fits, Ha by done.
        destruct (is_infinity (Z2float (iteration ctx))) eqn:Hi.
        { by rewrite float_of_int_overflows. }
        by rewrite float_of_int_fits, float_of_int_overflows.
Qed.

(** The schedule of the sample predictor at iteration 10 of 100: the
    first accepted final state sets the slope to 500.0 and the
    temperature to the limit; one iteration later the temperature has
    cooled to 97.8, the float nearest to it. *)
Lemma temperature_function_cases_witness :
  TD._temperature_function (Sample.td 10) (Float 0%float)
    {| iteration := 10; limit := 100; accepted_final_states_count := 1;
       beam_max := Sample.state |}
  = Ok (Int 100, TD.set_a (Sample.td 10) 500%float)
  /\ TD._temperature_function (TD.set_a (Sample.td 10) 500%float) (Int 100)
       {| iteration := 11; limit := 100; accepted_final_states_count := 1;
          beam_max := Sample.state |}
     = Ok (Float 0x1.8733333333333p+6%float,
           TD.set_a (Sample.td 10) 500%float).
Proof.
  split.
  - destruct (temperature_function_cases (Sample.td 10) (Float 0%float)
                {| iteration := 10; limit := 100;
                   accepted_final_states_count := 1;
                   beam_max := Sample.state |}) as (_ & Hlearn & _).
    destruct (Hlearn eq_refl eq_refl) as [-> _];
      [vm_compute; reflexivity..|].
    vm_compute. reflexivity.
  - destruct (temperature_function_cases (TD.set_a (Sample.td 10) 500%float)
                (Int 100)
                {| iteration := 11; limit := 100;
                   accepted_final_states_count := 1;
                   beam_max := Sample.state |}) as (_ & _ & Hcool).
    destruct Hcool as [Hcool _]; [done|by intros [? _]|].
    destruct Hcool as [-> _]; [vm_compute; reflexivity..|].
    vm_compute. reflexivity.
Defined.

(** With a slope coefficient of zero the cooling branch does not return
    a temperature: the division [-limit / _a] raises. *)
Lemma temperature_function_raises_on_zero_slope :
  let self := TD.set_a (Sample.td 5) 0%float in
  let ctx := {| iteration := 5; limit := 100;
                accepted_final_states_count := 2;
                beam_max := Sample.state |} in
  accepted_final_states_count ctx <> 0
  /\ ~ (num_is_zero (Int 100) = true /\ accepted_final_states_count ctx = 1)
  /\ TD._temperature_function self (Int 100) ctx = Raise ZeroDivisionError
  /\ forall t self',
       TD._temperature_function self (Int 100) ctx <> Ok (t, self').
Proof.
  cbv zeta. split_and!; [done|by intros [? _]|vm_compute; reflexivity|].
  intros t self'. vm_compute. discriminate.
Qed.

(** ** [TemporalDifference.set_reward_signal] *)

(** C6 (amended): [TemporalDifference.set_reward_signal] leaves the
    predictor, and so its policy store, as it is when the reward is NaN
    or infinite.  For every other reward the policy is first credited and
    then handed to the periodic eviction: in the credited policy the
    record of every package tuple resolved in the state (a new record
    [[0.0, 0]] when it had none) has the reward added to its sum and 1 to
    its count, and every other key keeps what it had.  When the eviction
    is off or not due the credited policy is the policy of the predictor
    afterwards; when it runs, a resolved package tuple holds its credited
    record afterwards or, evicted, none. *)
Theorem td_set_reward_signal_credits
  (size : Z) (self : TD.TemporalDifference) (state : State)
  (pt0 : PackageTuple) (reward : float) :
  NoDup (iter_resolved_dependencies state) ->
  (isnan reward || isinf reward = true ->
   TD.set_reward_signal size self state pt0 reward = self)
  /\ (isnan reward || isinf reward = false ->
      let credited :=
        credit_all reward (TD._policy self)
          (iter_resolved_dependencies state) in
      TD._policy (TD.set_reward_signal size self state pt0 reward) =
        shrink_periodically size (TD.context self) credited
      /\ (size = 0 \/ iteration (TD.context self) mod 1024 <> 0 ->
          TD._policy (TD.set_reward_signal size self state pt0 reward) =
            credited)
      /\ (forall pt, pt ∈ iter_resolved_dependencies state ->
          let old := default fresh_record
                       (dict_get (KTuple pt) (TD._policy self)) in
          dict_get (KTuple pt) credited =
            Some {| reward_sum := PrimFloat.add (reward_sum old) reward;
                    visit_count := visit_count old + 1 |})
      /\ (forall k, (forall pt, pt ∈ iter_resolved_dependencies state ->
                                 k <> KTuple pt) ->
          dict_get k credited = dict_get k (TD._policy self))
      /\ (NoDup (dict_keys (TD._policy self)) ->
          forall pt, pt ∈ iter_resolved_dependencies state ->
            let after :=
              TD._policy (TD.set_reward_signal size self state pt0 reward) in
            dict_get (KTuple pt) after = dict_get (KTuple pt) credited
            \/ (dict_get (KTuple pt) after = None
                /\ size <> 0
                /\ iteration (TD.context self) mod 1024 = 0))).
Proof.
  intros Hnd. unfold TD.set_reward_signal. split.
  - intros ->. done.
  - intros ->. cbn zeta. split; [done|].
    assert (Hoff : size = 0 \/ iteration (TD.context self) mod 1024 <> 0 ->
                   forall p, shrink_periodically size (TD.context self) p = p).
    { unfold shrink_periodically. intros [->|Hmod] p; [done|].
      apply Z.eqb_neq in Hmod. rewrite Hmod. by rewrite andb_false_r. }
    cbn [TD.set_policy TD._policy TD.context]. split_and!.
    + intros Hcase. by apply Hoff.
    + intros pt Hin. by rewrite dict_get_credit_all.
    + intros k Hk. by apply dict_get_credit_all_other.
    + intros Hkeys pt Hin.
      destruct (decide (size = 0)) as [Hsize|Hsize];
        [left; rewrite Hoff; [done|by left]|].
      destruct (decide (iteration (TD.context self) mod 1024 = 0))
        as [Hmod|Hmod]; [|left; rewrite Hoff; [done|by right]].
      destruct (dict_get (KTuple pt)
                  (shrink_periodically size (TD.context self)
                     (credit_all reward (TD._policy self)
                        (iter_resolved_dependencies state))))
        as [r|] eqn:Hget; [left|by right].
      symmetry.
      apply (proj1 (shrink_periodically_lookup size (TD.context self) _
                      (credit_all_NoDup reward _ _ Hkeys))).
      exact Hget.
Qed.

Lemma td_set_reward_signal_credits_witness :
  NoDup (iter_resolved_dependencies Sample.state)
  /\ TD._policy
       (TD.set_reward_signal 0 (Sample.td 1) Sample.state Sample.click
          1.5%float)
     = [(KTuple Sample.flask,
         {| reward_sum := 1.5%float; visit_count := 1 |});
        (KTuple Sample.click,
         {| reward_sum := 1.5%float; visit_count := 1 |})].
Proof.
  assert (Hnd : NoDup (iter_resolved_dependencies Sample.state)).
  { apply (bool_decide_unpack _). vm_compute. exact I. }
  split; [exact Hnd|].
  destruct (td_set_reward_signal_credits 0 (Sample.td 1) Sample.state
              Sample.click 1.5%float Hnd) as [_ Hfinite].
  destruct (Hfinite eq_refl) as (_ & Hoff & _).
  rewrite Hoff; [reflexivity|by left].
Defined.

(** With a cap of 1 and the call made at iteration 1024, the finite
    reward for a state that has [flask] and [click] resolved leaves
    [click] without a record: the eviction that ends the call keeps the
    first of the two credited records only. *)
Lemma finite_reward_credit_evicted :
  let self := Sample.td 1024 in
  let self' :=
    TD.set_reward_signal 1 self Sample.state Sample.click 1.5%float in
  isnan 1.5%float || isinf 1.5%float = false
  /\ Sample.click ∈ iter_resolved_dependencies Sample.state
  /\ dict_get (KTuple Sample.click) (TD._policy self) = None
  /\ dict_get (KTuple Sample.click) (TD._policy self') = None
  /\ TD._policy self'
     = [(KTuple Sample.flask,
         {| reward_sum := 1.5%float; visit_count := 1 |})].
Proof.
  cbv zeta. split_and!; [done| |done|vm_compute; reflexivity..].
  apply (bool_decide_unpack _). vm_compute. exact I.
Qed.

(** ** [TemporalDifference._do_exploitation] *)

Lemma tuple_keyed_name (p : policy) (name : string) :
  tuple_keyed p -> dict_get (KName name) p = None.
Proof.
  intros Hp. apply dict_get_None. intros [pt Hpt]%Hp. discriminate.
Qed.

Lemma exploitation_loop_misses (p : policy) (pts : list PackageTuple)
  (acc : option float * option PackageTuple) :
  tuple_keyed p -> TD.exploitation_loop p acc pts = Ok acc.
Proof.
  intros Hp. induction pts as [|pt pts IH]; [done|].
  cbn [TD.exploitation_loop]. unfold TD.exploitation_step at 1.
  unfold TD.reward_records_of. by rewrite tuple_keyed_name.
Qed.

(** Whatever the policy has learnt, the exploitation branch hands the
    choice to the random pick. *)
Lemma do_exploitation_random
  (rnd : State -> bool -> PackageTuple) (self : TD.TemporalDifference) :
  tuple_keyed (TD._policy self) ->
  TD._do_exploitation rnd self =
  Ok (beam_max (TD.context self), rnd (beam_max (TD.context self)) true).
Proof.
  intros Hp. unfold TD._do_exploitation.
  by rewrite exploitation_loop_misses.
Qed.

(** What [set_reward_signal] stores keeps the dictionary a dictionary
    keyed by package tuples. *)
Lemma td_set_reward_signal_wf
  (size : Z) (self : TD.TemporalDifference) (state : State)
  (pt0 : PackageTuple) (reward : float) :
  NoDup (dict_keys (TD._policy self)) -> tuple_keyed (TD._policy self) ->
  NoDup (dict_keys (TD._policy (TD.set_reward_signal size self state pt0
                                  reward)))
  /\ tuple_keyed (TD._policy (TD.set_reward_signal size self state pt0
                                reward)).
Proof.
  intros Hnd Hk. unfold TD.set_reward_signal.
  destruct (isnan reward || isinf reward); [done|].
  cbn [TD.set_policy TD._policy].
  apply shrink_periodically_wf;
    [by apply credit_all_NoDup|by apply credit_all_tuple_keyed].
Qed.

(** C1: the policy below was learnt by [set_reward_signal] itself and
    holds a record for [jinja2], an unresolved dependency of the beam
    maximum (average reward 3.0); [werkzeug], the other one, has no
    record.  The exploitation branch nevertheless hands the choice to
    [get_random_unresolved_dependency(prefer_recent=True)], whatever that
    picks: the lookup goes through the package name, under which nothing
    is ever stored. *)
Theorem do_exploitation_skips_learnt_record :
  let self :=
    TD.set_reward_signal 0 (Sample.td 1) Sample.other_state Sample.jinja2
      3%float in
  beam_max (TD.context self) = Sample.state
  /\ iter_unresolved_dependencies Sample.state
     = [Sample.jinja2; Sample.werkzeug]
  /\ dict_get (KTuple Sample.jinja2) (TD._policy self)
     = Some {| reward_sum := 3%float; visit_count := 1 |}
  /\ dict_get (KTuple Sample.werkzeug) (TD._policy self) = None
  /\ forall rnd : State -> bool -> PackageTuple,
       TD._do_exploitation rnd self
       = Ok (Sample.state, rnd Sample.state true).
Proof.
  cbv zeta. split_and!; [vm_compute; reflexivity..|].
  intros rnd. vm_compute. reflexivity.
Qed.

(** The same holds of every policy [set_reward_signal] can leave behind:
    after any reward signal the exploitation branch returns the beam
    maximum with the random pick. *)
Theorem do_exploitation_after_reward_signal
  (size : Z) (self : TD.TemporalDifference) (state : State)
  (pt0 : PackageTuple) (reward : float)
  (rnd : State -> bool -> PackageTuple) :
  NoDup (dict_keys (TD._policy self)) -> tuple_keyed (TD._policy self) ->
  let self' := TD.set_reward_signal size self state pt0 reward in
  TD._do_exploitation rnd self'
  = Ok (beam_max (TD.context self'), rnd (beam_max (TD.context self')) true).
Proof.
  intros Hnd Hk. apply do_exploitation_random.
  by apply td_set_reward_signal_wf.
Qed.

Lemma do_exploitation_after_reward_signal_witness :
  TD._do_exploitation Sample.pick_werkzeug
    (TD.set_reward_signal 0 (Sample.td 1) Sample.other_state Sample.jinja2
       3%float)
  = Ok (Sample.state, Sample.werkzeug).
Proof.
  apply (do_exploitation_after_reward_signal 0 (Sample.td 1)
           Sample.other_state Sample.jinja2 3%float Sample.pick_werkzeug).
  - constructor.
  - intros k Hk. by apply elem_of_nil in Hk.
Defined.

(** ** [MCTS.set_reward_signal] *)

Lemma mcts_mark_policy (size : Z) (self : MCTS.MCTS) (state : State) :
  MCTS._policy (MCTS.mark_policy size self state)
  = shrink_periodically size (MCTS.context self)
      (credit_all (score state) (MCTS._policy self)
         (iter_resolved_dependencies state))
  /\ MCTS._next_state (MCTS.mark_policy size self state) = None.
Proof. done. Qed.

(** What [set_reward_signal] does to the predictor, which keeps its
    context, temperature and slope.  A finite reward notes the state to
    continue with and leaves the policy alone.  A NaN reward and an
    infinite reward both drop the state to continue with and credit the
    policy with [state.score]: the record of every package tuple
    resolved in the state (a new record [[0.0, 0]] when it had none) has
    the score added to its sum and 1 to its count, every other key keeps
    what it had, and the credited policy is cut down to
    [dict(sorted(items, key=itemgetter(1), reverse=True)[:size])] when
    the size is not 0 and the iteration is a multiple of 1024. *)
Theorem mcts_set_reward_signal_cases
  (size : Z) (self : MCTS.MCTS) (state : State) (pt0 : PackageTuple)
  (reward : float) :
  let self' := MCTS.set_reward_signal size self state pt0 reward in
  let credited :=
    credit_all (score state) (MCTS._policy self)
      (iter_resolved_dependencies state) in
  MCTS.context self' = MCTS.context self
  /\ TD._temperature (MCTS.td self') = TD._temperature (MCTS.td self)
  /\ TD._a (MCTS.td self') = TD._a (MCTS.td self)
  /\ (isnan reward = false -> isinf reward = false ->
      MCTS._next_state self' = Some state
      /\ MCTS._policy self' = MCTS._policy self)
  /\ (isnan reward = true \/ isinf reward = true ->
      MCTS._next_state self' = None
      /\ MCTS._policy self'
         = (if negb (size =? 0) && (iteration (MCTS.context self) mod 1024 =? 0)
            then dict_of_items
                   (slice_to size (sorted snd record_lt true credited))
            else credited)
      /\ (NoDup (iter_resolved_dependencies state) ->
          forall pt, pt ∈ iter_resolved_dependencies state ->
            let old := default fresh_record
                         (dict_get (KTuple pt) (MCTS._policy self)) in
            dict_get (KTuple pt) credited
            = Some {| reward_sum := PrimFloat.add (reward_sum old) (score state);
                      visit_count := visit_count old + 1 |})
      /\ (forall k, (forall pt, pt ∈ iter_resolved_dependencies state ->
                                 k <> KTuple pt) ->
          dict_get k credited = dict_get k (MCTS._policy self))).
Proof.
  cbv zeta. unfold MCTS.set_reward_signal.
  destruct (isnan reward) eqn:Hnan; [|destruct (isinf reward) eqn:Hinf];
    cbn [negb].
  - split_and!; [done..| |]; [by intros|]. intros _.
    split_and!; [done|done| |].
    + intros Hnd pt Hin. by rewrite dict_get_credit_all.
    + intros k Hk. by apply dict_get_credit_all_other.
  - split_and!; [done..| |]; [by intros|]. intros _.
    split_and!; [done|done| |].
    + intros Hnd pt Hin. by rewrite dict_get_credit_all.
    + intros k Hk. by apply dict_get_credit_all_other.
  - split_and!; [done..| |]; [by intros|]. by intros [|].
Qed.

(** C2: on a NaN reward [MCTS.set_reward_signal] does drop the
    trajectory, but it does not stop there: the predictor below had an
    empty policy, and after the NaN signal for a state with score 2.0 the
    policy holds a record [[2.0, 1]] for each of the two packages resolved
    in the state. *)
Theorem mcts_nan_reward_credits_policy :
  let self :=
    MCTS.set_reward_signal 0 (Sample.mcts 1) Sample.state Sample.click nan in
  isnan nan = true
  /\ MCTS._policy (Sample.mcts 1) = []
  /\ MCTS._next_state self = None
  /\ MCTS._policy self
     = [(KTuple Sample.flask,
         {| reward_sum := 2%float; visit_count := 1 |});
        (KTuple Sample.click,
         {| reward_sum := 2%float; visit_count := 1 |})].
Proof. cbv zeta. split_and!; vm_compute; reflexivity. Qed.

(** ** Eviction from the policy store *)

(** The policy is shrunk only in a call made when the iteration counter
    is a multiple of 1024: here the cap is 1, the call is made at
    iteration 1, and the policy holds two records afterwards. *)
Lemma policy_exceeds_cap_between_evictions :
  ~ (Z.of_nat
       (length
          (TD._policy
             (TD.set_reward_signal 1 (Sample.td 1) Sample.state Sample.click
                1.5%float)))
     <= 1).
Proof. vm_compute. intros H. apply H. reflexivity. Qed.

(** C5 (amended): with a positive cap the policy store is cut down in the
    calls of [set_reward_signal] that reach the eviction with the
    iteration counter at a multiple of 1024 (a finite reward for
    [TemporalDifference], a reward that is not finite for [MCTS]).  After
    such a call the policy has at most as many entries as the cap: they
    are the first entries of the credited policy sorted by
    [[reward_sum, count]] in descending order, and, no sum being NaN, no
    evicted entry has a record above the record of a retained one. *)
Theorem eviction_retains_top
  (size : Z) (td : TD.TemporalDifference) (mcts : MCTS.MCTS)
  (state : State) (pt0 : PackageTuple) (reward : float) :
  0 < size ->
  (iteration (TD.context td) mod 1024 = 0 ->
   NoDup (dict_keys (TD._policy td)) ->
   isnan reward || isinf reward = false ->
   retains_top size
     (credit_all reward (TD._policy td) (iter_resolved_dependencies state))
     (TD._policy (TD.set_reward_signal size td state pt0 reward)))
  /\ (iteration (MCTS.context mcts) mod 1024 = 0 ->
      NoDup (dict_keys (MCTS._policy mcts)) ->
      isnan reward || isinf reward = true ->
      retains_top size
        (credit_all (score state) (MCTS._policy mcts)
           (iter_resolved_dependencies state))
        (MCTS._policy (MCTS.set_reward_signal size mcts state pt0 reward))).
Proof.
  intros Hsize.
  assert (Hrun : forall ctx p, iteration ctx mod 1024 = 0 ->
                   shrink_periodically size ctx p = shrink size p).
  { intros ctx p Hmod. unfold shrink_periodically.
    rewrite Hmod. by rewrite (proj2 (Z.eqb_neq size 0)) by lia. }
  split.
  - intros Hmod Hnd Hfinite. unfold TD.set_reward_signal. rewrite Hfinite.
    cbn [TD.set_policy TD._policy TD.context]. rewrite Hrun by done.
    apply shrink_retains_top; [done|]. by apply credit_all_NoDup.
  - intros Hmod Hnd Hnot.
    assert (MCTS.set_reward_signal size mcts state pt0 reward
            = MCTS.mark_policy size
                (if isnan reward then MCTS.set_next_state mcts None
                 else mcts) state) as ->.
    { unfold MCTS.set_reward_signal.
      destruct (isnan reward); [done|]. simpl in Hnot. by rewrite Hnot. }
    rewrite (proj1 (mcts_mark_policy _ _ _)).
    assert (MCTS.context (if isnan reward
                          then MCTS.set_next_state mcts None else mcts)
            = MCTS.context mcts) as -> by by destruct (isnan reward).
    assert (MCTS._policy (if isnan reward
                          then MCTS.set_next_state mcts None else mcts)
            = MCTS._policy mcts) as -> by by destruct (isnan reward).
    rewrite Hrun by done.
    apply shrink_retains_top; [done|]. by apply credit_all_NoDup.
Qed.

Lemma eviction_retains_top_witness :
  retains_top 1
    (credit_all 1.5%float [] (iter_resolved_dependencies Sample.state))
    (TD._policy
       (TD.set_reward_signal 1 (Sample.td 1024) Sample.state Sample.click
          1.5%float))
  /\ retains_top 1
       (credit_all (score Sample.state) []
          (iter_resolved_dependencies Sample.state))
       (MCTS._policy
          (MCTS.set_reward_signal 1 (Sample.mcts 1024) Sample.state
             Sample.click infinity)).
Proof.
  split.
  - apply (eviction_retains_top 1 (Sample.td 1024) (Sample.mcts 1024)
             Sample.state Sample.click 1.5%float); [lia|done|constructor|done].
  - apply (eviction_retains_top 1 (Sample.td 1024) (Sample.mcts 1024)
             Sample.state Sample.click infinity); [lia|done|constructor|done].
Defined.

(** ** [Adviser.compute] *)

Section AdviseFacts.
Context {Reasoning Project : Type}.
Context (payload_lt : Reasoning * Project -> Reasoning * Project -> bool).
Implicit Types (self : Advise.Adviser Reasoning Project).
Implicit Types (y : float * Reasoning * Project).
Implicit Types (ys : list (float * Reasoning * Project)).

Lemma visit_fields self y :
  let self' := Advise.visit payload_lt self y in
  Advise.recommendation_type self' = Advise.recommendation_type self
  /\ Advise.count self' = Advise.count self
  /\ Advise.limit self' = Advise.limit self
  /\ Advise._visited self' = Advise._visited self + 1.
Proof. by destruct y as [[score reasoning] generated_project]. Qed.

Lemma visit_heap_bound self y (c : Z) :
  Advise.count self = Some c ->
  Z.of_nat (length (Advise._computed_stacks_heap self)) <= c ->
  Z.of_nat (length (Advise._computed_stacks_heap
                      (Advise.visit payload_lt self y))) <= c.
Proof.
  destruct y as [[score reasoning] generated_project].
  intros Hc Hlen. cbn. rewrite Hc.
  destruct (Z.leb_spec c
              (Z.of_nat (length (Advise._computed_stacks_heap self)))).
  - by rewrite length_heappushpop.
  - rewrite length_heappush. lia.
Qed.

Lemma visit_heap_elem self y e :
  e ∈ Advise._computed_stacks_heap (Advise.visit payload_lt self y) ->
  e = Advise.entry_of y \/ e ∈ Advise._computed_stacks_heap self.
Proof.
  destruct y as [[score reasoning] generated_project]. cbn.
  destruct (Advise.count self) as [c|].
  - destruct (_ <=? _); [apply elem_of_heappushpop|apply elem_of_heappush].
  - apply elem_of_heappush.
Qed.

Lemma walk_loop_fields self ys (e : Advise.walk_end) :
  let self' := (Advise.walk_loop payload_lt self ys e).2 in
  Advise.recommendation_type self' = Advise.recommendation_type self
  /\ Advise.count self' = Advise.count self
  /\ Advise.limit self' = Advise.limit self.
Proof.
  revert self. induction ys as [|y ys IH]; intros self; [done|].
  cbn [Advise.walk_loop]. unfold Advise.loop_body.
  destruct (visit_fields self y) as (Hr & Hc & Hl & _).
  destruct (Advise.leave _); cbn; [|done..].
  destruct (IH (Advise.visit payload_lt self y)) as (? & ? & ?).
  cbv zeta in *. split_and!; congruence.
Qed.

Lemma walk_loop_heap_bound self ys (e : Advise.walk_end) (c : Z) :
  Advise.count self = Some c ->
  Z.of_nat (length (Advise._computed_stacks_heap self)) <= c ->
  Z.of_nat (length (Advise._computed_stacks_heap
                      (Advise.walk_loop payload_lt self ys e).2)) <= c.
Proof.
  revert self. induction ys as [|y ys IH]; intros self Hc Hlen; [done|].
  cbn [Advise.walk_loop]. unfold Advise.loop_body.
  pose proof (visit_heap_bound self y c Hc Hlen) as Hb.
  destruct (visit_fields self y) as (_ & Hc' & _).
  destruct (Advise.leave _); cbn; [|done..].
  apply IH; [congruence|done].
Qed.

Lemma walk_loop_heap_elem self ys (e : Advise.walk_end) x :
  x ∈ Advise._computed_stacks_heap (Advise.walk_loop payload_lt self ys e).2 ->
  x ∈ map Advise.entry_of ys \/ x ∈ Advise._computed_stacks_heap self.
Proof.
  revert self. induction ys as [|y ys IH]; intros self; [by right|].
  cbn [Advise.walk_loop]. unfold Advise.loop_body.
  assert (Hv : x ∈ Advise._computed_stacks_heap
                     (Advise.visit payload_lt self y) ->
               x ∈ map Advise.entry_of (y :: ys)
               \/ x ∈ Advise._computed_stacks_heap self).
  { intros [->|?]%visit_heap_elem; [left; left|by right]. }
  destruct (Advise.leave _); cbn [snd]; [|done..].
  intros [?|?]%IH; [left; by right|by apply Hv].
Qed.

(** The visit counter after the loop tells how many rounds it made. *)
Lemma walk_loop_visited self ys (e : Advise.walk_end) :
  exists n : nat,
    (n <= length ys)%nat
    /\ Advise._visited (Advise.walk_loop payload_lt self ys e).2
       = Advise._visited self + Z.of_nat n.
Proof.
  revert self. induction ys as [|y ys IH]; intros self.
  - exists 0%nat. cbn. split; [done|lia].
  - cbn [Advise.walk_loop]. unfold Advise.loop_body.
    destruct (visit_fields self y) as (_ & _ & _ & Hv).
    destruct (Advise.leave _); cbn [snd length].
    + destruct (IH (Advise.visit payload_lt self y)) as (n & Hn & ->).
      exists (S n). split; [lia|]. cbv zeta in Hv. lia.
    + exists 1%nat. split; [lia|]. cbv zeta in Hv. lia.
    + exists 1%nat. split; [lia|]. cbv zeta in Hv. lia.
Qed.
End AdviseFacts.

(** With [count] 2 the five stacks of the sample walk leave the two best
    on the heap, and [compute] returns them lowest score first:
    [stack-b], scored 0.75, stands before [stack-e], scored 0.875. *)
Lemma compute_returns_lowest_first :
  let final :=
    Advise._computed_stacks_heap
      (Advise.walk_loop Sample.payload_lt (Sample.adviser (Some 2) None)
         (Advise.yields Sample.walk) (Advise.ending Sample.walk)).2 in
  Advise.ranked final
  = [Advise.entry_of (Sample.stack 0.75%float "stack-b");
     Advise.entry_of (Sample.stack 0.875%float "stack-e")]
  /\ (Advise.compute Sample.payload_lt Sample.fill_package_digests
        (Sample.adviser (Some 2) None) Sample.walk).1
     = Ok (map (fun entry : Advise.item string string =>
                  (entry.2.1, Sample.fill_package_digests entry.2.2))
             (Advise.ranked final))
  /\ ~ Sorted (descending fst PrimFloat.ltb) (Advise.ranked final).
Proof.
  cbv zeta. split_and!; [vm_compute; reflexivity..|].
  intros Hs.
  assert (Heq : Advise.ranked
            (Advise._computed_stacks_heap
               (Advise.walk_loop Sample.payload_lt
                  (Sample.adviser (Some 2) None)
                  (Advise.yields Sample.walk) (Advise.ending Sample.walk)).2)
          = [Advise.entry_of (Sample.stack 0.75%float "stack-b");
             Advise.entry_of (Sample.stack 0.875%float "stack-e")])
    by (vm_compute; reflexivity).
  rewrite Heq in Hs. inversion Hs as [|? ? _ Hhd]; subst.
  inversion Hhd as [|? ? Hd]; subst. vm_compute in Hd. discriminate.
Qed.

(** C3 (amended): when [count] is set and the heap starts within it, as
    the empty heap of a new adviser does for every [count] that is not
    negative, the heap holds at most [count] stacks after every number of
    rounds of the loop and when the loop is left.  The list [compute]
    returns is the heap sorted by score in ascending order, the lowest
    score first: no stack in it is followed by one with a lower score,
    and when no score is NaN no stack stands anywhere before one with a
    lower score. *)
Theorem compute_heap_bound_and_order
  {Reasoning Project : Type}
  (payload_lt : Reasoning * Project -> Reasoning * Project -> bool)
  (fill_package_digests : Project -> Project)
  (self : Advise.Adviser Reasoning Project)
  (walk : Advise.Walk Reasoning Project) :
  (forall c : Z,
     Advise.count self = Some c ->
     Z.of_nat (length (Advise._computed_stacks_heap self)) <= c ->
     (forall n : nat,
        Z.of_nat
          (length
             (Advise._computed_stacks_heap
                (Advise.walk_loop payload_lt self
                   (take n (Advise.yields walk)) Advise.StopIteration).2))
        <= c)
     /\ Z.of_nat
          (length
             (Advise._computed_stacks_heap
                (Advise.walk_loop payload_lt self (Advise.yields walk)
                   (Advise.ending walk)).2))
        <= c)
  /\ (forall stacks,
        (Advise.compute payload_lt fill_package_digests self walk).1
        = Ok stacks ->
        let final :=
          Advise._computed_stacks_heap
            (Advise.walk_loop payload_lt self (Advise.yields walk)
               (Advise.ending walk)).2 in
        stacks
        = map (fun entry : Advise.item Reasoning Project =>
                 (entry.2.1, fill_package_digests entry.2.2))
            (Advise.ranked final)
        /\ Advise.ranked final ≡ₚ final
        /\ Sorted (ascending fst PrimFloat.ltb) (Advise.ranked final)
        /\ (Forall (fun entry => is_nan entry.1 = false)
              (Advise._computed_stacks_heap self) ->
            Forall (fun y => is_nan y.1.1 = false) (Advise.yields walk) ->
            StronglySorted (ascending fst PrimFloat.ltb)
              (Advise.ranked final))).
Proof.
  split.
  - intros c Hc Hlen. split; [intros n|]; by apply walk_loop_heap_bound.
  - intros stacks. unfold Advise.compute.
    destruct (Advise.walk_loop payload_lt self (Advise.yields walk)
                (Advise.ending walk)) as [raised self'] eqn:Hloop.
    cbn [fst snd]. destruct raised; [done|]. intros [= <-].
    split_and!.
    + done.
    + apply sorted_perm.
    + apply sorted_adjacent, float_ltb_asym.
    + intros Hheap Hys.
      apply (sorted_ascending fst PrimFloat.ltb (fun x => is_nan x = false)).
      * intros a b _ _. apply float_ltb_asym.
      * apply float_ltb_negtrans.
      * apply Forall_forall. intros x Hx.
        assert (Hx' : x ∈ Advise._computed_stacks_heap
                          (Advise.walk_loop payload_lt self
                             (Advise.yields walk) (Advise.ending walk)).2)
          by by rewrite Hloop.
        apply walk_loop_heap_elem in Hx' as [Hin|Hin].
        -- apply list_elem_of_fmap in Hin as (y & -> & Hy).
           rewrite Forall_forall in Hys. by apply Hys.
        -- rewrite Forall_forall in Hheap. by apply Hheap.
Qed.

Lemma compute_heap_bound_and_order_witness :
  let final :=
    Advise._computed_stacks_heap
      (Advise.walk_loop Sample.payload_lt (Sample.adviser (Some 2) None)
         (Advise.yields Sample.walk) (Advise.ending Sample.walk)).2 in
  Z.of_nat (length final) <= 2
  /\ StronglySorted (ascending fst PrimFloat.ltb) (Advise.ranked final).
Proof.
  destruct (compute_heap_bound_and_order Sample.payload_lt
              Sample.fill_package_digests (Sample.adviser (Some 2) None)
              Sample.walk) as [Hbound Horder].
  cbv zeta. split.
  - apply (Hbound 2); [reflexivity|simpl; lia].
  - assert (Hok : (Advise.compute Sample.payload_lt
                     Sample.fill_package_digests
                     (Sample.adviser (Some 2) None) Sample.walk).1
                  = Ok [("Unable to create advise - not sufficient information",
                         "stack-b");
                        ("Unable to create advise - not sufficient information",
                         "stack-e")])
      by (vm_compute; reflexivity).
    destruct (Horder _ Hok) as (_ & _ & _ & Hsorted).
    apply Hsorted; repeat constructor.
Defined.

(** C4: with [limit] 1 and [count] 3 the loop makes three rounds over the
    five stacks of the sample walk before it breaks: the visit counter is
    compared with [count], and [limit] is only tested for being set.
    With [limit] 1 and no [count] the comparison itself fails, in the
    first round. *)
Theorem limit_is_compared_with_count :
  let bounded :=
    Advise.walk_loop Sample.payload_lt (Sample.adviser (Some 3) (Some 1))
      (Advise.yields Sample.walk) (Advise.ending Sample.walk) in
  let unbounded :=
    Advise.walk_loop Sample.payload_lt (Sample.adviser None (Some 1))
      (Advise.yields Sample.walk) (Advise.ending Sample.walk) in
  bounded.1 = None
  /\ Advise._visited bounded.2 = 3
  /\ length (Advise._computed_stacks_heap bounded.2) = 3%nat
  /\ unbounded.1 = Some TypeError
  /\ Advise._visited unbounded.2 = 1.
Proof. cbv zeta. split_and!; vm_compute; reflexivity. Qed.

(** What bounds the loop when [limit] is set is [count]: the visit
    counter, which counts the rounds, is at most [count] when the loop is
    left, or one more than it was when that is already above [count]. *)
Theorem walk_loop_rounds
  {Reasoning Project : Type}
  (payload_lt : Reasoning * Project -> Reasoning * Project -> bool)
  (self : Advise.Adviser Reasoning Project)
  (ys : list (float * Reasoning * Project)) (e : Advise.walk_end)
  (l c : Z) :
  Advise.limit self = Some l -> Advise.count self = Some c ->
  Advise._visited (Advise.walk_loop payload_lt self ys e).2
  <= Z.max (Advise._visited self + 1) c.
Proof.
  revert self. induction ys as [|y ys IH]; intros self Hl Hc.
  - cbn. lia.
  - cbn [Advise.walk_loop]. unfold Advise.loop_body.
    destruct (visit_fields payload_lt self y) as (_ & Hc' & Hl' & Hv).
    cbv zeta in *. unfold Advise.leave. rewrite Hl', Hc', Hl, Hc, Hv.
    destruct (Z.leb_spec c (Advise._visited self + 1)); cbn [snd].
    + rewrite Hv. lia.
    + specialize (IH (Advise.visit payload_lt self y)).
      rewrite Hl', Hc', Hv in IH. specialize (IH Hl Hc). lia.
Qed.

Lemma walk_loop_rounds_witness :
  Advise._visited
    (Advise.walk_loop Sample.payload_lt (Sample.adviser (Some 3) (Some 1))
       (Advise.yields Sample.walk) (Advise.ending Sample.walk)).2
  <= Z.max (0 + 1) 3.
Proof.
  apply (walk_loop_rounds Sample.payload_lt
           (Sample.adviser (Some 3) (Some 1)) _ _ 1 3); reflexivity.
Defined.

(** However the [try] statement of [compute] is left, by returning the
    stacks or by raising (the walk failed, or a round of the loop did),
    it leaves the adviser with an empty heap and a visit counter of 0 and
    with the settings it had. *)
Lemma try_resets_adviser
  {Reasoning Project : Type}
  (payload_lt : Reasoning * Project -> Reasoning * Project -> bool)
  (fill_package_digests : Project -> Project)
  (self : Advise.Adviser Reasoning Project)
  (walk walk' : Advise.Walk Reasoning Project) :
  let after :=
    (Advise.compute payload_lt fill_package_digests self walk).2 in
  Advise._computed_stacks_heap after = []
  /\ Advise._visited after = 0
  /\ Advise.recommendation_type after = Advise.recommendation_type self
  /\ Advise.count after = Advise.count self
  /\ Advise.limit after = Advise.limit self
  /\ (Advise.compute payload_lt fill_package_digests after walk').2 = after
  /\ (Advise._computed_stacks_heap self = [] -> Advise._visited self = 0 ->
      after = self).
Proof.
  assert (Hfin : forall s w,
            (Advise.compute payload_lt fill_package_digests s w).2
            = Advise.finally
                (Advise.walk_loop payload_lt s (Advise.yields w)
                   (Advise.ending w)).2).
  { intros s w. unfold Advise.compute. by destruct (Advise.walk_loop _ _ _ _). }
  cbv zeta. rewrite !Hfin.
  destruct (walk_loop_fields payload_lt self (Advise.yields walk)
              (Advise.ending walk)) as (Hr & Hc & Hl).
  split_and!; try done.
  2: { intros Hheap Hvisited. unfold Advise.finally.
       rewrite Hr, Hc, Hl, <- Hheap, <- Hvisited. by destruct self. }
  destruct (walk_loop_fields payload_lt
              (Advise.finally
                 (Advise.walk_loop payload_lt self (Advise.yields walk)
                    (Advise.ending walk)).2)
              (Advise.yields walk') (Advise.ending walk')) as (Hr' & Hc' & Hl').
  unfold Advise.finally at 1. cbv zeta in *. rewrite Hr', Hc', Hl'. done.
Qed.

(** The walk of the sample fails after two stacks: [compute] raises what
    the walk raised and the adviser is as new. *)
Lemma compute_resets_after_failure :
  Advise.compute Sample.payload_lt Sample.fill_package_digests
    (Sample.adviser (Some 2) None) Sample.failing_walk
  = (Raise (Exception "graph database is down"),
     Sample.adviser (Some 2) None).
Proof. vm_compute. reflexivity. Qed.

(** ** [CutPreReleases.run] *)

Lemma removals_spec (pvs : list PreReleases.PackageVersion)
  (ch : PreReleases.StepChange) (pt : PackageTuple) :
  pt ∈ PreReleases.to_remove
         (fold_left
            (fun ch package_version =>
               if PreReleases.is_prerelease package_version
               then PreReleases.remove_package_tuple ch
                      (PreReleases.to_tuple package_version)
               else ch)
            pvs ch)
  <-> pt ∈ PreReleases.to_remove ch
      \/ exists pv, pv ∈ pvs /\ PreReleases.is_prerelease pv = true
                    /\ PreReleases.to_tuple pv = pt.
Proof.
  revert ch. induction pvs as [|pv pvs IH]; intros ch; simpl.
  - split; [auto|]. intros [?|(pv & Hin & _)]; [done|].
    by apply elem_of_nil in Hin.
  - rewrite IH. destruct (PreReleases.is_prerelease pv) eqn:Hpv.
    + cbn [PreReleases.remove_package_tuple PreReleases.to_remove].
      rewrite elem_of_app, list_elem_of_singleton. split.
      * intros [[?| ->]|(pv' & Hin & ? & ?)]; [by left|right..].
        -- exists pv. split_and!; [left|done..].
        -- exists pv'. split_and!; [by right|done..].
      * intros [?|(pv' & [->|Hin]%elem_of_cons & ? & ?)]; [by left; left|..].
        -- left; by right.
        -- right. by exists pv'.
    + split.
      * intros [?|(pv' & Hin & ? & ?)]; [by left|right].
        exists pv'. split_and!; [by right|done..].
      * intros [?|(pv' & [->|Hin]%elem_of_cons & ? & ?)]; [by left|..].
        -- congruence.
        -- right. by exists pv'.
Qed.

(** C10 (amended): once the dependency graph of the project is built,
    [compute] leaves the adviser with an empty heap and a visit counter
    of 0, and with the settings it had, however it is left: by returning
    the stacks or by raising.  When [DependencyGraph.from_project]
    raises, before the [try], the exception comes out of [compute] and
    the adviser is as it was.  So an adviser that enters [compute] with
    an empty heap and a counter of 0, as one built with the defaults
    does, leaves it as it entered on every exit, and a following call
    starts from the same state and leaves it again. *)
Theorem compute_resets_adviser
  {Reasoning Project : Type}
  (payload_lt : Reasoning * Project -> Reasoning * Project -> bool)
  (fill_package_digests : Project -> Project)
  (from_project from_project' :
     Project -> result (Advise.Walk Reasoning Project))
  (self : Advise.Adviser Reasoning Project) (project project' : Project) :
  let out :=
    Advise.compute_project payload_lt fill_package_digests from_project self
      project in
  (forall walk, from_project project = Ok walk ->
     Advise._computed_stacks_heap out.2 = []
     /\ Advise._visited out.2 = 0
     /\ Advise.recommendation_type out.2 = Advise.recommendation_type self
     /\ Advise.count out.2 = Advise.count self
     /\ Advise.limit out.2 = Advise.limit self)
  /\ (forall e, from_project project = Raise e -> out = (Raise e, self))
  /\ (Advise._computed_stacks_heap self = [] -> Advise._visited self = 0 ->
      out.2 = self
      /\ (Advise.compute_project payload_lt fill_package_digests
            from_project' out.2 project').2 = out.2).
Proof.
  assert (Hfin : forall s w,
            (Advise.compute payload_lt fill_package_digests s w).2
            = Advise.finally
                (Advise.walk_loop payload_lt s (Advise.yields w)
                   (Advise.ending w)).2).
  { intros s w. unfold Advise.compute. by destruct (Advise.walk_loop _ _ _ _). }
  assert (Hclean : forall s w,
            Advise._computed_stacks_heap s = [] -> Advise._visited s = 0 ->
            (Advise.compute payload_lt fill_package_digests s w).2 = s).
  { intros s w Hheap Hvisited. rewrite Hfin.
    destruct (walk_loop_fields payload_lt s (Advise.yields w)
                (Advise.ending w)) as (Hr & Hc & Hl).
    unfold Advise.finally. cbv zeta in *.
    rewrite Hr, Hc, Hl, <- Hheap, <- Hvisited. by destruct s. }
  assert (Hsame : forall fp s p,
            Advise._computed_stacks_heap s = [] -> Advise._visited s = 0 ->
            (Advise.compute_project payload_lt fill_package_digests fp s p).2
            = s).
  { intros fp s p Hheap Hvisited. unfold Advise.compute_project.
    destruct (fp p); [by apply Hclean|done]. }
  cbv zeta. split_and!.
  - intros walk Hwalk. unfold Advise.compute_project. rewrite Hwalk, Hfin.
    destruct (walk_loop_fields payload_lt self (Advise.yields walk)
                (Advise.ending walk)) as (Hr & Hc & Hl).
    by split_and!.
  - intros e He. unfold Advise.compute_project. by rewrite He.
  - intros Hheap Hvisited. rewrite (Hsame from_project) by done.
    split; [done|]. by apply Hsame.
Qed.

(** An adviser built with a stack on its heap and three visits counted
    keeps both when the graph of the project cannot be built; with the
    graph built the same adviser is reset. *)
Lemma compute_keeps_heap_when_graph_fails :
  let out :=
    Advise.compute_project Sample.payload_lt Sample.fill_package_digests
      Sample.no_graph Sample.used_adviser "project" in
  out.1 = Raise (Exception "graph database is down")
  /\ Advise._computed_stacks_heap out.2
     = [Advise.entry_of (Sample.stack 0.5%float "stack-c")]
  /\ Advise._computed_stacks_heap out.2 <> []
  /\ Advise._visited out.2 = 3
  /\ Advise._visited
       (Advise.compute_project Sample.payload_lt Sample.fill_package_digests
          Sample.graph_of Sample.used_adviser "project").2 = 0.
Proof. cbv zeta. split_and!; done. Qed.

(** When pre-releases are allowed the step leaves the context alone. *)
Lemma run_prereleases_allowed (self : PreReleases.CutPreReleases)
  (step_context : PreReleases.StepContext) :
  PreReleases.prereleases_allowed self = true ->
  (PreReleases.run self step_context).2 = step_context.
Proof. intros Ha. unfold PreReleases.run. by rewrite Ha. Qed.

(** C8: when the project does not allow pre-releases, [run] removes from
    the step context every package version whose semantic version has a
    pre-release part (or a build part): what is left of the context has
    no such package version and no package version with the package tuple
    of one, and it keeps every package version whose package tuple is not
    the tuple of one. *)
Theorem cut_prereleases_removes
  (self : PreReleases.CutPreReleases)
  (step_context : PreReleases.StepContext) :
  PreReleases.prereleases_allowed self = false ->
  let remaining :=
    PreReleases.iter_all_dependencies
      (PreReleases.run self step_context).2 in
  (forall pv,
     pv ∈ PreReleases.iter_all_dependencies step_context ->
     PreReleases.prerelease (PreReleases.semantic_version pv) <> [] ->
     (pv ∉ remaining)
     /\ (PreReleases.to_tuple pv ∉ map PreReleases.to_tuple remaining))
  /\ (forall pv,
        pv ∈ remaining ->
        pv ∈ PreReleases.iter_all_dependencies step_context
        /\ PreReleases.prerelease (PreReleases.semantic_version pv) = []
        /\ PreReleases.build (PreReleases.semantic_version pv) = [])
  /\ (forall pv,
        pv ∈ PreReleases.iter_all_dependencies step_context ->
        (forall pv',
           pv' ∈ PreReleases.iter_all_dependencies step_context ->
           PreReleases.to_tuple pv' = PreReleases.to_tuple pv ->
           PreReleases.is_prerelease pv' = false) ->
        pv ∈ remaining).
Proof.
  intros Hno. unfold PreReleases.run. rewrite Hno.
  cbn [snd PreReleases.iter_all_dependencies PreReleases.apply_change
         PreReleases.dependencies].
  set (ch := fold_left _ _ _).
  assert (Hch : forall pt,
            pt ∈ PreReleases.to_remove ch
            <-> exists pv, pv ∈ PreReleases.dependencies step_context
                           /\ PreReleases.is_prerelease pv = true
                           /\ PreReleases.to_tuple pv = pt).
  { intros pt. unfold ch. rewrite removals_spec. split; [|auto].
    intros [Hin|?]; [|done]. by apply elem_of_nil in Hin. }
  cbv zeta. split_and!.
  - intros pv Hin Hpre.
    assert (Hflag : PreReleases.is_prerelease pv = true).
    { unfold PreReleases.is_prerelease.
      destruct (PreReleases.prerelease _); [done|done]. }
    assert (Hrm : PreReleases.to_tuple pv ∈ PreReleases.to_remove ch)
      by (apply Hch; by exists pv).
    split.
    + intros [Hnot _]%list_elem_of_filter. done.
    + intros (pv' & Heq & [Hnot _]%list_elem_of_filter)%list_elem_of_fmap.
      apply Hnot. by rewrite <- Heq.
  - intros pv [Hnot Hin]%list_elem_of_filter. split; [done|].
    assert (Hflag : PreReleases.is_prerelease pv = false).
    { apply not_true_is_false. intros Hflag. apply Hnot, Hch. by exists pv. }
    unfold PreReleases.is_prerelease in Hflag.
    apply orb_false_iff in Hflag as [Hp Hb].
    destruct (PreReleases.prerelease _), (PreReleases.build _); done.
  - intros pv Hin Hclean. apply list_elem_of_filter. split; [|done].
    intros (pv' & Hin' & Hflag & Heq)%Hch.
    rewrite (Hclean pv' Hin' Heq) in Hflag. done.
Qed.

Lemma cut_prereleases_removes_witness :
  PreReleases.iter_all_dependencies
    (PreReleases.run Sample.cut_prereleases Sample.step_context).2
  = [Sample.foo_1; Sample.bar_2]
  /\ Sample.foo_rc1
     ∉ PreReleases.iter_all_dependencies
         (PreReleases.run Sample.cut_prereleases Sample.step_context).2.
Proof.
  split; [vm_compute; reflexivity|].
  apply (cut_prereleases_removes Sample.cut_prereleases Sample.step_context
           eq_refl).
  - vm_compute. right. left.
  - discriminate.
Defined.

(** ** [subprocess_run] *)

(** In the parent [subprocess_run] returns the value it calls
    [exit_code], the status [os.waitpid] gave it, and the call never
    returns anything else.  When that status is not zero the parent sets
    [error] to [True], [report] to [None] and [error_msg] to the OOM
    message for a status of 137, else to the CPU time message when the
    kill file of the liveness probe exists, else to the unknown-error
    message; it leaves the other keys of [result_dict] alone and hands
    the dictionary to [print_func].  When the status is zero it touches
    and prints nothing. *)
Lemma parent_reports_status
  {Report : Type} (w : Run.World Report)
  (result_dict : gmap string (Run.value Report)) :
  let out := Run.subprocess_run w result_dict in
  let exit_code := Run.waited_exit_code w in
  (forall code, out.1.1 = Run.Return code -> code = exit_code)
  /\ (Run.fork_pid w <> 0 ->
      out.1.1 = Run.Return exit_code
      /\ (exit_code = 0 -> out.1.2 = result_dict /\ out.2 = [])
      /\ (exit_code <> 0 ->
          out.1.2 !! "error" = Some (Run.VBool true)
          /\ out.1.2 !! "report" = Some Run.VNone
          /\ out.1.2 !! "error_msg"
             = Some (Run.VStr
                       (if decide (exit_code = 137) then Run.OOM_MSG
                        else if Run.isfile w Run._LIVENESS_PROBE_KILL_FILE
                             then Run.CPU_MSG
                             else Run.UNKNOWN_MSG))
          /\ (forall k, k <> "error" -> k <> "error_msg" -> k <> "report" ->
              out.1.2 !! k = result_dict !! k)
          /\ out.2 = [out.1.2])).
Proof.
  cbv zeta. unfold Run.subprocess_run. split.
  - intros code. destruct (Run.fork_pid w =? 0).
    + by destruct (Run.asa w).
    + destruct (negb _); by intros [= <-].
  - intros Hpid. apply Z.eqb_neq in Hpid. rewrite Hpid.
    destruct (Z.eqb_spec (Run.waited_exit_code w) 0) as [Hz|Hnz];
      cbn [negb fst snd].
    + split_and!; [done..|]. intros Hne. by rewrite Hz in Hne.
    + split_and!; [done|done|]. intros _. unfold Run.update. split_and!.
      * by rewrite lookup_insert_ne, lookup_insert_ne, lookup_insert_eq.
      * by rewrite lookup_insert_eq.
      * rewrite lookup_insert_ne, lookup_insert_eq by done.
        destruct (Z.eqb_spec (Run.waited_exit_code w) 137);
          [by rewrite decide_True|by rewrite decide_False].
      * intros k ? ? ?. by rewrite !lookup_insert_ne.
      * done.
Qed.

Lemma parent_reports_status_sample :
  (Run.subprocess_run (Sample.killed 137 false) ∅).1.1 = Run.Return 137
  /\ (Run.subprocess_run (Sample.killed 137 false) ∅).1.2 !! "error_msg"
     = Some (Run.VStr Run.OOM_MSG)
  /\ (Run.subprocess_run (Sample.killed 9 true) ∅).1.2 !! "error_msg"
     = Some (Run.VStr Run.CPU_MSG)
  /\ (Run.subprocess_run (Sample.killed 1 false) ∅).1.2 !! "error_msg"
     = Some (Run.VStr Run.UNKNOWN_MSG).
Proof.
  assert (Hpid : forall c t, Run.fork_pid (Sample.killed c t) <> 0) by done.
  split_and!.
  - apply (parent_reports_status (Sample.killed 137 false) ∅), Hpid.
  - destruct (parent_reports_status (Sample.killed 137 false) ∅)
      as [_ Hparent].
    destruct (Hparent (Hpid _ _)) as (_ & _ & Hfail).
    by destruct Hfail as (_ & _ & -> & _).
  - destruct (parent_reports_status (Sample.killed 9 true) ∅)
      as [_ Hparent].
    destruct (Hparent (Hpid _ _)) as (_ & _ & Hfail).
    by destruct Hfail as (_ & _ & -> & _).
  - destruct (parent_reports_status (Sample.killed 1 false) ∅)
      as [_ Hparent].
    destruct (Hparent (Hpid _ _)) as (_ & _ & Hfail).
    by destruct Hfail as (_ & _ & -> & _).
Defined.

(** C9: the parent does not return the exit code of its child, and does
    not report a child that exits with 137, or that the OOM killer
    ended with signal 9, as out of memory.  What it compares and
    returns is the status of [os.waitpid]: for a child that exits with a
    code from 1 to 255 it returns 256 times the code, for a child killed
    by signal 9 it returns 9, and in both cases [error_msg] is the CPU
    time message when the kill file exists and the unknown-error
    message otherwise. *)
Theorem parent_misreads_exit_code
  {Report : Type} (w : Run.World Report)
  (result_dict : gmap string (Run.value Report)) :
  Run.fork_pid w <> 0 ->
  let out := Run.subprocess_run w result_dict in
  let other_msg :=
    if Run.isfile w Run._LIVENESS_PROBE_KILL_FILE
    then Run.CPU_MSG else Run.UNKNOWN_MSG in
  (forall exit_code,
     0 < exit_code < 256 ->
     Run.waited_exit_code w = Run.exit_status exit_code ->
     out.1.1 = Run.Return (256 * exit_code)
     /\ out.1.1 <> Run.Return exit_code
     /\ out.1.2 !! "error_msg" = Some (Run.VStr other_msg)
     /\ out.1.2 !! "error_msg" <> Some (Run.VStr Run.OOM_MSG))
  /\ (Run.waited_exit_code w = Run.kill_status 9 ->
      out.1.1 = Run.Return 9
      /\ out.1.2 !! "error_msg" = Some (Run.VStr other_msg)
      /\ out.1.2 !! "error_msg" <> Some (Run.VStr Run.OOM_MSG)).
Proof.
  intros Hpid. cbv zeta. unfold Run.subprocess_run.
  rewrite (proj2 (Z.eqb_neq _ _) Hpid).
  assert (Hmsg : forall b : bool,
            Some (Run.VStr (Report := Report)
                    (if b then Run.CPU_MSG else Run.UNKNOWN_MSG))
            <> Some (Run.VStr Run.OOM_MSG)) by (by intros []).
  split.
  - intros exit_code Hcode ->. unfold Run.exit_status.
    rewrite Z.shiftl_mul_pow2 by lia. change (2 ^ 8) with 256.
    rewrite (proj2 (Z.eqb_neq (exit_code * 256) 0)) by lia.
    rewrite (proj2 (Z.eqb_neq (exit_code * 256) 137)) by lia.
    cbn [negb fst snd]. unfold Run.update.
    rewrite lookup_insert_ne, lookup_insert_eq by done.
    split_and!; [f_equal; lia|intros [= ?]; lia|done|apply Hmsg].
  - intros ->. unfold Run.kill_status. cbn [Z.eqb Pos.eqb negb fst snd].
    unfold Run.update.
    rewrite lookup_insert_ne, lookup_insert_eq by done.
    split_and!; [done|done|apply Hmsg].
Qed.

Lemma parent_misreads_exit_code_witness :
  (Run.subprocess_run (Sample.killed (Run.exit_status 137) false) ∅).1.1
  = Run.Return 35072
  /\ (Run.subprocess_run (Sample.killed (Run.exit_status 137) false) ∅).1.2
       !! "error_msg"
     = Some (Run.VStr Run.UNKNOWN_MSG).
Proof.
  destruct (parent_misreads_exit_code
              (Sample.killed (Run.exit_status 137) false) ∅)
    as [Hexit _]; [done|].
  destruct (Hexit 137) as (Hret & _ & Hmsg & _); [lia|done|].
  split; [exact Hret|exact Hmsg].
Defined.

(** ** More on [heapq]: the heap order *)

Section HeapIndex.
Local Open Scope nat_scope.

Lemma parent_lt (i : nat) : 0 < i -> (i - 1) / 2 < i.
Proof.
  intros Hi. pose proof (Nat.div_mod_eq (i - 1) 2).
  pose proof (Nat.mod_upper_bound (i - 1) 2). lia.
Qed.

Lemma parent_eq (i p : nat) :
  0 < i -> (i - 1) / 2 = p <-> i = 2 * p + 1 \/ i = 2 * p + 2.
Proof.
  intros Hi. pose proof (Nat.div_mod_eq (i - 1) 2).
  pose proof (Nat.mod_upper_bound (i - 1) 2). split.
  - intros <-. lia.
  - intros [->| ->].
    + replace (2 * p + 1 - 1) with (p * 2) by lia. apply Nat.div_mul. lia.
    + replace (2 * p + 2 - 1) with (1 + p * 2) by lia.
      rewrite Nat.div_add by lia. done.
Qed.

End HeapIndex.

Section HeapInvariant.
Local Open Scope nat_scope.
Context {A : Type} (lt : A -> A -> bool) (P : A -> Prop).
Hypothesis lt_asym :
  forall a b, P a -> P b -> lt a b = true -> lt b a = false.
Hypothesis lt_negtrans :
  forall a b c, P a -> P b -> P c ->
    lt a b = false -> lt b c = false -> lt a c = false.
Implicit Types (heap : list A) (x : A).

Lemma lt_irrefl x : P x -> lt x x = false.
Proof.
  intros Hx. destruct (lt x x) eqn:E; [|done].
  by rewrite (lt_asym x x) in E.
Qed.

Lemma lookup_swapped heap x (pos pp : nat) (parent : A) (j : nat) :
  pos < length heap -> pp <> pos -> heap !! pp = Some parent ->
  <[pp := x]> (<[pos := parent]> heap) !! j
  = if decide (j = pp) then Some x
    else if decide (j = pos) then Some parent
    else <[pos := x]> heap !! j.
Proof.
  intros Hlen Hne Hpp. pose proof (lookup_lt_Some _ _ _ Hpp).
  destruct (decide (j = pp)) as [->|Hj].
  { rewrite list_lookup_insert_eq; [done|]. by rewrite length_insert. }
  rewrite list_lookup_insert_ne by done.
  destruct (decide (j = pos)) as [->|Hj'].
  { by rewrite list_lookup_insert_eq. }
  by rewrite !list_lookup_insert_ne.
Qed.

Lemma siftdown_loop_is_heap (rounds : nat) heap x (pos : nat) :
  pos <= rounds -> pos < length heap -> Forall P heap -> P x ->
  (forall i a b, 0 < i -> i <> pos ->
     <[pos := x]> heap !! i = Some a ->
     <[pos := x]> heap !! ((i - 1) / 2) = Some b -> lt a b = false) ->
  (0 < pos -> forall i a b, 0 < i -> (i - 1) / 2 = pos ->
     <[pos := x]> heap !! i = Some a ->
     <[pos := x]> heap !! ((pos - 1) / 2) = Some b -> lt a b = false) ->
  is_heap lt (siftdown_loop lt rounds heap x 0 pos).
Proof.
  revert heap pos.
  induction rounds as [|rounds IH]; intros heap pos Hr Hlen HP Hx Ha Hb.
  { assert (pos = 0) as -> by lia. cbn [siftdown_loop].
    intros i a b Hi. apply Ha; lia. }
  rewrite siftdown_loop_S.
  destruct (decide (0 < pos)) as [Hpos|Hpos].
  2: { intros i a b Hi. apply Ha; lia. }
  pose proof (parent_lt pos Hpos) as Hpp.
  destruct (heap !! ((pos - 1) / 2)) as [parent|] eqn:Hparent.
  2: { apply lookup_ge_None in Hparent. lia. }
  assert (HPp : P parent) by (eapply Forall_lookup_1; done).
  assert (HPH : forall j v, <[pos := x]> heap !! j = Some v -> P v).
  { intros j v Hv. eapply Forall_lookup_1; [|done]. by apply Forall_insert. }
  assert (HHpp : <[pos := x]> heap !! ((pos - 1) / 2) = Some parent).
  { rewrite list_lookup_insert_ne by lia. done. }
  assert (HHpos : <[pos := x]> heap !! pos = Some x).
  { by rewrite list_lookup_insert_eq. }
  destruct (lt x parent) eqn:Hxp.
  - assert (Hpx : lt parent x = false) by by apply lt_asym.
    apply IH.
    + lia.
    + rewrite length_insert. lia.
    + by apply Forall_insert.
    + done.
    + intros i a b Hi Hne.
      rewrite !(lookup_swapped heap x pos ((pos - 1) / 2) parent)
        by (done || lia).
      rewrite (decide_False (P:=i = _)) by done.
      destruct (decide (i = pos)) as [->|Hipos].
      * rewrite decide_True by done. by intros [= <-] [= <-].
      * intros Hia. destruct (decide ((i - 1) / 2 = (pos - 1) / 2)) as [Heq|Hneq].
        -- intros [= <-]. apply (lt_negtrans a parent x); eauto.
           apply (Ha i a parent); [done..|]. by rewrite Heq.
        -- destruct (decide ((i - 1) / 2 = pos)) as [Hch|Hnch].
           ++ intros [= <-]. by apply (Hb Hpos i a parent).
           ++ intros Hib. by apply (Ha i a b).
    + intros Hpp0 i a b Hi Hpi.
      rewrite !(lookup_swapped heap x pos ((pos - 1) / 2) parent)
        by (done || lia).
      pose proof (parent_lt i Hi). pose proof (parent_lt _ Hpp0).
      rewrite (decide_False (P:=i = _)) by lia.
      rewrite (decide_False (P:=(_ - 1) / 2 = (pos - 1) / 2)) by lia.
      rewrite (decide_False (P:=(_ - 1) / 2 = pos)) by lia.
      intros Hia Hib.
      assert (Hpb : lt parent b = false).
      { apply (Ha ((pos - 1) / 2) parent b); [done|lia|done..]. }
      destruct (decide (i = pos)) as [->|Hipos].
      * by injection Hia as <-.
      * apply (lt_negtrans a parent b); eauto.
        apply (Ha i a parent); [done..|]. by rewrite Hpi.
  - intros i a b Hi Hia Hib. destruct (decide (i = pos)) as [->|Hipos].
    + rewrite HHpos in Hia. rewrite HHpp in Hib. by simplify_eq.
    + by apply (Ha i a b).
Qed.

Lemma siftdown_is_heap heap (pos : nat) :
  Forall P heap ->
  (forall i a b, 0 < i -> i <> pos ->
     heap !! i = Some a -> heap !! ((i - 1) / 2) = Some b -> lt a b = false) ->
  (0 < pos -> forall i a b, 0 < i -> (i - 1) / 2 = pos ->
     heap !! i = Some a -> heap !! ((pos - 1) / 2) = Some b ->
     lt a b = false) ->
  is_heap lt (_siftdown lt heap 0 pos).
Proof.
  intros HP Ha Hb. unfold _siftdown.
  destruct (heap !! pos) as [x|] eqn:Hx.
  - pose proof (lookup_lt_Some _ _ _ Hx).
    apply siftdown_loop_is_heap; try done.
    + by eapply Forall_lookup_1.
    + by rewrite list_insert_id.
    + by rewrite list_insert_id.
  - apply lookup_ge_None in Hx. intros i a b Hi Hia Hib.
    apply (Ha i a b); try done. apply lookup_lt_Some in Hia. lia.
Qed.

Lemma heappush_is_heap heap x :
  Forall P heap -> P x -> is_heap lt heap -> is_heap lt (heappush lt heap x).
Proof.
  intros HP Hx Hheap. unfold heappush. rewrite length_app. cbn [length].
  replace (length heap + 1 - 1) with (length heap) by lia.
  apply siftdown_is_heap.
  - apply Forall_app. split; [done|]. by constructor.
  - intros i a b Hi Hne Hia Hib.
    assert (i < length heap).
    { apply lookup_lt_Some in Hia. rewrite length_app in Hia.
      cbn in Hia. lia. }
    pose proof (parent_lt i Hi).
    rewrite lookup_app_l in Hia, Hib by lia. by apply (Hheap i a b).
  - intros _ i a b Hi Hpi Hia. apply lookup_lt_Some in Hia.
    rewrite length_app in Hia. cbn in Hia. pose proof (parent_lt i Hi). lia.
Qed.

(** The first loop of [_siftup] started at the root: every entry whose
    parent is not the hole is not below its parent, and the children of the
    hole are not below the parent of the hole. *)
Lemma siftup_loop_inv (rounds : nat) heap (pos : nat) :
  Forall P heap -> length heap <= rounds + pos ->
  (forall i a b, 0 < i -> (i - 1) / 2 <> pos ->
     heap !! i = Some a -> heap !! ((i - 1) / 2) = Some b -> lt a b = false) ->
  (0 < pos -> forall i a b, 0 < i -> (i - 1) / 2 = pos ->
     heap !! i = Some a -> heap !! ((pos - 1) / 2) = Some b ->
     lt a b = false) ->
  let heap' := (siftup_loop lt rounds heap pos).1 in
  let pos' := (siftup_loop lt rounds heap pos).2 in
  Forall P heap'
  /\ length heap' = length heap
  /\ pos <= pos'
  /\ (pos < length heap -> pos' < length heap)
  /\ length heap <= 2 * pos' + 1
  /\ (forall i a b, 0 < i -> (i - 1) / 2 <> pos' ->
        heap' !! i = Some a -> heap' !! ((i - 1) / 2) = Some b ->
        lt a b = false).
Proof.
  revert heap pos.
  induction rounds as [|rounds IH]; intros heap pos HP Hlen Ha Hb.
  { cbn. split_and!; try done; lia. }
  rewrite siftup_loop_S.
  destruct (heap !! (2 * pos + 1)) as [child|] eqn:Hchild.
  2: { apply lookup_ge_None in Hchild. cbn. split_and!; try done; lia. }
  pose proof (lookup_lt_Some _ _ _ Hchild) as Hclen.
  assert (HPc : P child) by by eapply Forall_lookup_1.
  (* the smaller child [c] at [cp], the other child not below it *)
  assert (exists cp c,
            match heap !! (2 * pos + 1 + 1) with
            | Some rchild =>
                if negb (lt child rchild)
                then (2 * pos + 1 + 1, rchild) else (2 * pos + 1, child)
            | None => (2 * pos + 1, child)
            end = (cp, c)
            /\ heap !! cp = Some c
            /\ (cp = 2 * pos + 1 \/ cp = 2 * pos + 2)
            /\ forall i a, 0 < i -> (i - 1) / 2 = pos ->
                 heap !! i = Some a -> lt a c = false)
    as (cp & c & -> & Hc & Hcp & Hmin).
  { destruct (heap !! (2 * pos + 1 + 1)) as [rchild|] eqn:Hr.
    - assert (HPr : P rchild) by by eapply Forall_lookup_1.
      destruct (lt child rchild) eqn:Hlt; cbn [negb].
      + exists (2 * pos + 1), child. split_and!; [done|done|lia|].
        intros i a Hi Hpi Hia.
        apply (proj1 (parent_eq i pos Hi)) in Hpi as [->| ->].
        * rewrite Hchild in Hia. simplify_eq. by apply lt_irrefl.
        * replace (2 * pos + 2) with (2 * pos + 1 + 1) in Hia by lia.
          rewrite Hr in Hia. simplify_eq. by apply lt_asym.
      + exists (2 * pos + 1 + 1), rchild. split_and!; [done|done|lia|].
        intros i a Hi Hpi Hia.
        apply (proj1 (parent_eq i pos Hi)) in Hpi as [->| ->].
        * rewrite Hchild in Hia. by simplify_eq.
        * replace (2 * pos + 2) with (2 * pos + 1 + 1) in Hia by lia.
          rewrite Hr in Hia. simplify_eq. by apply lt_irrefl.
    - exists (2 * pos + 1), child. split_and!; [done|done|lia|].
      intros i a Hi Hpi Hia.
      apply (proj1 (parent_eq i pos Hi)) in Hpi as [->| ->].
      + rewrite Hchild in Hia. simplify_eq. by apply lt_irrefl.
      + replace (2 * pos + 2) with (2 * pos + 1 + 1) in Hia by lia.
        by rewrite Hr in Hia. }
  assert (HPcc : P c) by by eapply Forall_lookup_1.
  pose proof (lookup_lt_Some _ _ _ Hc) as Hcplen.
  assert (Hcpp : (cp - 1) / 2 = pos) by (apply parent_eq; lia).
  destruct (IH (<[pos := c]> heap) cp) as (HP' & Hlen' & Hle & Hlt' & Hleaf & Ha').
  - by apply Forall_insert.
  - rewrite length_insert. lia.
  - intros i a b Hi Hne Hia Hib.
    destruct (decide (i = pos)) as [->|Hipos].
    + rewrite list_lookup_insert_eq in Hia by lia. injection Hia as <-.
      pose proof (parent_lt pos Hi).
      rewrite list_lookup_insert_ne in Hib by lia.
      apply (Hb Hi cp c b); [lia|done..].
    + rewrite list_lookup_insert_ne in Hia by done.
      destruct (decide ((i - 1) / 2 = pos)) as [Hpi|Hpi].
      * rewrite Hpi, list_lookup_insert_eq in Hib by lia. injection Hib as <-.
        by apply (Hmin i a).
      * rewrite list_lookup_insert_ne in Hib by done. by apply (Ha i a b).
  - intros Hcp0 i a b Hi Hpi Hia Hib. pose proof (parent_lt i Hi).
    rewrite list_lookup_insert_ne in Hia by lia.
    rewrite Hcpp, list_lookup_insert_eq in Hib by lia. injection Hib as <-.
    apply (Ha i a c); [done|lia|done|]. by rewrite Hpi.
  - cbv zeta. rewrite length_insert in *. split_and!; try done; lia.
Qed.

Lemma siftup_root_is_heap heap (item : A) :
  Forall P heap -> P item -> is_heap lt heap ->
  is_heap lt (_siftup lt (<[0 := item]> heap) 0).
Proof.
  intros HP Hitem Hheap. unfold _siftup.
  destruct (<[0 := item]> heap !! 0) as [newitem|] eqn:Hnew.
  2: { apply lookup_ge_None in Hnew. rewrite length_insert in Hnew.
       destruct heap; [|cbn in Hnew; lia].
       intros i a b _ Hia. done. }
  pose proof (lookup_lt_Some _ _ _ Hnew) as Hlen0.
  rewrite list_lookup_insert_eq in Hnew
    by (by rewrite length_insert in Hlen0).
  injection Hnew as <-.
  destruct (siftup_loop_inv (length (<[0 := item]> heap))
              (<[0 := item]> heap) 0)
    as (HP' & Hlen' & _ & Hlt' & Hleaf & Ha').
  - by apply Forall_insert.
  - lia.
  - intros i a b Hi Hne. pose proof (parent_lt i Hi).
    rewrite !list_lookup_insert_ne by lia. by apply Hheap.
  - lia.
  - destruct (siftup_loop lt (length (<[0 := item]> heap))
                (<[0 := item]> heap) 0) as [heap' pos'].
    cbn [fst snd] in *. specialize (Hlt' Hlen0).
    apply siftdown_is_heap.
    + by apply Forall_insert.
    + intros i a b Hi Hne Hia Hib.
      pose proof (lookup_lt_Some _ _ _ Hia) as Hilen.
      rewrite length_insert in Hilen.
      assert ((i - 1) / 2 <> pos').
      { intros [->| ->]%parent_eq; [lia|lia|done]. }
      rewrite list_lookup_insert_ne in Hia, Hib by done.
      by apply (Ha' i a b).
    + intros _ i a b Hi [->| ->]%parent_eq Hia; [| |done];
        apply lookup_lt_Some in Hia; rewrite length_insert in Hia; lia.
Qed.

Lemma heappushpop_is_heap heap x :
  Forall P heap -> P x -> is_heap lt heap ->
  is_heap lt (heappushpop lt heap x).1.
Proof.
  intros HP Hx Hheap. unfold heappushpop.
  destruct heap as [|top heap']; [done|].
  destruct (lt top x); [|done]. cbn [fst].
  by apply siftup_root_is_heap.
Qed.

(** The root of a heap is not above any entry. *)
Lemma is_heap_root heap (top : A) :
  Forall P heap -> is_heap lt heap -> heap !! 0 = Some top ->
  forall i a, heap !! i = Some a -> lt a top = false.
Proof.
  intros HP Hheap Htop i.
  induction (lt_wf i) as [i _ IH]. intros a Hia.
  destruct (decide (i = 0)) as [->|Hi].
  { rewrite Htop in Hia. injection Hia as <-.
    apply lt_irrefl. by eapply Forall_lookup_1. }
  pose proof (parent_lt i ltac:(lia)) as Hp.
  destruct (heap !! ((i - 1) / 2)) as [b|] eqn:Hb.
  2: { apply lookup_ge_None in Hb. apply lookup_lt_Some in Hia. lia. }
  apply (lt_negtrans a b top); try by eapply Forall_lookup_1.
  - apply (Hheap i a b); [lia|done..].
  - by apply (IH _ Hp).
Qed.
End HeapInvariant.

Section HeapPermutation.
Local Open Scope nat_scope.
Context {A : Type} (lt : A -> A -> bool).
Implicit Types (heap : list A) (x : A).

Lemma siftdown_loop_perm (rounds : nat) heap x (startpos pos : nat) :
  pos < length heap ->
  siftdown_loop lt rounds heap x startpos pos ≡ₚ <[pos := x]> heap.
Proof.
  revert heap pos. induction rounds as [|rounds IH]; intros heap pos Hlen.
  { reflexivity. }
  rewrite siftdown_loop_S. case_decide as Hpos; [|reflexivity].
  destruct (heap !! ((pos - 1) / 2)) as [parent|] eqn:Hparent;
    [|reflexivity].
  destruct (lt x parent); [|reflexivity].
  pose proof (parent_lt pos ltac:(lia)) as Hpp.
  rewrite IH by (rewrite length_insert; lia).
  rewrite <- (list_insert_insert_eq heap pos parent x).
  apply Permutation_insert_swap.
  - by rewrite list_lookup_insert_eq.
  - rewrite list_lookup_insert_ne by lia. done.
Qed.

Lemma siftdown_perm heap (startpos pos : nat) :
  _siftdown lt heap startpos pos ≡ₚ heap.
Proof.
  unfold _siftdown. destruct (heap !! pos) as [x|] eqn:Hx; [|reflexivity].
  rewrite siftdown_loop_perm by by eapply lookup_lt_Some.
  by rewrite list_insert_id.
Qed.

Lemma siftup_loop_perm (rounds : nat) heap (pos : nat) (v : A) :
  pos < length heap ->
  <[(siftup_loop lt rounds heap pos).2 := v]>
    (siftup_loop lt rounds heap pos).1
  ≡ₚ <[pos := v]> heap.
Proof.
  revert heap pos. induction rounds as [|rounds IH]; intros heap pos Hlen.
  { reflexivity. }
  rewrite siftup_loop_S.
  destruct (heap !! (2 * pos + 1)) as [child|] eqn:Hchild; [|reflexivity].
  assert (exists cp c,
            match heap !! (2 * pos + 1 + 1) with
            | Some rchild =>
                if negb (lt child rchild)
                then (2 * pos + 1 + 1, rchild) else (2 * pos + 1, child)
            | None => (2 * pos + 1, child)
            end = (cp, c)
            /\ heap !! cp = Some c /\ pos < cp)
    as (cp & c & -> & Hc & Hcp).
  { destruct (heap !! (2 * pos + 1 + 1)) as [rchild|] eqn:Hr.
    - destruct (negb _).
      + exists (2 * pos + 1 + 1), rchild. split_and!; [done|done|lia].
      + exists (2 * pos + 1), child. split_and!; [done|done|lia].
    - exists (2 * pos + 1), child. split_and!; [done|done|lia]. }
  pose proof (lookup_lt_Some _ _ _ Hc).
  rewrite IH by (by rewrite length_insert).
  rewrite <- (list_insert_insert_eq heap pos c v).
  apply Permutation_insert_swap.
  - by rewrite list_lookup_insert_eq.
  - rewrite list_lookup_insert_ne by lia. done.
Qed.

Lemma siftup_perm heap (pos : nat) : _siftup lt heap pos ≡ₚ heap.
Proof.
  unfold _siftup. destruct (heap !! pos) as [x|] eqn:Hx; [|reflexivity].
  pose proof (siftup_loop_perm (length heap) heap pos x
                ltac:(by eapply lookup_lt_Some)) as Hperm.
  destruct (siftup_loop lt (length heap) heap pos) as [heap' pos'].
  rewrite siftdown_perm. cbn [fst snd] in Hperm.
  by rewrite Hperm, list_insert_id.
Qed.

Lemma heappush_perm heap x : heappush lt heap x ≡ₚ x :: heap.
Proof.
  unfold heappush. rewrite siftdown_perm. by rewrite Permutation_app_comm.
Qed.

(** What [heappushpop] returns and what it keeps are the item and the
    heap it was given. *)
Lemma heappushpop_perm heap x :
  (heappushpop lt heap x).2 :: (heappushpop lt heap x).1 ≡ₚ x :: heap.
Proof.
  unfold heappushpop. destruct heap as [|top heap]; [reflexivity|].
  destruct (lt top x); [|reflexivity]. cbn [fst snd].
  rewrite siftup_perm. cbn. apply Permutation_swap.
Qed.
End HeapPermutation.

Section HeapOrder.
Local Open Scope nat_scope.
Context {A : Type} (lt : A -> A -> bool) (P : A -> Prop).
Hypothesis lt_asym :
  forall a b, P a -> P b -> lt a b = true -> lt b a = false.
Hypothesis lt_negtrans :
  forall a b c, P a -> P b -> P c ->
    lt a b = false -> lt b c = false -> lt a c = false.

(** What [heappushpop] returns is not above anything it keeps, and
    neither is anything that was not above the heap before. *)
Lemma heappushpop_order (heap : list A) (x : A) (dropped : list A) :
  Forall P heap -> P x -> Forall P dropped -> is_heap lt heap ->
  (forall d h, d ∈ dropped -> h ∈ heap -> lt h d = false) ->
  forall d h,
    d ∈ (heappushpop lt heap x).2 :: dropped ->
    h ∈ (heappushpop lt heap x).1 -> lt h d = false.
Proof.
  intros HP Hx HPd Hheap Hord. unfold heappushpop.
  destruct heap as [|top tl] eqn:Hh.
  { intros d h _ Hin. by apply elem_of_nil in Hin. }
  rewrite <- Hh in *.
  assert (Htop : heap !! 0%nat = Some top) by by rewrite Hh.
  assert (HPtop : P top) by exact (Forall_lookup_1 _ _ _ _ HP Htop).
  assert (Hroot : forall h, h ∈ heap -> lt h top = false).
  { intros h [i Hi]%list_elem_of_lookup.
    exact (is_heap_root lt P lt_asym lt_negtrans heap top HP Hheap Htop
             i h Hi). }
  destruct (lt top x) eqn:Hlt; cbn [fst snd] in *.
  - assert (Hxt : lt x top = false) by by apply lt_asym.
    intros d h Hd Hin. rewrite siftup_perm in Hin.
    assert (h = x \/ h ∈ heap) as [->|Hin'].
    { rewrite Hh in Hin |- *. cbn in Hin.
      apply elem_of_cons in Hin as [->|?]; [by left|right; by right]. }
    + apply elem_of_cons in Hd as [->|Hd]; [done|].
      apply (lt_negtrans x top d); try done.
      * rewrite Forall_forall in HPd. by apply HPd.
      * apply Hord; [done|]. rewrite Hh. left.
    + apply elem_of_cons in Hd as [->|Hd]; [by apply Hroot|].
      by apply Hord.
  - intros d h Hd Hin.
    apply elem_of_cons in Hd as [->|Hd]; [|by apply Hord].
    apply (lt_negtrans h top x); try done.
    + rewrite Forall_forall in HP. by apply HP.
    + by apply Hroot.
Qed.
End HeapOrder.

Section KeepsBest.
Context {Reasoning Project : Type}.
Context (payload_lt : Reasoning * Project -> Reasoning * Project -> bool).
Hypothesis payload_lt_asym :
  forall a b, payload_lt a b = true -> payload_lt b a = false.
Hypothesis payload_lt_negtrans :
  forall a b c,
    payload_lt a b = false -> payload_lt b c = false -> payload_lt a c = false.
Implicit Types (a b c : Advise.item Reasoning Project).

Lemma item_lt_rank a b :
  Advise.scored a -> Advise.scored b ->
  Advise.item_lt payload_lt a b = true
  <-> lex3 (float_rank a.1) (float_rank b.1)
      \/ (float_rank a.1 = float_rank b.1 /\ payload_lt a.2 b.2 = true).
Proof.
  intros Ha Hb. unfold Advise.item_lt.
  pose proof (float_eqb_rank _ _ Ha Hb) as Heq.
  pose proof (float_ltb_rank _ _ Ha Hb) as Hlt.
  destruct (PrimFloat.eqb a.1 b.1).
  - assert (float_rank a.1 = float_rank b.1) as Hr by by apply Heq.
    rewrite Hr. unfold lex3. split; [auto|]. intros [?|[_ ?]]; [lia|done].
  - rewrite Hlt. split; [auto|]. intros [?|[Hr _]]; [done|].
    apply Heq in Hr. done.
Qed.

Lemma item_lt_asym a b :
  Advise.scored a -> Advise.scored b ->
  Advise.item_lt payload_lt a b = true -> Advise.item_lt payload_lt b a = false.
Proof.
  intros Ha Hb Hab. apply not_true_is_false. intros Hba.
  apply item_lt_rank in Hab, Hba; try done.
  destruct Hab as [Hab|[Hab Hp]], Hba as [Hba|[Hba Hq]].
  - unfold lex3 in *. lia.
  - rewrite Hba in Hab. unfold lex3 in *. lia.
  - rewrite Hab in Hba. unfold lex3 in *. lia.
  - apply payload_lt_asym in Hp. congruence.
Qed.

Lemma item_lt_negtrans a b c :
  Advise.scored a -> Advise.scored b -> Advise.scored c ->
  Advise.item_lt payload_lt a b = false ->
  Advise.item_lt payload_lt b c = false ->
  Advise.item_lt payload_lt a c = false.
Proof.
  intros Ha Hb Hc Hab Hbc. apply not_true_is_false. intros Hac.
  apply not_true_iff_false in Hab, Hbc.
  rewrite item_lt_rank in Hab, Hbc, Hac by done.
  destruct (payload_lt a.2 b.2) eqn:Hpab, (payload_lt b.2 c.2) eqn:Hpbc.
  all: try (pose proof (payload_lt_negtrans _ _ _ Hpab Hpbc) as Hpac).
  all: revert Hab Hbc Hac; unfold lex3;
    destruct (float_rank a.1) as [[a1 a2] a3];
    destruct (float_rank b.1) as [[b1 b2] b3];
    destruct (float_rank c.1) as [[c1 c2] c3];
    cbn [fst snd]; rewrite !pair_equal_spec; intros Hab Hbc Hac.
  - lia.
  - lia.
  - lia.
  - rewrite Hpac in Hac. destruct Hac as [?|[_ ?]]; [lia|done].
Qed.

Lemma item_lt_score a b :
  Advise.scored a -> Advise.scored b ->
  Advise.item_lt payload_lt a b = false -> PrimFloat.ltb a.1 b.1 = false.
Proof.
  intros Ha Hb. unfold Advise.item_lt.
  destruct (PrimFloat.eqb a.1 b.1) eqn:Heq; [|done]. intros _.
  apply not_true_is_false. intros Hlt.
  apply float_eqb_rank in Heq; [|done..].
  apply float_ltb_rank in Hlt; [|done..].
  rewrite Heq in Hlt. unfold lex3 in Hlt. lia.
Qed.

Implicit Types (self : Advise.Adviser Reasoning Project).
Implicit Types (y : float * Reasoning * Project).
Implicit Types (ys : list (float * Reasoning * Project)).

Local Abbreviation ilt := (Advise.item_lt payload_lt).

(** One visit with [count] set: the heap stays a heap, the entries on it
    and the entries dropped so far are those there were and the new one,
    and no dropped entry is above an entry on the heap. *)
Lemma visit_keeps_best self y (c : Z)
  (dropped : list (Advise.item Reasoning Project)) :
  Advise.count self = Some c ->
  let heap := Advise._computed_stacks_heap self in
  let heap' :=
    Advise._computed_stacks_heap (Advise.visit payload_lt self y) in
  is_heap ilt heap -> Forall Advise.scored heap -> Forall Advise.scored dropped ->
  Advise.scored (Advise.entry_of y) ->
  (dropped = [] \/ c <= Z.of_nat (length heap)) ->
  (forall d h, d ∈ dropped -> h ∈ heap -> ilt h d = false) ->
  exists dropped',
    Advise.entry_of y :: heap ++ dropped ≡ₚ heap' ++ dropped'
    /\ is_heap ilt heap' /\ Forall Advise.scored heap' /\ Forall Advise.scored dropped'
    /\ (dropped' = [] \/ c <= Z.of_nat (length heap'))
    /\ (forall d h, d ∈ dropped' -> h ∈ heap' -> ilt h d = false).
Proof.
  destruct y as [[score reasoning] project].
  intros Hc heap heap' Hheap HP HPd Hx Hfull Hord.
  set (x := Advise.entry_of (score, reasoning, project)) in *.
  assert (Heq : heap'
                = if c <=? Z.of_nat (length heap)
                  then (heappushpop ilt heap x).1 else heappush ilt heap x).
  { subst heap' heap. cbn. by rewrite Hc. }
  assert (Hasym := item_lt_asym). assert (Hneg := item_lt_negtrans).
  destruct (Z.leb_spec c (Z.of_nat (length heap))) as [Hle|Hgt];
    cbv iota in Heq.
  - exists ((heappushpop ilt heap x).2 :: dropped).
    assert (Hperm := heappushpop_perm ilt heap x).
    assert (Hh' : is_heap ilt heap')
      by (rewrite Heq; by apply (heappushpop_is_heap ilt Advise.scored)).
    assert (HP' : Forall Advise.scored ((heappushpop ilt heap x).2 :: heap')).
    { rewrite Heq, Hperm. by constructor. }
    apply Forall_cons in HP' as [HPr HP'].
    split_and!; try done.
    + rewrite Heq, <- Permutation_middle. symmetry.
      exact (Permutation_app_tail dropped Hperm).
    + by constructor.
    + right. by rewrite Heq, length_heappushpop.
    + rewrite Heq. by apply (heappushpop_order ilt Advise.scored).
  - destruct Hfull as [->|?]; [|lia]. exists [].
    rewrite Heq. split_and!.
    + by rewrite heappush_perm, !app_nil_r.
    + by apply (heappush_is_heap ilt Advise.scored).
    + rewrite heappush_perm. by constructor.
    + done.
    + by left.
    + intros d h Hd. by apply elem_of_nil in Hd.
Qed.

Lemma walk_loop_keeps_best self ys (e : Advise.walk_end) (c : Z)
  (dropped : list (Advise.item Reasoning Project)) :
  Advise.limit self = None -> Advise.count self = Some c ->
  let heap := Advise._computed_stacks_heap self in
  let heap' :=
    Advise._computed_stacks_heap (Advise.walk_loop payload_lt self ys e).2 in
  is_heap ilt heap -> Forall Advise.scored heap -> Forall Advise.scored dropped ->
  Forall (fun y => Advise.scored (Advise.entry_of y)) ys ->
  (dropped = [] \/ c <= Z.of_nat (length heap)) ->
  (forall d h, d ∈ dropped -> h ∈ heap -> ilt h d = false) ->
  exists dropped',
    map Advise.entry_of ys ++ heap ++ dropped ≡ₚ heap' ++ dropped'
    /\ Forall Advise.scored heap' /\ Forall Advise.scored dropped'
    /\ (forall d h, d ∈ dropped' -> h ∈ heap' -> ilt h d = false).
Proof.
  revert self dropped. induction ys as [|y ys IH];
    intros self dropped Hl Hc heap heap' Hheap HP HPd HPys Hfull Hord.
  - exists dropped. by split_and!.
  - apply Forall_cons in HPys as [HPy HPys].
    destruct (visit_keeps_best self y c dropped Hc Hheap HP HPd HPy Hfull
                Hord) as (dropped1 & Hperm & Hh1 & HP1 & HPd1 & Hfull1 & Hord1).
    destruct (visit_fields payload_lt self y) as (_ & Hc1 & Hl1 & _).
    cbv zeta in Hc1, Hl1.
    destruct (IH (Advise.visit payload_lt self y) dropped1)
      as (dropped' & Hperm' & HP' & HPd' & Hord'); try done; try congruence.
    assert (Hstep : Advise.walk_loop payload_lt self (y :: ys) e
                    = Advise.walk_loop payload_lt
                        (Advise.visit payload_lt self y) ys e).
    { cbn [Advise.walk_loop]. unfold Advise.loop_body, Advise.leave.
      by rewrite Hl1, Hl. }
    exists dropped'. subst heap'. rewrite Hstep. split_and!; try done.
    rewrite <- Hperm'. cbn [map]. rewrite <- Hperm.
    apply Permutation_middle.
Qed.
End KeepsBest.

(** ** More on [Adviser.compute] *)

(** A list included, as a multiset, in the image of a list is the image
    of a list included in it. *)
Lemma submseteq_fmap_inv {A B : Type} (f : A -> B) (l : list B)
  (ys : list A) :
  l ⊆+ f <$> ys -> exists k, k ⊆+ ys /\ l = f <$> k.
Proof.
  intros Hsub. remember (f <$> ys) as l' eqn:Hl'. revert ys Hl'.
  induction Hsub as [|x l1 l2 _ IH|x y l|x l1 l2 _ IH|l1 l2 l3 _ IH1 _ IH2];
    intros ys Hl'.
  - exists []. symmetry in Hl'. apply fmap_nil_inv in Hl' as ->. done.
  - symmetry in Hl'. apply fmap_cons_inv in Hl' as (a & ys' & -> & -> & ->).
    destruct (IH ys' eq_refl) as (k & Hk & ->).
    exists (a :: k). split; [by apply submseteq_skip|done].
  - symmetry in Hl'. apply fmap_cons_inv in Hl' as (a & ys' & -> & Hl' & ->).
    symmetry in Hl'. apply fmap_cons_inv in Hl' as (b & ys'' & -> & -> & ->).
    exists (b :: a :: ys''). split; [apply submseteq_swap|done].
  - symmetry in Hl'. apply fmap_cons_inv in Hl' as (a & ys' & -> & -> & ->).
    destruct (IH ys' eq_refl) as (k & Hk & ->).
    exists k. split; [by apply submseteq_cons|done].
  - destruct (IH2 ys Hl') as (k2 & Hk2 & ->).
    destruct (IH1 k2 eq_refl) as (k1 & Hk1 & ->).
    exists k1. split; [by etrans|done].
Qed.

Section AdviseMore.
Context {Reasoning Project : Type}.
Context (payload_lt : Reasoning * Project -> Reasoning * Project -> bool).
Context (fill_package_digests : Project -> Project).
Implicit Types (self : Advise.Adviser Reasoning Project).
Implicit Types (y : float * Reasoning * Project).
Implicit Types (ys : list (float * Reasoning * Project)).

Lemma visit_heap_length self y :
  length (Advise._computed_stacks_heap (Advise.visit payload_lt self y))
  = match Advise.count self with
    | Some c =>
        if c <=? Z.of_nat (length (Advise._computed_stacks_heap self))
        then length (Advise._computed_stacks_heap self)
        else S (length (Advise._computed_stacks_heap self))
    | None => S (length (Advise._computed_stacks_heap self))
    end.
Proof.
  destruct y as [[score reasoning] generated_project]. cbn.
  destruct (Advise.count self) as [c|]; [|apply length_heappush].
  destruct (_ <=? _); [apply length_heappushpop|apply length_heappush].
Qed.

(** Without [limit] the loop is never left early. *)
Lemma walk_loop_no_limit self ys (e : Advise.walk_end) :
  Advise.limit self = None ->
  (Advise.walk_loop payload_lt self ys e).1
  = match e with
    | Advise.StopIteration => None
    | Advise.WalkRaises x => Some x
    end
  /\ Advise._visited (Advise.walk_loop payload_lt self ys e).2
     = Advise._visited self + Z.of_nat (length ys)
  /\ length (Advise._computed_stacks_heap
               (Advise.walk_loop payload_lt self ys e).2)
     = match Advise.count self with
       | Some c =>
           Nat.max (length (Advise._computed_stacks_heap self))
             (Nat.min (Z.to_nat c)
                (length (Advise._computed_stacks_heap self) + length ys))
       | None => (length (Advise._computed_stacks_heap self) + length ys)%nat
       end.
Proof.
  revert self. induction ys as [|y ys IH]; intros self Hl.
  - cbn. split_and!; [done|lia|]. destruct (Advise.count self); lia.
  - cbn [Advise.walk_loop]. unfold Advise.loop_body.
    destruct (visit_fields payload_lt self y) as (_ & Hc & Hl' & Hv).
    cbv zeta in *. unfold Advise.leave. rewrite Hl', Hl.
    destruct (IH (Advise.visit payload_lt self y)) as (-> & -> & ->);
      [congruence|].
    rewrite Hv, Hc, visit_heap_length. split_and!; [done|cbn; lia|].
    destruct (Advise.count self) as [c|]; [|cbn; lia].
    destruct (Z.leb_spec c
                (Z.of_nat (length (Advise._computed_stacks_heap self))));
      cbn [length]; lia.
Qed.

(** Without [limit], [compute_on_project] visits every stack of the
    walk: an exception the walk raises comes out of it, and when the
    walk ends it returns as many stacks as the walk yielded, or [count]
    of them when [count] is set and smaller (none for a [count] that is
    not positive). *)
Theorem compute_on_project_without_limit
  (rt : Advise.RecommendationType) (count : option Z)
  (walk : Advise.Walk Reasoning Project) :
  (forall e, Advise.ending walk = Advise.WalkRaises e ->
     Advise.compute_on_project payload_lt fill_package_digests rt count None
       walk = Raise e)
  /\ (Advise.ending walk = Advise.StopIteration ->
      exists stacks,
        Advise.compute_on_project payload_lt fill_package_digests rt count
          None walk = Ok stacks
        /\ length stacks
           = match count with
             | Some c => Nat.min (Z.to_nat c) (length (Advise.yields walk))
             | None => length (Advise.yields walk)
             end).
Proof.
  unfold Advise.compute_on_project, Advise.compute.
  set (self := Advise.Build_Adviser _ _ _ _ _ _ _).
  destruct (walk_loop_no_limit self (Advise.yields walk)
              (Advise.ending walk) eq_refl) as (Hraised & _ & Hlen).
  destruct (Advise.walk_loop payload_lt self (Advise.yields walk)
              (Advise.ending walk)) as [raised self'].
  cbn [fst snd] in *. subst raised. split.
  - by intros e ->.
  - intros ->. eexists. split; [done|].
    rewrite length_map. unfold Advise.ranked.
    rewrite (Permutation_length (sorted_perm _ _ _ _)), Hlen.
    cbn. destruct count; lia.
Qed.

(** With [limit] set and [count] left at [None], [compute_on_project]
    raises [TypeError] at the first stack the walk yields, where
    [self._visited >= self.count] compares an int with [None]; it
    returns, with no stack, only when the walk yields nothing. *)
Theorem compute_on_project_limit_without_count
  (rt : Advise.RecommendationType) (l : Z)
  (walk : Advise.Walk Reasoning Project) :
  (Advise.yields walk <> [] ->
   Advise.compute_on_project payload_lt fill_package_digests rt None
     (Some l) walk = Raise TypeError)
  /\ (Advise.yields walk = [] ->
      Advise.compute_on_project payload_lt fill_package_digests rt None
        (Some l) walk
      = match Advise.ending walk with
        | Advise.StopIteration => Ok []
        | Advise.WalkRaises e => Raise e
        end).
Proof.
  unfold Advise.compute_on_project, Advise.compute. split.
  - destruct (Advise.yields walk) as [|[[score reasoning] project] ys];
      [done|]. intros _. done.
  - intros ->. cbn. by destruct (Advise.ending walk).
Qed.

(** The heap holds entries of the walk, none more often than the walk
    yielded it. *)
Lemma visit_heap_submseteq self y :
  Advise._computed_stacks_heap (Advise.visit payload_lt self y)
  ⊆+ Advise.entry_of y :: Advise._computed_stacks_heap self.
Proof.
  destruct y as [[score reasoning] generated_project]. cbn.
  set (heap := Advise._computed_stacks_heap self).
  set (entry := (score, (reasoning, generated_project))).
  assert (Hpush : heappush (Advise.item_lt payload_lt) heap entry
                  ⊆+ entry :: heap) by by rewrite heappush_perm.
  assert (Hpop : (heappushpop (Advise.item_lt payload_lt) heap entry).1
                 ⊆+ entry :: heap).
  { rewrite <- (heappushpop_perm (Advise.item_lt payload_lt) heap entry).
    by apply submseteq_cons. }
  destruct (Advise.count self) as [c|]; [|done].
  by destruct (_ <=? _).
Qed.

Lemma walk_loop_heap_submseteq self ys (e : Advise.walk_end) :
  Advise._computed_stacks_heap (Advise.walk_loop payload_lt self ys e).2
  ⊆+ map Advise.entry_of ys ++ Advise._computed_stacks_heap self.
Proof.
  revert self. induction ys as [|y ys IH]; intros self; [done|].
  cbn [Advise.walk_loop]. unfold Advise.loop_body.
  assert (Hv : Advise._computed_stacks_heap (Advise.visit payload_lt self y)
               ⊆+ map Advise.entry_of (y :: ys)
                  ++ Advise._computed_stacks_heap self).
  { rewrite visit_heap_submseteq. cbn [map app].
    apply submseteq_skip, submseteq_inserts_l. done. }
  destruct (Advise.leave _); cbn [snd]; [|done..].
  etrans; [apply IH|]. cbn [map app]. rewrite Permutation_middle.
  apply submseteq_app; [done|apply visit_heap_submseteq].
Qed.

(** Whatever [count] and [limit] are, the stacks [compute_on_project]
    returns are stacks the walk yielded, each with
    [fill_package_digests] applied to its project, and none is returned
    more often than the walk yielded it. *)
Theorem compute_on_project_returns_yielded_stacks
  (rt : Advise.RecommendationType) (count limit : option Z)
  (walk : Advise.Walk Reasoning Project)
  (stacks : list (Reasoning * Project)) :
  Advise.compute_on_project payload_lt fill_package_digests rt count limit
    walk = Ok stacks ->
  exists kept : list (float * Reasoning * Project),
    kept ⊆+ Advise.yields walk
    /\ stacks = map (fun y => (y.1.2, fill_package_digests y.2)) kept.
Proof.
  unfold Advise.compute_on_project, Advise.compute.
  set (self := Advise.Build_Adviser _ _ _ _ _ _ _).
  pose proof (walk_loop_heap_submseteq self (Advise.yields walk)
                (Advise.ending walk)) as Hsub.
  destruct (Advise.walk_loop payload_lt self (Advise.yields walk)
              (Advise.ending walk)) as [raised self'].
  cbn [fst snd] in *. destruct raised; [done|]. intros [= <-].
  rewrite app_nil_r in Hsub.
  rewrite <- (sorted_perm fst PrimFloat.ltb false) in Hsub.
  fold (Advise.ranked (Advise._computed_stacks_heap self')) in Hsub.
  destruct (submseteq_fmap_inv _ _ _ Hsub) as (kept & Hkept & Heq).
  exists kept. split; [done|]. rewrite Heq, <- list_fmap_compose.
  apply list_fmap_ext. by intros _ [[score reasoning] project] _.
Qed.
End AdviseMore.

Lemma compute_on_project_returns_yielded_stacks_witness :
  exists kept : list (float * string * string),
    kept ⊆+ Advise.yields Sample.walk
    /\ [((Sample.stack 0.75%float "stack-b").1.2, "stack-b");
        ((Sample.stack 0.875%float "stack-e").1.2, "stack-e")]
       = map (fun y => (y.1.2, Sample.fill_package_digests y.2)) kept.
Proof.
  apply (compute_on_project_returns_yielded_stacks Sample.payload_lt
           Sample.fill_package_digests Advise.LATEST (Some 2) None
           Sample.walk).
  vm_compute. reflexivity.
Defined.

(** When [limit] is not set and the walk does not fail,
    [compute_on_project] with [count] [c] returns the best stacks the
    walk yields: the entries it keeps and the entries it drops are the
    entries of the walk, it keeps as many as [c] allows, sorted by score
    in ascending order, and no dropped entry has a score above the score
    of an entry it keeps.  The scores are numbers, and [<] on the pairs
    of reasoning and project, which breaks ties between equal scores, is
    asymmetric and negatively transitive. *)
Theorem compute_on_project_keeps_best
  {Reasoning Project : Type}
  (payload_lt : Reasoning * Project -> Reasoning * Project -> bool)
  (fill_package_digests : Project -> Project)
  (rt : Advise.RecommendationType) (c : Z)
  (walk : Advise.Walk Reasoning Project) :
  (forall a b, payload_lt a b = true -> payload_lt b a = false) ->
  (forall a b c,
     payload_lt a b = false -> payload_lt b c = false ->
     payload_lt a c = false) ->
  Forall (fun y => Advise.scored (Advise.entry_of y)) (Advise.yields walk) ->
  Advise.ending walk = Advise.StopIteration ->
  exists kept dropped : list (Advise.item Reasoning Project),
    Advise.compute_on_project payload_lt fill_package_digests rt (Some c)
      None walk
    = Ok (map (fun entry : Advise.item Reasoning Project =>
                 (entry.2.1, fill_package_digests entry.2.2)) kept)
    /\ map Advise.entry_of (Advise.yields walk) ≡ₚ kept ++ dropped
    /\ length kept = Nat.min (Z.to_nat c) (length (Advise.yields walk))
    /\ StronglySorted (ascending fst PrimFloat.ltb) kept
    /\ (forall k d, k ∈ kept -> d ∈ dropped ->
          PrimFloat.ltb k.1 d.1 = false).
Proof.
  intros Hasym Hneg Hscored Hend.
  set (self := @Advise.Build_Adviser Reasoning Project rt (Some c) None
                 [] 0).
  destruct (walk_loop_keeps_best payload_lt Hasym Hneg self
              (Advise.yields walk) (Advise.ending walk) c [])
    as (dropped & Hperm & HP & HPd & Hord);
    [done|done|by intros i a b _ Hi|done|done|done|by left
    |by intros d h Hd%elem_of_nil|].
  destruct (walk_loop_no_limit payload_lt self (Advise.yields walk)
              (Advise.ending walk) eq_refl) as (Hraised & _ & Hlen).
  cbn [Advise._computed_stacks_heap self app] in Hperm, Hlen.
  rewrite app_nil_r in Hperm.
  exists (Advise.ranked
            (Advise._computed_stacks_heap
               (Advise.walk_loop payload_lt self (Advise.yields walk)
                  (Advise.ending walk)).2)), dropped.
  assert (Hranked : forall heap : list (Advise.item Reasoning Project),
            Advise.ranked heap ≡ₚ heap) by (intros; apply sorted_perm).
  split_and!.
  - unfold Advise.compute_on_project, Advise.compute. fold self.
    destruct (Advise.walk_loop payload_lt self (Advise.yields walk)
                (Advise.ending walk)) as [raised self'].
    cbn [fst snd] in *. by rewrite Hraised, Hend.
  - by rewrite Hranked.
  - rewrite (Permutation_length (Hranked _)), Hlen. cbn. lia.
  - apply (sorted_ascending fst PrimFloat.ltb (fun x => is_nan x = false)).
    + intros a b _ _. apply float_ltb_asym.
    + apply float_ltb_negtrans.
    + done.
  - intros k d Hk Hd. rewrite Hranked in Hk.
    rewrite Forall_forall in HP, HPd.
    apply (item_lt_score payload_lt); auto.
Qed.

Lemma compute_on_project_keeps_best_witness :
  exists kept dropped : list (Advise.item string string),
    Advise.compute_on_project Sample.payload_lt Sample.fill_package_digests
      Advise.LATEST (Some 2) None Sample.walk
    = Ok (map (fun entry : Advise.item string string =>
                 (entry.2.1, Sample.fill_package_digests entry.2.2)) kept)
    /\ map Advise.entry_of (Advise.yields Sample.walk) ≡ₚ kept ++ dropped
    /\ length kept = 2%nat
    /\ (forall k d, k ∈ kept -> d ∈ dropped ->
          PrimFloat.ltb k.1 d.1 = false).
Proof.
  destruct (compute_on_project_keeps_best Sample.payload_lt
              Sample.fill_package_digests Advise.LATEST 2 Sample.walk)
    as (kept & dropped & Hok & Hperm & Hlen & _ & Hbest);
    [done|done|repeat constructor|done|].
  exists kept, dropped. by split_and!.
Defined.

(** ** More on the policy store *)

Lemma slice_to_sublist {A} (n : Z) (l : list A) : slice_to n l `sublist_of` l.
Proof. unfold slice_to. destruct (_ <=? _); apply sublist_take. Qed.

Lemma visited_credit (r : float) (p : policy) (pt : PackageTuple) :
  visited p -> visited (credit r p pt).
Proof.
  unfold visited, credit. induction p as [|[k v] p IH]; intros Hp.
  - cbn. rewrite decide_True by done. by repeat constructor.
  - apply Forall_cons in Hp as [Hv Hp]. cbn [dict_setdefault].
    destruct (decide (KTuple pt = k)) as [<-|Hne].
    + cbn [dict_alter]. rewrite decide_True by done.
      constructor; [cbn in *; lia|done].
    + cbn [dict_alter]. rewrite decide_False by done.
      constructor; [done|by apply IH].
Qed.

Lemma visited_credit_all (r : float) (pts : list PackageTuple) (p : policy) :
  visited p -> visited (credit_all r p pts).
Proof.
  revert p. induction pts as [|pt pts IH]; intros p Hp; [done|].
  apply IH. by apply visited_credit.
Qed.

Lemma visited_shrink_periodically (size : Z) (ctx : Context) (p : policy) :
  visited p -> visited (shrink_periodically size ctx p).
Proof.
  intros Hp. unfold shrink_periodically. destruct (_ && _); [|done].
  unfold shrink, visited.
  apply (Forall_dict_of_items (fun v => 1 <= visit_count v)).
  unfold visited in Hp. rewrite Forall_forall in Hp |- *.
  intros kv Hin. apply Hp.
  rewrite <- (sorted_perm snd record_lt true p).
  exact (elem_of_sublist _ _ _ Hin (slice_to_sublist size _)).
Qed.

Lemma td_policy_after (size : Z) (self : TD.TemporalDifference)
  (state : State) (pt0 : PackageTuple) (reward : float) :
  isnan reward || isinf reward = false ->
  TD._policy (TD.set_reward_signal size self state pt0 reward)
  = shrink_periodically size (TD.context self)
      (credit_all reward (TD._policy self)
         (iter_resolved_dependencies state)).
Proof. intros Hfinite. unfold TD.set_reward_signal. by rewrite Hfinite. Qed.

Lemma mcts_policy_after (size : Z) (self : MCTS.MCTS)
  (state : State) (pt0 : PackageTuple) (reward : float) :
  isnan reward || isinf reward = true ->
  MCTS._policy (MCTS.set_reward_signal size self state pt0 reward)
  = shrink_periodically size (MCTS.context self)
      (credit_all (score state) (MCTS._policy self)
         (iter_resolved_dependencies state)).
Proof.
  intros Hnot. unfold MCTS.set_reward_signal.
  destruct (isnan reward); [|simpl in Hnot; rewrite Hnot; cbn [negb]];
    by rewrite (proj1 (mcts_mark_policy _ _ _)).
Qed.

(** Both predictors keep the policy a policy of visited packages: when
    every record counts at least one visit before [set_reward_signal],
    every record does after it, whatever the reward, the cap and the
    iteration, so the average [record[0] / record[1]] of a stored record
    never divides by zero. *)
Theorem policy_counts_visits
  (size : Z) (td : TD.TemporalDifference) (mcts : MCTS.MCTS)
  (state : State) (pt0 : PackageTuple) (reward : float) :
  (visited (TD._policy td) ->
   visited (TD._policy (TD.set_reward_signal size td state pt0 reward)))
  /\ (visited (MCTS._policy mcts) ->
      visited (MCTS._policy
                 (MCTS.set_reward_signal size mcts state pt0 reward))).
Proof.
  split; intros Hp.
  - destruct (isnan reward || isinf reward) eqn:Hr.
    + unfold TD.set_reward_signal. by rewrite Hr.
    + rewrite td_policy_after by done.
      by apply visited_shrink_periodically, visited_credit_all.
  - destruct (isnan reward || isinf reward) eqn:Hr.
    + rewrite mcts_policy_after by done.
      by apply visited_shrink_periodically, visited_credit_all.
    + apply orb_false_iff in Hr as [Hnan Hinf].
      unfold MCTS.set_reward_signal. by rewrite Hnan, Hinf.
Qed.

Lemma shrink_periodically_off (ctx : Context) (p : policy) :
  shrink_periodically 0 ctx p = p.
Proof. done. Qed.

Lemma visit_count_credit_all (r : float) (pts : list PackageTuple)
  (p : policy) (pt : PackageTuple) :
  NoDup pts ->
  visit_count (default fresh_record (dict_get (KTuple pt) (credit_all r p pts)))
  = visit_count (default fresh_record (dict_get (KTuple pt) p))
    + (if bool_decide (pt ∈ pts) then 1 else 0).
Proof.
  intros Hnd. case_bool_decide as Hin.
  - by rewrite dict_get_credit_all.
  - rewrite dict_get_credit_all_other; [lia|]. intros pt' Hpt' [= ->]. done.
Qed.

(** With unlimited memory ([_TD_POLICY_SIZE] is 0) the count of a
    package tuple tells how often it was credited: after any row of
    calls of [TemporalDifference.set_reward_signal], in whatever contexts,
    its count has grown by the number of calls with a finite reward for
    a state in which it is resolved (a state lists a resolved tuple
    once). *)
Theorem reward_signals_count_visits
  (self : TD.TemporalDifference) (signals : list TD.signal)
  (pt : PackageTuple) :
  Forall (fun s => NoDup (iter_resolved_dependencies (TD.of_state s))) signals ->
  visit_count
    (default fresh_record
       (dict_get (KTuple pt) (TD._policy (TD.reward_signals 0 self signals))))
  = visit_count
      (default fresh_record (dict_get (KTuple pt) (TD._policy self)))
    + Z.of_nat (length (List.filter (TD.credits pt) signals)).
Proof.
  revert self. induction signals as [|s signals IH]; intros self Hnd.
  - cbn. lia.
  - apply Forall_cons in Hnd as [Hs Hnd].
    cbn [TD.reward_signals fold_left].
    fold (TD.reward_signals 0
            (TD.set_reward_signal 0 (TD.set_context self (TD.at_context s))
               (TD.of_state s) (TD.action s) (TD.reward s)) signals).
    rewrite IH by done. cbn [List.filter]. unfold TD.credits at 2.
    destruct (isnan (TD.reward s) || isinf (TD.reward s)) eqn:Hr.
    + unfold TD.set_reward_signal. rewrite Hr. cbn. lia.
    + rewrite td_policy_after, shrink_periodically_off by done.
      rewrite visit_count_credit_all by done.
      cbn [TD.set_context TD._policy negb andb].
      case_bool_decide; cbn [length]; lia.
Qed.

Lemma reward_signals_count_visits_witness :
  Forall (fun s => NoDup (iter_resolved_dependencies (TD.of_state s)))
    Sample.signals
  /\ visit_count
       (default fresh_record
          (dict_get (KTuple Sample.flask)
             (TD._policy (TD.reward_signals 0 (Sample.td 1) Sample.signals))))
     = 2.
Proof.
  assert (Hnd : Forall
                  (fun s => NoDup (iter_resolved_dependencies (TD.of_state s)))
                  Sample.signals).
  { repeat apply Forall_cons_2; [..|apply Forall_nil_2];
      apply (bool_decide_unpack _); vm_compute; exact I. }
  split; [exact Hnd|].
  rewrite (reward_signals_count_visits (Sample.td 1) Sample.signals
             Sample.flask Hnd).
  vm_compute. reflexivity.
Defined.

(** The eviction only forgets: whatever the cap and the iteration, a
    record found in the policy after [set_reward_signal] is the record
    the credited policy holds under the same key, and when the cap is
    not below the number of credited records every key keeps its
    record. *)
Theorem eviction_keeps_records
  (size : Z) (td : TD.TemporalDifference) (mcts : MCTS.MCTS)
  (state : State) (pt0 : PackageTuple) (reward : float) :
  (NoDup (dict_keys (TD._policy td)) ->
   isnan reward || isinf reward = false ->
   let credited :=
     credit_all reward (TD._policy td) (iter_resolved_dependencies state) in
   let after := TD._policy (TD.set_reward_signal size td state pt0 reward) in
   (forall k r, dict_get k after = Some r -> dict_get k credited = Some r)
   /\ (Z.of_nat (length credited) <= size ->
       forall k, dict_get k after = dict_get k credited))
  /\ (NoDup (dict_keys (MCTS._policy mcts)) ->
      isnan reward || isinf reward = true ->
      let credited :=
        credit_all (score state) (MCTS._policy mcts)
          (iter_resolved_dependencies state) in
      let after :=
        MCTS._policy (MCTS.set_reward_signal size mcts state pt0 reward) in
      (forall k r, dict_get k after = Some r -> dict_get k credited = Some r)
      /\ (Z.of_nat (length credited) <= size ->
          forall k, dict_get k after = dict_get k credited)).
Proof.
  split; intros Hnd Hr credited after; subst after.
  - rewrite td_policy_after by done.
    by apply shrink_periodically_lookup, credit_all_NoDup.
  - rewrite mcts_policy_after by done.
    by apply shrink_periodically_lookup, credit_all_NoDup.
Qed.

Lemma shrink_negative (size : Z) (ctx : Context) (p : policy) :
  size < 0 -> iteration ctx mod 1024 = 0 -> NoDup (dict_keys p) ->
  shrink_periodically size ctx p
  = take (length p - Z.to_nat (- size)) (sorted snd record_lt true p).
Proof.
  intros Hsize Hmod Hp. unfold shrink_periodically.
  rewrite Hmod, (proj2 (Z.eqb_neq size 0)) by lia. cbn [negb andb Z.eqb].
  unfold shrink, slice_to. rewrite (proj2 (Z.leb_gt 0 size)) by lia.
  rewrite (Permutation_length (sorted_perm _ _ _ _)).
  replace (Z.to_nat (Z.of_nat (length p) + size))
    with (length p - Z.to_nat (- size))%nat by lia.
  by apply dict_of_items_NoDup, sorted_NoDup_keys.
Qed.

(** A negative cap is a slice bound counted from the end: when the
    eviction runs with the cap at [-k], the policy keeps the ranking of
    the credited records in descending order without its last [k]
    entries, and nothing when there are no more than [k]. *)
Theorem negative_policy_size
  (size : Z) (td : TD.TemporalDifference) (mcts : MCTS.MCTS)
  (state : State) (pt0 : PackageTuple) (reward : float) :
  size < 0 ->
  (iteration (TD.context td) mod 1024 = 0 ->
   NoDup (dict_keys (TD._policy td)) ->
   isnan reward || isinf reward = false ->
   let credited :=
     credit_all reward (TD._policy td) (iter_resolved_dependencies state) in
   TD._policy (TD.set_reward_signal size td state pt0 reward)
   = take (length credited - Z.to_nat (- size))
       (sorted snd record_lt true credited))
  /\ (iteration (MCTS.context mcts) mod 1024 = 0 ->
      NoDup (dict_keys (MCTS._policy mcts)) ->
      isnan reward || isinf reward = true ->
      let credited :=
        credit_all (score state) (MCTS._policy mcts)
          (iter_resolved_dependencies state) in
      MCTS._policy (MCTS.set_reward_signal size mcts state pt0 reward)
      = take (length credited - Z.to_nat (- size))
          (sorted snd record_lt true credited)).
Proof.
  intros Hsize. split; intros Hmod Hnd Hr credited.
  - rewrite td_policy_after by done.
    by apply shrink_negative, credit_all_NoDup.
  - rewrite mcts_policy_after by done.
    by apply shrink_negative, credit_all_NoDup.
Qed.

Lemma negative_policy_size_witness :
  TD._policy
    (TD.set_reward_signal (-1) (Sample.td 0) Sample.state Sample.click
       1.5%float)
  = [(KTuple Sample.flask, {| reward_sum := 1.5%float; visit_count := 1 |})].
Proof.
  destruct (negative_policy_size (-1) (Sample.td 0) (Sample.mcts 0)
              Sample.state Sample.click 1.5%float) as [Htd _]; [lia|].
  rewrite Htd; [vm_compute; reflexivity|done|constructor|done].
Defined.

(** ** [run] and the temperature *)

(** Once the slope coefficient [_a] is zero, [_temperature_function]
    raises in every call that reaches the cooling expression:
    [ZeroDivisionError] from [-limit / _a], or [OverflowError] before it
    when [-limit] does not fit a float.  The sample predictor gets
    there by learning the slope at iteration 0. *)
Theorem zero_slope_raises
  (self : TD.TemporalDifference) (t0 : num) (ctx : Context) :
  is_zero (TD._a self) = true ->
  accepted_final_states_count ctx <> 0 ->
  ~ (num_is_zero t0 = true /\ accepted_final_states_count ctx = 1) ->
  TD._temperature_function self t0 ctx
  = Raise (if is_infinity (Z2float (- limit ctx))
           then OverflowError else ZeroDivisionError).
Proof.
  intros Ha Hacc Hnot. unfold TD._temperature_function.
  rewrite (proj2 (Z.eqb_neq _ _) Hacc).
  destruct (num_is_zero t0 && (accepted_final_states_count ctx =? 1)) eqn:Hb.
  { apply andb_true_iff in Hb as [? ?%Z.eqb_eq]. exfalso; auto. }
  unfold TD.cooling, int_div_float, float_of_int, fdiv.
  destruct (is_infinity (Z2float (- limit ctx))); [done|].
  unfold mbind, result_bind. by rewrite Ha.
Qed.

Lemma zero_slope_raises_witness :
  TD._temperature_function (Sample.td 0) (Float 0%float)
    {| iteration := 0; limit := 100; accepted_final_states_count := 1;
       beam_max := Sample.state |}
  = Ok (Int 100, TD.set_a (Sample.td 0) 0%float)
  /\ TD._temperature_function (TD.set_a (Sample.td 0) 0%float) (Int 100)
       {| iteration := 1; limit := 100; accepted_final_states_count := 1;
          beam_max := Sample.state |}
     = Raise ZeroDivisionError.
Proof.
  split; [vm_compute; reflexivity|].
  rewrite zero_slope_raises; [vm_compute; reflexivity|done|done|].
  by intros [? _].
Defined.

Lemma temperature_function_keeps (self self' : TD.TemporalDifference)
  (t0 t : num) (ctx : Context) :
  TD._temperature_function self t0 ctx = Ok (t, self') ->
  TD._policy self' = TD._policy self /\ TD.context self' = TD.context self.
Proof.
  unfold TD._temperature_function.
  destruct (_ =? 0); [by intros [= <- <-]|].
  destruct (_ && _).
  - destruct (TD.slope ctx); [|done]. cbn. by intros [= <- <-].
  - destruct (TD.cooling _ _); [|done]. cbn. by intros [= <- <-].
Qed.

Lemma do_exploitation_state
  (rnd : State -> bool -> PackageTuple) (self : TD.TemporalDifference)
  (state : State) (pt : PackageTuple) :
  TD._do_exploitation rnd self = Ok (state, pt) ->
  state = beam_max (TD.context self).
Proof.
  unfold TD._do_exploitation.
  destruct (TD.exploitation_loop _ _ _) as [[avg [pt'|]]|]; cbn;
    [by intros [= <- _]..|done].
Qed.

Lemma do_exploration_state
  (rnd : State -> bool -> PackageTuple) (env : TD.Env)
  (self : TD.TemporalDifference) (state : State) (pt : PackageTuple) :
  TD._do_exploration rnd env self = Ok (state, pt) ->
  TD.beam_get_random env None = Ok state /\ pt = rnd state true.
Proof.
  unfold TD._do_exploration.
  destruct (TD.beam_get_random env None); cbn; [|done].
  by intros [= <- <-].
Qed.



(** When [MCTS.run] returns, the policy, the context and [_next_state]
    are as they were.  With a state to continue with, it returns that
    state with a random unresolved dependency of it and changes nothing,
    neither the temperature nor the history; with none, the state
    returned is the beam maximum, or, with more than one state in the
    beam, the state [beam.get_random()] drew. *)
Theorem mcts_run_returns
  (rnd : State -> bool -> PackageTuple) (env : TD.Env)
  (self self' : MCTS.MCTS) (history history' : list TD.history_entry)
  (state : State) (pt : PackageTuple) :
  MCTS.run rnd env self history = Ok (state, pt, self', history') ->
  MCTS._policy self' = MCTS._policy self
  /\ MCTS.context self' = MCTS.context self
  /\ MCTS._next_state self' = MCTS._next_state self
  /\ match MCTS._next_state self with
     | Some next_state =>
         state = next_state /\ pt = rnd next_state true
         /\ self' = self /\ history' = history
     | None =>
         state = beam_max (MCTS.context self)
         \/ (1 < TD.beam_size env
             /\ TD.beam_get_random env None = Ok state
             /\ pt = rnd state true)
     end.
Proof.
  unfold MCTS.run. destruct self as [td next]. cbn [MCTS._next_state MCTS.td].
  destruct next as [next_state|]; [by intros [= <- <- <- <-]|].
  unfold MCTS.context, MCTS._policy. cbn [MCTS.td].
  destruct (TD._temperature_function td (TD._temperature td)
              (TD.context td)) as [[t td1]|] eqn:Ht; [|done].
  apply temperature_function_keeps in Ht as [Hp Hc].
  cbn -[TD._do_exploitation].
  set (td2 := TD.set_temperature td1 t).
  set (idx := if 1 <? TD.beam_size env
              then TD.randrange env 1 (TD.beam_size env) else 0).
  destruct (TD.beam_get_random env (Some idx)) as [probable|]; [|done].
  cbn -[TD._do_exploitation].
  destruct (TD._compute_acceptance_probability env _ _ _) as [ap|]; [|done].
  cbn -[TD._do_exploitation].
  destruct (negb (idx =? 0) && PrimFloat.leb (TD.random_random env) ap)
    eqn:Hexplore.
  - destruct (TD._do_exploration rnd env td2) as [[s u]|] eqn:Hdo; [|done].
    cbn. intros [= <- <- <- <-].
    apply do_exploration_state in Hdo as [Hget ->].
    assert (1 < TD.beam_size env).
    { apply andb_true_iff in Hexplore as [Hidx _]. subst idx.
      destruct (Z.ltb_spec 1 (TD.beam_size env)); [done|]. done. }
    split_and!; [done|done|done|by right].
  - destruct (TD._do_exploitation rnd td2) as [[s u]|] eqn:Hdo; [|done].
    cbn. intros [= <- <- <- <-].
    apply do_exploitation_state in Hdo as ->.
    split_and!; [done|done|done|left; by rewrite <- Hc].
Qed.

Lemma mcts_run_returns_witness :
  MCTS.run Sample.pick_werkzeug Sample.env (Sample.mcts 10) []
  = Ok (Sample.other_state, Sample.werkzeug, Sample.mcts 10, [])
  /\ MCTS._next_state (Sample.mcts 10) = Some Sample.other_state.
Proof.
  assert (Hrun : MCTS.run Sample.pick_werkzeug Sample.env (Sample.mcts 10) []
                 = Ok (Sample.other_state, Sample.werkzeug, Sample.mcts 10,
                       [])).
  { vm_compute. reflexivity. }
  split; [exact Hrun|].
  exact (proj1 (proj2 (proj2 (mcts_run_returns _ _ _ _ _ _ _ _ Hrun)))).
Defined.

(** After a finite reward for a state, [MCTS.run] continues with that
    state: it returns the state with
    [get_random_unresolved_dependency(prefer_recent=True)] of it and
    leaves the predictor and the history alone; the reward itself
    changed neither the policy nor the temperature. *)
Theorem mcts_run_continues
  (rnd : State -> bool -> PackageTuple) (env : TD.Env) (size : Z)
  (self : MCTS.MCTS) (state : State) (pt0 : PackageTuple) (reward : float)
  (history : list TD.history_entry) :
  isnan reward = false -> isinf reward = false ->
  let self' := MCTS.set_reward_signal size self state pt0 reward in
  MCTS.run rnd env self' history
  = Ok (state, rnd state true, self', history)
  /\ MCTS._policy self' = MCTS._policy self
  /\ TD._temperature (MCTS.td self') = TD._temperature (MCTS.td self).
Proof.
  intros Hnan Hinf. unfold MCTS.set_reward_signal. rewrite Hnan, Hinf. done.
Qed.

Lemma mcts_run_continues_witness :
  MCTS.run Sample.pick_werkzeug Sample.env
    (MCTS.set_reward_signal 0 (Sample.mcts 10) Sample.state Sample.click
       1.5%float) []
  = Ok (Sample.state, Sample.werkzeug,
        MCTS.set_reward_signal 0 (Sample.mcts 10) Sample.state Sample.click
          1.5%float, []).
Proof.
  exact (proj1 (mcts_run_continues Sample.pick_werkzeug Sample.env 0
                  (Sample.mcts 10) Sample.state Sample.click 1.5%float []
                  eq_refl eq_refl)).
Defined.

Section SubprocessMore.
Context {Report : Type}.

(** The child and the parent of one [subprocess_run] print one
    dictionary between them, [os.waitpid] handing the parent the exit
    code of the child in the high byte of the status.  When [asa]
    returns, the child prints the report with [error=False] and the
    parent returns 0 without printing; when [asa] raises, the child
    prints nothing and the parent prints [error=True] with the message
    of a kill by the liveness probe or of an unknown error: the message
    of the exception, stored in the dictionary of the child, is not
    printed. *)
Theorem child_and_parent_print_once
  (child parent : Run.World Report)
  (result_dict : gmap string (Run.value Report)) :
  Run.fork_pid child = 0 -> Run.fork_pid parent <> 0 ->
  (forall code,
     (Run.subprocess_run child result_dict).1.1 = Run.SysExit code ->
     Run.waited_exit_code parent = 256 * code) ->
  exists printed,
    (Run.subprocess_run child result_dict).2
    ++ (Run.subprocess_run parent result_dict).2 = [printed]
    /\ match Run.asa child with
       | Ok report =>
           (Run.subprocess_run child result_dict).1.1 = Run.SysExit 0
           /\ (Run.subprocess_run parent result_dict).1.1 = Run.Return 0
           /\ printed !! "error" = Some (Run.VBool false)
           /\ printed !! "error_msg" = Some Run.VNone
           /\ printed !! "report" = Some (Run.VReport report)
       | Raise exc =>
           (Run.subprocess_run child result_dict).1.1 = Run.SysExit 1
           /\ (Run.subprocess_run parent result_dict).1.1 = Run.Return 256
           /\ printed !! "error" = Some (Run.VBool true)
           /\ printed !! "error_msg"
              = Some (Run.VStr
                        (if Run.isfile parent Run._LIVENESS_PROBE_KILL_FILE
                         then Run.CPU_MSG else Run.UNKNOWN_MSG))
           /\ printed !! "report" = Some Run.VNone
       end.
Proof.
  intros Hchild Hparent Hwait. revert Hwait. unfold Run.subprocess_run.
  rewrite Hchild, (proj2 (Z.eqb_neq _ _) Hparent). cbn [Z.eqb].
  destruct (Run.asa child) as [report|exc]; cbn [fst snd]; intros Hwait.
  - rewrite (Hwait 0 eq_refl). cbn. eexists. split; [done|].
    unfold Run.update. by simplify_map_eq.
  - rewrite (Hwait 1 eq_refl). cbn. eexists. split; [done|].
    unfold Run.update. by simplify_map_eq.
Qed.
End SubprocessMore.

Lemma child_and_parent_print_once_witness :
  exists printed : gmap string (Run.value unit),
    (Run.subprocess_run Sample.child ∅).2
    ++ (Run.subprocess_run (Sample.killed 256 false) ∅).2 = [printed]
    /\ printed !! "error_msg" = Some (Run.VStr Run.UNKNOWN_MSG).
Proof.
  destruct (child_and_parent_print_once Sample.child
              (Sample.killed 256 false) ∅)
    as (printed & Hprinted & _ & _ & _ & Hmsg & _);
    [done|done|by intros code [= <-]|].
  exists printed. split; [exact Hprinted|exact Hmsg].
Defined.

(** ** [Adviser.compute] with [limit] *)

Section AdviseLimit.
Context {Reasoning Project : Type}.
Context (payload_lt : Reasoning * Project -> Reasoning * Project -> bool).
Context (fill_package_digests : Project -> Project).
Implicit Types (self : Advise.Adviser Reasoning Project).
Implicit Types (y : float * Reasoning * Project).
Implicit Types (ys : list (float * Reasoning * Project)).

(** With [limit] set the heap is only pushed to: the loop is left when
    the heap has [count] entries. *)
Lemma walk_loop_with_limit self ys (e : Advise.walk_end) (c l : Z) :
  Advise.count self = Some c -> Advise.limit self = Some l ->
  Advise._visited self
  = Z.of_nat (length (Advise._computed_stacks_heap self)) ->
  Advise._visited self < c ->
  let n := Z.to_nat (c - Advise._visited self) in
  (Advise.walk_loop payload_lt self ys e).1
  = (if decide (n <= length ys)%nat then None
     else match e with
          | Advise.StopIteration => None
          | Advise.WalkRaises x => Some x
          end)
  /\ Advise._computed_stacks_heap (Advise.walk_loop payload_lt self ys e).2
     ≡ₚ map Advise.entry_of (take n ys) ++ Advise._computed_stacks_heap self.
Proof.
  revert self. induction ys as [|y ys IH]; intros self Hc Hl Hv Hlt n.
  - cbn. rewrite decide_False by lia. by rewrite take_nil.
  - cbn [Advise.walk_loop]. unfold Advise.loop_body.
    destruct (visit_fields payload_lt self y) as (_ & Hc1 & Hl1 & Hv1).
    cbv zeta in Hc1, Hl1, Hv1.
    assert (Hheap : Advise._computed_stacks_heap
                      (Advise.visit payload_lt self y)
                    = heappush (Advise.item_lt payload_lt)
                        (Advise._computed_stacks_heap self)
                        (Advise.entry_of y)).
    { destruct y as [[score reasoning] project]. cbn. rewrite Hc.
      by rewrite (proj2 (Z.leb_gt _ _)) by lia. }
    unfold Advise.leave. rewrite Hl1, Hc1, Hl, Hc, Hv1.
    assert (Hn : n = S (Z.to_nat (c - (Advise._visited self + 1))))
      by (subst n; lia).
    destruct (Z.leb_spec c (Advise._visited self + 1)) as [Hle|Hgt];
      cbn [fst snd].
    + rewrite decide_True by (cbn [length]; lia).
      split; [done|]. rewrite Hheap, heappush_perm.
      replace n with 1%nat by lia. cbn. by rewrite take_0.
    + destruct (IH (Advise.visit payload_lt self y)) as [Hr Hp];
        [congruence|congruence| |lia|].
      { rewrite Hv1, Hheap, length_heappush. lia. }
      rewrite Hv1 in Hr, Hp. rewrite Hr, Hp, Hn. cbn [take map length].
      split.
      * repeat case_decide; try done; lia.
      * rewrite Hheap, heappush_perm. cbn [app].
        by rewrite <- Permutation_middle.
Qed.

(** With [limit] set, to whatever value, and a positive [count] [c],
    [compute_on_project] returns the first [c] stacks the walk yields
    (all of them when the walk ends before), each with
    [fill_package_digests] applied to its project: the loop is left
    after [c] rounds, so what the walk would yield later is never
    scored against them. *)
Theorem compute_on_project_with_limit
  (rt : Advise.RecommendationType) (c l : Z)
  (walk : Advise.Walk Reasoning Project) :
  0 < c ->
  (Z.to_nat c <= length (Advise.yields walk))%nat
  \/ Advise.ending walk = Advise.StopIteration ->
  exists kept : list (float * Reasoning * Project),
    Advise.compute_on_project payload_lt fill_package_digests rt (Some c)
      (Some l) walk
    = Ok (map (fun y => (y.1.2, fill_package_digests y.2)) kept)
    /\ kept ≡ₚ take (Z.to_nat c) (Advise.yields walk).
Proof.
  intros Hc Hend. unfold Advise.compute_on_project, Advise.compute.
  set (self := Advise.Build_Adviser _ _ _ _ _ _ _).
  destruct (walk_loop_with_limit self (Advise.yields walk)
              (Advise.ending walk) c l) as [Hr Hp]; [done..|].
  cbn [Advise._visited self] in Hr, Hp.
  rewrite Z.sub_0_r, app_nil_r in *.
  destruct (Advise.walk_loop payload_lt self (Advise.yields walk)
              (Advise.ending walk)) as [raised self'].
  cbn [fst snd] in *.
  assert (raised = None) as ->.
  { rewrite Hr. case_decide; [done|]. destruct Hend as [?| ->]; [lia|done]. }
  rewrite <- (sorted_perm fst PrimFloat.ltb false) in Hp.
  fold (Advise.ranked (Advise._computed_stacks_heap self')) in Hp.
  destruct (submseteq_fmap_inv Advise.entry_of _ _
              (Permutation_submseteq _ _ Hp)) as (kept & Hkept & Heq).
  exists kept. split.
  - by rewrite Heq, <- list_fmap_compose.
  - apply submseteq_length_Permutation; [done|].
    rewrite <- (length_fmap Advise.entry_of kept), <- Heq.
    rewrite (Permutation_length Hp), length_map. done.
Qed.
End AdviseLimit.

Lemma compute_on_project_with_limit_witness :
  exists kept : list (float * string * string),
    Advise.compute_on_project Sample.payload_lt Sample.fill_package_digests
      Advise.LATEST (Some 2) (Some 5) Sample.walk
    = Ok (map (fun y => (y.1.2, Sample.fill_package_digests y.2)) kept)
    /\ kept ≡ₚ [Sample.stack 0.25%float "stack-a";
                Sample.stack 0.75%float "stack-b"].
Proof.
  destruct (compute_on_project_with_limit Sample.payload_lt
              Sample.fill_package_digests Advise.LATEST 2 5 Sample.walk)
    as (kept & Hok & Hkept); [lia|left; cbn; lia|].
  exists kept. split; [exact Hok|exact Hkept].
Defined.

(** ** More on [CutPreReleases.run] *)

Lemma removals_none (pvs : list PreReleases.PackageVersion)
  (ch : PreReleases.StepChange) :
  Forall (fun pv => PreReleases.is_prerelease pv = false) pvs ->
  fold_left
    (fun ch package_version =>
       if PreReleases.is_prerelease package_version
       then PreReleases.remove_package_tuple ch
              (PreReleases.to_tuple package_version)
       else ch)
    pvs ch = ch.
Proof.
  revert ch. induction pvs as [|pv pvs IH]; intros ch Hpvs; [done|].
  apply Forall_cons in Hpvs as [Hpv Hpvs]. cbn [fold_left].
  rewrite Hpv. by apply IH.
Qed.

Lemma apply_change_nothing (step_context : PreReleases.StepContext) :
  PreReleases.apply_change step_context {| PreReleases.to_remove := [] |}
  = step_context.
Proof.
  destruct step_context as [deps]. unfold PreReleases.apply_change.
  cbn [PreReleases.to_remove PreReleases.dependencies]. f_equal.
  induction deps as [|pv deps IH]; [done|].
  rewrite filter_cons_True by apply not_elem_of_nil. by rewrite IH.
Qed.

(** Running the step again changes nothing: [run] on the step and the
    context a first [run] left behind gives them back, the context
    holding no package version any more that the loop of [run] would
    ask to remove. *)
Theorem cut_prereleases_idempotent
  (self : PreReleases.CutPreReleases)
  (step_context : PreReleases.StepContext) :
  PreReleases.run (PreReleases.run self step_context).1
    (PreReleases.run self step_context).2
  = PreReleases.run self step_context.
Proof.
  unfold PreReleases.run at 2 3.
  destruct (PreReleases.prereleases_allowed self) eqn:Ha; cbn [fst snd].
  - unfold PreReleases.run. cbn. by rewrite Ha.
  - set (ch := fold_left _ _ _).
    unfold PreReleases.run. cbn [PreReleases.prereleases_allowed].
    rewrite Ha, removals_none.
    + fold ch. by rewrite apply_change_nothing.
    + apply Forall_forall. intros pv Hin.
      unfold PreReleases.iter_all_dependencies, PreReleases.apply_change in Hin.
      cbn [PreReleases.dependencies] in Hin.
      apply list_elem_of_filter in Hin as [Hnot Hin].
      apply not_true_is_false. intros Hflag. apply Hnot.
      subst ch. apply removals_spec. right. by exists pv.
Qed.
